(** * go-reddit: the request/response pipeline and the entity decoders

    A shallow embedding of the shared plumbing of the Reddit client:
    the rate gate, the parsing of the rate headers, the classification of
    responses, request construction with the [.json] suffix of the read-only
    host, and the [UnmarshalJSON] methods of the entities of [json.go].

    Go values are embedded as follows.  [int], [int64] and [time.Duration]
    are [Z] with the 64-bit wrap-around written out where the code can
    overflow; a Go [string] is a [string]; a [[]byte] is a [list byte]; an
    [http.Header] is a finite map from canonical keys to value lists; an
    [error] that may be [nil] is an [option].  Effects (the clock, the
    transport, response bodies, writers) are threaded through an explicit
    world, and a run can end by returning or by a runtime panic. *)

From Stdlib Require Import ZArith Lia List String Ascii Bool.
From Stdlib.Strings Require Import Byte.
From stdpp Require Import gmap strings pretty.
Import ListNotations.

#[local] Open Scope string_scope.
#[local] Open Scope Z_scope.

(** ** Go base types *)

(** [math.MinInt64], [math.MaxInt64] and the conversion that keeps the low
    64 bits of a mathematical integer in two's complement. *)
Definition minInt64 : Z := - 2 ^ 63.
Definition maxInt64 : Z := 2 ^ 63 - 1.
Definition wrap64 (z : Z) : Z := (z + 2 ^ 63) mod 2 ^ 64 - 2 ^ 63.

Definition ascii_le (a b : ascii) : bool := (N_of_ascii a <=? N_of_ascii b)%N.
Definition byte_le (a b : byte) : bool := (Byte.to_N a <=? Byte.to_N b)%N.

(** An error value of a Go library, known by its rendering [Error()]. *)
Record GoError := { Error : string }.

(** ** strconv *)
Module strconv.

Inductive NumError := ErrSyntax | ErrRange.

Definition isDigit (c : ascii) : bool := ascii_le "0" c && ascii_le c "9".
Definition digitVal (c : ascii) : Z := Z.of_N (N_of_ascii c) - 48.

(** The loop of [ParseUint(s, 10, 64)]: [n] is the value read so far.  A
    byte that is not a decimal digit ends the loop with a syntax error and
    value 0; an overflow ends it at once with [maxUint64] and a range
    error, whatever follows. *)
Fixpoint ParseUint_loop (n : Z) (s : string) : Z * option NumError :=
  match s with
  | EmptyString => (n, None)
  | String c rest =>
      if negb (isDigit c) then (0, Some ErrSyntax)
      else if (2 ^ 64 - 1) / 10 + 1 <=? n then (2 ^ 64 - 1, Some ErrRange)
      else
        let n1 := n * 10 + digitVal c in
        if 2 ^ 64 - 1 <? n1 then (2 ^ 64 - 1, Some ErrRange)
        else ParseUint_loop n1 rest
  end.

Definition ParseUint (s : string) : Z * option NumError :=
  match s with
  | EmptyString => (0, Some ErrSyntax)
  | _ => ParseUint_loop 0 s
  end.

(** [ParseInt(s, 10, 64)]. *)
Definition ParseInt (s : string) : Z * option NumError :=
  match s with
  | EmptyString => (0, Some ErrSyntax)
  | String c rest =>
      let neg := Ascii.eqb c "-" in
      let s' := if Ascii.eqb c "+" then rest else if neg then rest else s in
      let '(un, err) := ParseUint s' in
      match err with
      | Some ErrSyntax => (0, Some ErrSyntax)
      | _ =>
          let cutoff := 2 ^ 63 in
          if negb neg && (cutoff <=? un) then (cutoff - 1, Some ErrRange)
          else if neg && (cutoff <? un) then (- cutoff, Some ErrRange)
          else (if neg then - un else un, None)
      end
  end.

(** The fast path of [Atoi] for strings shorter than 19 bytes. *)
Fixpoint Atoi_loop (n : Z) (s : string) : Z * option NumError :=
  match s with
  | EmptyString => (n, None)
  | String ch rest =>
      if isDigit ch then Atoi_loop (n * 10 + digitVal ch) rest
      else (0, Some ErrSyntax)
  end.

(** [Atoi] on a platform whose [int] has 64 bits. *)
Definition Atoi (s : string) : Z * option NumError :=
  let sLen := Z.of_nat (String.length s) in
  if (0 <? sLen) && (sLen <? 19) then
    match s with
    | EmptyString => (0, Some ErrSyntax)
    | String c rest =>
        let signed := Ascii.eqb c "-" || Ascii.eqb c "+" in
        let s' := if signed then rest else s in
        if signed && (String.length s' <? 1)%nat then (0, Some ErrSyntax)
        else
          let '(n, err) := Atoi_loop 0 s' in
          match err with
          | Some e => (0, Some e)
          | None => (if Ascii.eqb c "-" then - n else n, None)
          end
    end
  else ParseInt s.

(** Decimal digit strings of at most 15 digits denote integers below
    [2^53]: [ParseFloat(s, 64)] returns them exactly and the conversion
    [int(v)] gives the same integer back. *)
Fixpoint allDigits (s : string) : bool :=
  match s with
  | EmptyString => true
  | String c rest => isDigit c && allDigits rest
  end.

Definition smallDecimal (s : string) : bool :=
  negb (String.eqb s EmptyString) && allDigits s && (String.length s <=? 15)%nat.

End strconv.

(** ** time *)
Module time.

(** A [time.Time] is the number of nanoseconds since the zero time
    (January 1, year 1, 00:00 UTC); the monotonic reading, which
    [Truncate] strips, is not kept.  A [time.Duration] is an [int64]
    number of nanoseconds. *)
Definition Time := Z.
Definition Duration := Z.

Definition Second : Duration := 1000000000.

Definition IsZero (t : Time) : bool := t =? 0.
Definition Before (t u : Time) : bool := t <? u.
Definition Add (t : Time) (d : Duration) : Time := t + d.
(** [t.Truncate(d)] for [d > 0]: round down to a multiple of [d] since the
    zero time. *)
Definition Truncate (t : Time) (d : Duration) : Time := t - t mod d.
(** The product of two durations, in [int64]. *)
Definition mul (a b : Duration) : Duration := wrap64 (a * b).

End time.

(** ** encoding/json: the syntax scanner

    [json.Unmarshal] first runs [checkValid] over the whole input.  The
    scanner below is the state machine of the library's [scanner.go]: one
    step function per state, a stack of enclosing objects and arrays, and
    the sticky error.  The byte offset that a [SyntaxError] also records does
    not show in its [Error()] text and is left out. *)
Module json.

#[local] Open Scope byte_scope.

Inductive opcode :=
| scanContinue | scanBeginLiteral | scanBeginObject | scanObjectKey
| scanObjectValue | scanEndObject | scanBeginArray | scanArrayValue
| scanEndArray | scanSkipSpace | scanEnd | scanError.

Inductive parse_state := parseObjectKey | parseObjectValue | parseArrayValue.

Inductive step_fn :=
| stateBeginValue | stateBeginValueOrEmpty | stateBeginStringOrEmpty
| stateBeginString | stateEndValue | stateEndTop
| stateInString | stateInStringEsc | stateInStringEscU | stateInStringEscU1
| stateInStringEscU12 | stateInStringEscU123
| stateNeg | state1 | state0 | stateDot | stateDot0 | stateE | stateESign
| stateE0 | stateT | stateTr | stateTru | stateF | stateFa | stateFal
| stateFals | stateN | stateNu | stateNul | stateError.

(** [parseState] is the stack of the scanner, innermost entry first. *)
Record scanner := {
  step : step_fn;
  endTop : bool;
  parseState : list parse_state;
  err : option GoError }.

Definition maxNestingDepth : Z := 10000.

Definition reset : scanner :=
  {| step := stateBeginValue; endTop := false; parseState := []; err := None |}.

Definition set_step (f : step_fn) (s : scanner) : scanner :=
  {| step := f; endTop := endTop s; parseState := parseState s; err := err s |}.

Definition isSpace (c : byte) : bool :=
  byte_le c " " && (Byte.eqb c " " || Byte.eqb c x09 || Byte.eqb c x0d || Byte.eqb c x0a).

Definition isDigit (c : byte) : bool := byte_le "0" c && byte_le c "9".
Definition isDigit19 (c : byte) : bool := byte_le "1" c && byte_le c "9".
Definition isHex (c : byte) : bool :=
  isDigit c || (byte_le "a" c && byte_le c "f") || (byte_le "A" c && byte_le c "F").

(** *** Rendering of the offending byte, [quoteChar] *)

Definition hexDigit (n : N) : ascii :=
  ascii_of_N (if (n <? 10)%N then 48 + n else 87 + n).

(** [strconv.IsPrint] on the runes U+0000 to U+00FF. *)
Definition isPrint (n : N) : bool :=
  ((32 <=? n) && (n <=? 126))%N || ((161 <=? n) && (n <=? 255) && negb (n =? 173))%N.

(** The body of [strconv.Quote(string(c))] without its double quotes. *)
Definition quoteRune (n : N) : string :=
  if (n =? 92)%N then "\\"
  else if isPrint n then
    if (n <? 128)%N then String (ascii_of_N n) EmptyString
    else String (ascii_of_N (192 + n / 64)) (String (ascii_of_N (128 + n mod 64)) EmptyString)
  else if (n =? 7)%N then "\a"
  else if (n =? 8)%N then "\b"
  else if (n =? 12)%N then "\f"
  else if (n =? 10)%N then "\n"
  else if (n =? 13)%N then "\r"
  else if (n =? 9)%N then "\t"
  else if (n =? 11)%N then "\v"
  else if ((n <? 32) || (n =? 127))%N then
    "\x" +:+ String (hexDigit (n / 16)) (String (hexDigit (n mod 16)) EmptyString)
  else
    "\u00" +:+ String (hexDigit (n / 16)) (String (hexDigit (n mod 16)) EmptyString).

Definition quoteChar (c : byte) : string :=
  match c with
  | "'" => "'\''"
  | x22 => String "'" (String (ascii_of_N 34) "'")
  | _ => "'" +:+ quoteRune (Byte.to_N c) +:+ "'"
  end.

(** [s.error(c, context)] *)
Definition error (s : scanner) (c : byte) (context : string) : opcode * scanner :=
  (scanError,
   {| step := stateError; endTop := endTop s; parseState := parseState s;
      err := Some {| Error := "invalid character " +:+ quoteChar c +:+ " " +:+ context |} |}).

Definition pushParseState (s : scanner) (c : byte) (newParseState : parse_state)
    (successState : opcode) : opcode * scanner :=
  let s' := {| step := step s; endTop := endTop s;
               parseState := newParseState :: parseState s; err := err s |} in
  if Z.of_nat (length (parseState s')) <=? maxNestingDepth then (successState, s')
  else error s' c "exceeded max depth".

Definition popParseState (s : scanner) : scanner :=
  match tail (parseState s) with
  | [] => {| step := stateEndTop; endTop := true; parseState := []; err := err s |}
  | ps => {| step := stateEndValue; endTop := endTop s; parseState := ps; err := err s |}
  end.

(** Replaces the innermost entry of the stack, [s.parseState[n-1] = p]. *)
Definition set_top (p : parse_state) (s : scanner) : scanner :=
  {| step := step s; endTop := endTop s;
     parseState := p :: tail (parseState s); err := err s |}.

Definition do_stateEndTop (s : scanner) (c : byte) : opcode * scanner :=
  if negb (isSpace c) then (scanEnd, snd (error s c "after top-level value"))
  else (scanEnd, s).

Definition do_stateEndValue (s : scanner) (c : byte) : opcode * scanner :=
  match parseState s with
  | [] =>
      do_stateEndTop
        {| step := stateEndTop; endTop := true; parseState := []; err := err s |} c
  | ps :: _ =>
      if isSpace c then (scanSkipSpace, set_step stateEndValue s)
      else
        match ps with
        | parseObjectKey =>
            if Byte.eqb c ":" then
              (scanObjectKey, set_step stateBeginValue (set_top parseObjectValue s))
            else error s c "after object key"
        | parseObjectValue =>
            if Byte.eqb c "," then
              (scanObjectValue, set_step stateBeginString (set_top parseObjectKey s))
            else if Byte.eqb c "}" then (scanEndObject, popParseState s)
            else error s c "after object key:value pair"
        | parseArrayValue =>
            if Byte.eqb c "," then (scanArrayValue, set_step stateBeginValue s)
            else if Byte.eqb c "]" then (scanEndArray, popParseState s)
            else error s c "after array element"
        end
  end.

Definition do_stateBeginValue (s : scanner) (c : byte) : opcode * scanner :=
  if isSpace c then (scanSkipSpace, s)
  else if Byte.eqb c "{" then
    pushParseState (set_step stateBeginStringOrEmpty s) c parseObjectKey scanBeginObject
  else if Byte.eqb c "[" then
    pushParseState (set_step stateBeginValueOrEmpty s) c parseArrayValue scanBeginArray
  else if Byte.eqb c x22 then (scanBeginLiteral, set_step stateInString s)
  else if Byte.eqb c "-" then (scanBeginLiteral, set_step stateNeg s)
  else if Byte.eqb c "0" then (scanBeginLiteral, set_step state0 s)
  else if Byte.eqb c "t" then (scanBeginLiteral, set_step stateT s)
  else if Byte.eqb c "f" then (scanBeginLiteral, set_step stateF s)
  else if Byte.eqb c "n" then (scanBeginLiteral, set_step stateN s)
  else if isDigit19 c then (scanBeginLiteral, set_step state1 s)
  else error s c "looking for beginning of value".

Definition do_stateBeginValueOrEmpty (s : scanner) (c : byte) : opcode * scanner :=
  if isSpace c then (scanSkipSpace, s)
  else if Byte.eqb c "]" then do_stateEndValue s c
  else do_stateBeginValue s c.

Definition do_stateBeginString (s : scanner) (c : byte) : opcode * scanner :=
  if isSpace c then (scanSkipSpace, s)
  else if Byte.eqb c x22 then (scanBeginLiteral, set_step stateInString s)
  else error s c "looking for beginning of object key string".

Definition do_stateBeginStringOrEmpty (s : scanner) (c : byte) : opcode * scanner :=
  if isSpace c then (scanSkipSpace, s)
  else if Byte.eqb c "}" then do_stateEndValue (set_top parseObjectValue s) c
  else do_stateBeginString s c.

Definition do_stateInString (s : scanner) (c : byte) : opcode * scanner :=
  if Byte.eqb c x22 then (scanContinue, set_step stateEndValue s)
  else if Byte.eqb c x5c then (scanContinue, set_step stateInStringEsc s)
  else if (Byte.to_N c <? 32)%N then error s c "in string literal"
  else (scanContinue, s).

Definition do_stateInStringEsc (s : scanner) (c : byte) : opcode * scanner :=
  if existsb (Byte.eqb c) ["b"; "f"; "n"; "r"; "t"; x5c; "/"; x22] then
    (scanContinue, set_step stateInString s)
  else if Byte.eqb c "u" then (scanContinue, set_step stateInStringEscU s)
  else error s c "in string escape code".

(** The four states that read the hexadecimal digits after [\u]. *)
Definition do_hex (next : step_fn) (s : scanner) (c : byte) : opcode * scanner :=
  if isHex c then (scanContinue, set_step next s)
  else error s c "in \u hexadecimal character escape".

Definition do_state0 (s : scanner) (c : byte) : opcode * scanner :=
  if Byte.eqb c "." then (scanContinue, set_step stateDot s)
  else if Byte.eqb c "e" || Byte.eqb c "E" then (scanContinue, set_step stateE s)
  else do_stateEndValue s c.

Definition do_state1 (s : scanner) (c : byte) : opcode * scanner :=
  if isDigit c then (scanContinue, set_step state1 s)
  else do_state0 s c.

Definition do_stateNeg (s : scanner) (c : byte) : opcode * scanner :=
  if Byte.eqb c "0" then (scanContinue, set_step state0 s)
  else if isDigit19 c then (scanContinue, set_step state1 s)
  else error s c "in numeric literal".

Definition do_stateDot (s : scanner) (c : byte) : opcode * scanner :=
  if isDigit c then (scanContinue, set_step stateDot0 s)
  else error s c "after decimal point in numeric literal".

Definition do_stateDot0 (s : scanner) (c : byte) : opcode * scanner :=
  if isDigit c then (scanContinue, s)
  else if Byte.eqb c "e" || Byte.eqb c "E" then (scanContinue, set_step stateE s)
  else do_stateEndValue s c.

Definition do_stateESign (s : scanner) (c : byte) : opcode * scanner :=
  if isDigit c then (scanContinue, set_step stateE0 s)
  else error s c "in exponent of numeric literal".

Definition do_stateE (s : scanner) (c : byte) : opcode * scanner :=
  if Byte.eqb c "+" || Byte.eqb c "-" then (scanContinue, set_step stateESign s)
  else do_stateESign s c.

Definition do_stateE0 (s : scanner) (c : byte) : opcode * scanner :=
  if isDigit c then (scanContinue, s)
  else do_stateEndValue s c.

(** A state inside one of the literals [true], [false], [null]: the byte
    [want] moves on to [next], any other byte is an error. *)
Definition do_lit (want : byte) (next : step_fn) (context : string)
    (s : scanner) (c : byte) : opcode * scanner :=
  if Byte.eqb c want then (scanContinue, set_step next s)
  else error s c context.

(** [s.step(s, c)] *)
Definition apply_step (s : scanner) (c : byte) : opcode * scanner :=
  match step s with
  | stateBeginValue => do_stateBeginValue s c
  | stateBeginValueOrEmpty => do_stateBeginValueOrEmpty s c
  | stateBeginStringOrEmpty => do_stateBeginStringOrEmpty s c
  | stateBeginString => do_stateBeginString s c
  | stateEndValue => do_stateEndValue s c
  | stateEndTop => do_stateEndTop s c
  | stateInString => do_stateInString s c
  | stateInStringEsc => do_stateInStringEsc s c
  | stateInStringEscU => do_hex stateInStringEscU1 s c
  | stateInStringEscU1 => do_hex stateInStringEscU12 s c
  | stateInStringEscU12 => do_hex stateInStringEscU123 s c
  | stateInStringEscU123 => do_hex stateInString s c
  | stateNeg => do_stateNeg s c
  | state1 => do_state1 s c
  | state0 => do_state0 s c
  | stateDot => do_stateDot s c
  | stateDot0 => do_stateDot0 s c
  | stateE => do_stateE s c
  | stateESign => do_stateESign s c
  | stateE0 => do_stateE0 s c
  | stateT => do_lit "r" stateTr "in literal true (expecting 'r')" s c
  | stateTr => do_lit "u" stateTru "in literal true (expecting 'u')" s c
  | stateTru => do_lit "e" stateEndValue "in literal true (expecting 'e')" s c
  | stateF => do_lit "a" stateFa "in literal false (expecting 'a')" s c
  | stateFa => do_lit "l" stateFal "in literal false (expecting 'l')" s c
  | stateFal => do_lit "s" stateFals "in literal false (expecting 's')" s c
  | stateFals => do_lit "e" stateEndValue "in literal false (expecting 'e')" s c
  | stateN => do_lit "u" stateNu "in literal null (expecting 'u')" s c
  | stateNu => do_lit "l" stateNul "in literal null (expecting 'l')" s c
  | stateNul => do_lit "l" stateEndValue "in literal null (expecting 'l')" s c
  | stateError => (scanError, s)
  end.

(** [s.eof()] *)
Definition eof (s : scanner) : opcode * scanner :=
  match err s with
  | Some _ => (scanError, s)
  | None =>
      if endTop s then (scanEnd, s)
      else
        let s' := snd (apply_step s " ") in
        if endTop s' then (scanEnd, s')
        else
          match err s' with
          | Some _ => (scanError, s')
          | None =>
              (scanError,
               {| step := step s'; endTop := endTop s'; parseState := parseState s';
                  err := Some {| Error := "unexpected end of JSON input" |} |})
          end
  end.

(** The loop of [checkValid]: the scanner's [err] as soon as a step answers
    [scanError], the final scanner otherwise. *)
Fixpoint scan_bytes (s : scanner) (data : list byte) : option GoError + scanner :=
  match data with
  | [] => inr s
  | c :: rest =>
      match apply_step s c with
      | (scanError, s') => inl (err s')
      | (_, s') => scan_bytes s' rest
      end
  end.

(** [checkValid(data, scan)]: [None] is the [nil] error. *)
Definition checkValid (data : list byte) : option GoError :=
  match scan_bytes reset data with
  | inl e => e
  | inr s =>
      match eof s with
      | (scanError, s') => err s'
      | _ => None
      end
  end.

(** A scanner has an error exactly when it is in the error state; every
    scanner that [reset] leads to is of this kind. *)
Definition consistent (s : scanner) : bool :=
  match step s, err s with
  | stateError, Some _ => true
  | stateError, None => false
  | _, Some _ => false
  | _, None => true
  end.

(** [s.eof()] answers [scanEnd]. *)
Definition accepts (s : scanner) : bool :=
  match fst (eof s) with
  | scanEnd => true
  | _ => false
  end.

(** The bytes of the top-level value of a valid input, [d.data[start:d.off]]
    in [d.value]: the input without the white space around the value. *)
Fixpoint trimLeft (data : list byte) : list byte :=
  match data with
  | c :: rest => if isSpace c then trimLeft rest else data
  | [] => []
  end.

Definition trimSpace (data : list byte) : list byte :=
  rev (trimLeft (rev (trimLeft data))).

End json.

(** ** net/url and net/http: the data the pipeline handles *)
Module url.

(** The fields of a [url.URL] that the client reads or writes. *)
Record URL := {
  Scheme : string;
  Host : string;
  Path : string;
  RawQuery : string }.

Definition set_Path (p : string) (u : URL) : URL :=
  {| Scheme := Scheme u; Host := Host u; Path := p; RawQuery := RawQuery u |}.

End url.

Module http.

Definition StatusTooManyRequests : Z := 429.

(** [http.StatusText] on the one code the client asks for. *)
Definition StatusText (code : Z) : string :=
  if code =? 429 then "Too Many Requests" else EmptyString.

(** The bytes allowed in a header field name (RFC 7230 token bytes). *)
Definition validHeaderFieldByte (c : ascii) : bool :=
  let n := N_of_ascii c in
  ((48 <=? n) && (n <=? 57))%N || ((65 <=? n) && (n <=? 90))%N
  || ((97 <=? n) && (n <=? 122))%N
  || existsb (Ascii.eqb c)
       ["!"; "#"; "$"; "%"; "&"; "'"; "*"; "+"; "-"; "."; "^"; "_"; "`"; "|"; "~"]%char.

Fixpoint validKey (s : string) : bool :=
  match s with
  | EmptyString => true
  | String c rest => validHeaderFieldByte c && validKey rest
  end.

Definition isLower (c : ascii) : bool := ascii_le "a" c && ascii_le c "z".
Definition isUpper (c : ascii) : bool := ascii_le "A" c && ascii_le c "Z".

(** Upper case for the first letter and for a letter after a hyphen, lower
    case for the other letters. *)
Fixpoint canonicalize (upper : bool) (s : string) : string :=
  match s with
  | EmptyString => EmptyString
  | String c rest =>
      let c' :=
        if upper && isLower c then ascii_of_N (N_of_ascii c - 32)
        else if negb upper && isUpper c then ascii_of_N (N_of_ascii c + 32)
        else c in
      String c' (canonicalize (Ascii.eqb c' "-") rest)
  end.

(** [textproto.CanonicalMIMEHeaderKey]: a key with a byte that no field
    name may hold is returned unchanged. *)
Definition CanonicalMIMEHeaderKey (s : string) : string :=
  if validKey s then canonicalize true s else s.

(** An [http.Header] is a [map[string][]string]. *)
Abbreviation Header := (gmap string (list string)).

Definition Header_Get (h : Header) (key : string) : string :=
  match h !! CanonicalMIMEHeaderKey key with
  | Some (v :: _) => v
  | _ => EmptyString
  end.

Definition Header_Add (h : Header) (key value : string) : Header :=
  let k := CanonicalMIMEHeaderKey key in
  <[k := (default [] (h !! k) ++ [value])%list]> h.

End http.

Module Request.
(** An [*http.Request]; a [nil] body is [None]. *)
Record t := {
  Method : string;
  URL : url.URL;
  Header : http.Header;
  Body : option (list byte) }.

Definition set_URL (u : url.URL) (r : t) : t :=
  {| Method := Method r; URL := u; Header := Header r; Body := Body r |}.
Definition set_Header (h : http.Header) (r : t) : t :=
  {| Method := Method r; URL := URL r; Header := h; Body := Body r |}.
End Request.

Module Response.
(** An [*http.Response].  [Body] is a reference to the body stream, which
    lives in the world because reading and closing change it. *)
Record t := {
  Status : string;
  StatusCode : Z;
  Header : http.Header;
  Body : nat;
  ContentLength : Z;
  Request : option Request.t }.
End Response.

(** ** The errors of the package *)

Record InternalError := { InternalError_Message : string }.

Record JSONError := {
  JSONError_Message : string;
  (** JSON data that caused this error *)
  JSONError_Data : list byte }.

Record ResponseError := {
  ResponseError_Message : string;
  (** HTTP response that caused this error *)
  ResponseError_Response : option Response.t }.

(** [Rate] represents the rate limit for the client. *)
Record Rate := {
  Remaining : Z;
  Used : Z;
  Reset : time.Time }.

Record RateLimitError := {
  RateLimitError_ResponseError : ResponseError;
  (** Rate specifies the last known rate limit for the client *)
  RateLimitError_Rate : Rate }.

(** A non-nil [error] as the package returns it: one of its four error
    types, or the error of a library handed on as it is. *)
Inductive error :=
| ErrInternal (e : InternalError)
| ErrJSON (e : JSONError)
| ErrResponse (e : ResponseError)
| ErrRateLimit (e : RateLimitError)
| ErrLib (e : GoError).

(** ** The world the pipeline runs in *)

(** A body stream: the bytes that reads will still deliver, how the stream
    ends once they are used up ([None] is [io.EOF], otherwise the read
    error, which later reads report again), and whether [Close] was
    called. *)
Record Body := {
  pending : list byte;
  ending : option GoError;
  closed : bool }.

(** What the transport hands back for one request: a failure, with the
    response that [http.Client.Do] may still return next to it, or a
    response together with the stream of its body. *)
Record Reply := {
  Reply_Status : string;
  Reply_StatusCode : Z;
  Reply_Header : http.Header;
  Reply_ContentLength : Z;
  Reply_content : list byte;
  Reply_ending : option GoError }.

Inductive Answer :=
| Failed (r : option Reply) (e : GoError)
| Replied (r : Reply).

(** The objects that user code holds references to: the body streams and
    what each [io.Writer] destination has received, with the error, if any,
    that the writer answers to a write. *)
Record Heap := {
  bodies : gmap nat Body;
  sinks : gmap nat (list byte * option GoError) }.

(** [clock n] is the [n]-th reading of [time.Now()], [ticks] the number of
    readings taken so far, and [sent] the requests handed to the transport,
    latest first. *)
Record World := {
  clock : nat -> time.Time;
  ticks : nat;
  sent : list Request.t;
  heap : Heap }.

(** A [context.Context], as far as the transport looks at it. *)
Definition Context := nat.

(** [RequestCompletionCallback]: user code that is shown the request and the
    response and may use the streams and writers it can reach. *)
Definition RequestCompletionCallback := Request.t -> Response.t -> Heap -> Heap.

(** [Credentials] are used to authenticate to make requests to the Reddit API. *)
Record Credentials := {
  ID : string;
  Secret : string;
  Username : string;
  Password : string }.

(** A service of the client ([AccountService], ...): a handle that points
    back to the client. *)
Inductive Service := service (name : string).

Module Client.
(** [Client] manages communication with the Reddit API.  The field [client]
    is the HTTP client with its transports: it answers a request as a
    function of the context and of the number of requests sent before.  The
    mutex [rateMu] has no state in a sequential run and is left out. *)
Record t := {
  client : Context -> Request.t -> nat -> Answer;
  BaseURL : url.URL;
  TokenURL : url.URL;
  userAgent : string;
  rate : Rate;
  credentials : Credentials;
  redditID : string;
  Account : Service;
  Captcha : Service;
  Collection : Service;
  Emoji : Service;
  Flair : Service;
  Gold : Service;
  LinkAndComment : Service;
  Listings : Service;
  Message : Service;
  Moderation : Service;
  Multi : Service;
  Subreddit : Service;
  User : Service;
  Widget : Service;
  Wiki : Service;
  oauth2Transport : option nat;
  onRequestCompleted : option RequestCompletionCallback }.

(** [c.rate = r] *)
Definition set_rate (r : Rate) (c : t) : t :=
  {| client := client c; BaseURL := BaseURL c; TokenURL := TokenURL c;
     userAgent := userAgent c; rate := r; credentials := credentials c;
     redditID := redditID c; Account := Account c; Captcha := Captcha c;
     Collection := Collection c; Emoji := Emoji c; Flair := Flair c;
     Gold := Gold c; LinkAndComment := LinkAndComment c; Listings := Listings c;
     Message := Message c; Moderation := Moderation c; Multi := Multi c;
     Subreddit := Subreddit c; User := User c; Widget := Widget c; Wiki := Wiki c;
     oauth2Transport := oauth2Transport c;
     onRequestCompleted := onRequestCompleted c |}.
End Client.

(** The state of a run: the client behind the receiver pointer, and the
    world. *)
Record State := {
  this : Client.t;
  world : World }.

(** How a call ends: it returns, it panics, or it never comes back; [st] is
    the state it leaves behind, or the state in which it got stuck. *)
Inductive Outcome (A : Type) :=
| Returns (a : A) (st : State)
| Panics (reason : string) (st : State)
| Diverges (st : State).
Arguments Returns {A} a st.
Arguments Panics {A} reason st.
Arguments Diverges {A} st.

Definition final {A} (o : Outcome A) : State :=
  match o with
  | Returns _ st | Panics _ st | Diverges st => st
  end.

Definition M (A : Type) := State -> Outcome A.

Definition ret {A} (a : A) : M A := fun st => Returns a st.

Definition bind {A B} (m : M A) (k : A -> M B) : M B :=
  fun st =>
    match m st with
    | Returns a st' => k a st'
    | Panics reason st' => Panics reason st'
    | Diverges st' => Diverges st'
    end.

Notation "'let*' x := m 'in' k" := (bind m (fun x => k))
  (at level 10, x pattern, m at level 100, k at level 200).

Definition panic {A} (reason : string) : M A := fun st => Panics reason st.

Definition diverge {A} : M A := fun st => Diverges st.

Definition get_world : M World := fun st => Returns (world st) st.
Definition put_world (w : World) : M unit :=
  fun st => Returns tt {| this := this st; world := w |}.
Definition get_this : M Client.t := fun st => Returns (this st) st.
Definition put_this (c : Client.t) : M unit :=
  fun st => Returns tt {| this := c; world := world st |}.

Definition get_heap : M Heap := let* w := get_world in ret (heap w).
Definition put_heap (h : Heap) : M unit :=
  let* w := get_world in
  put_world {| clock := clock w; ticks := ticks w; sent := sent w; heap := h |}.

(** The panic of a method call or field access through a nil value. *)
Definition nil_dereference : string :=
  "runtime error: invalid memory address or nil pointer dereference".

(** [err.Error()] on an [error] that may be [nil]: calling the method of a
    nil interface value is a runtime panic. *)
Definition Error_of (err : option GoError) : M string :=
  match err with
  | Some e => ret (Error e)
  | None => panic nil_dereference
  end.

(** [time.Now()] *)
Definition time_Now : M time.Time :=
  let* w := get_world in
  let* _ := put_world {| clock := clock w; ticks := S (ticks w);
                         sent := sent w; heap := heap w |} in
  ret (clock w (ticks w)).

(** *** Streams *)

Definition io_EOF : GoError := {| Error := "EOF" |}.
Definition io_ErrUnexpectedEOF : GoError := {| Error := "unexpected EOF" |}.

(** A reference that the heap does not hold is a nil stream. *)
Definition get_body (ref : nat) : M Body :=
  let* h := get_heap in
  match bodies h !! ref with
  | Some b => ret b
  | None => panic nil_dereference
  end.

Definition put_body (ref : nat) (b : Body) : M unit :=
  let* h := get_heap in
  put_heap {| bodies := <[ref := b]> (bodies h); sinks := sinks h |}.

(** [ioutil.ReadAll(body)]: everything up to the end of the stream; reaching
    [io.EOF] is not an error. *)
Definition ioutil_ReadAll (ref : nat) : M (list byte * option GoError) :=
  let* b := get_body ref in
  let* _ := put_body ref {| pending := []; ending := ending b; closed := closed b |} in
  ret (pending b, ending b).

(** [body.Read(p)] for a buffer [p]: the bytes read overwrite the front of
    [p]. *)
Definition Body_Read (ref : nat) (p : list byte) : M (list byte * option GoError) :=
  let* b := get_body ref in
  match pending b with
  | [] => ret (p, Some (default io_EOF (ending b)))
  | _ =>
      let n := Nat.min (length p) (length (pending b)) in
      let* _ := put_body ref {| pending := drop n (pending b); ending := ending b;
                                closed := closed b |} in
      ret ((take n (pending b) ++ drop n p)%list, None)
  end.

(** [body.Close()], whose error the pipeline drops. *)
Definition Body_Close (ref : nat) : M unit :=
  let* h := get_heap in
  match bodies h !! ref with
  | Some b => put_body ref {| pending := pending b; ending := ending b; closed := true |}
  | None => ret tt
  end.

(** [make([]byte, n)] *)
Definition make_bytes (n : Z) : M (list byte) :=
  if n <? 0 then panic "runtime error: makeslice: len out of range"
  else ret (repeat x00 (Z.to_nat n)).

(** [io.Copy(w, body)] from a stream to the writer [w]: the pending bytes go
    to the writer in one write, then the end of the stream is met. *)
Definition io_Copy (w : nat) (ref : nat) : M (option GoError) :=
  let* b := get_body ref in
  let* h := get_heap in
  match sinks h !! w with
  | None => panic nil_dereference
  | Some (got, werr) =>
      match pending b, werr with
      | _ :: _, Some e =>
          let* _ := put_body ref {| pending := []; ending := ending b; closed := closed b |} in
          ret (Some e)
      | _, _ =>
          let* _ := put_heap {| bodies := <[ref := {| pending := []; ending := ending b;
                                                        closed := closed b |}]> (bodies h);
                                sinks := <[w := ((got ++ pending b)%list, werr)]> (sinks h) |} in
          ret (ending b)
      end
  end.

(** A new stream on the heap, under a reference not yet in use. *)
Definition new_body (b : Body) : M nat :=
  let* h := get_heap in
  let ref := fresh (dom (bodies h)) in
  let* _ := put_body ref b in
  ret ref.

(** ** The library functions taken as given

    What the standard library computes and the embedding does not spell out:
    the conversion [int(v)] of a parsed float outside the small decimals, the
    rendering of a [time.Time], the URL parser and printer, and
    [http.NewRequest]. *)
Class Platform := {
  ParseFloat_int : string -> Z;
  Time_String : time.Time -> string;
  url_Parse : string -> GoError + url.URL;
  URL_Parse : url.URL -> string -> GoError + url.URL;
  URL_String : url.URL -> string;
  http_NewRequest : string -> string -> option (list byte) -> GoError + Request.t }.

(** ** The client *)

Definition libraryName := "github.com/MPadilla198/go-reddit".
Definition libraryVersion := "2.1.0".

Definition defaultBaseURL := "https://oauth.reddit.com".
Definition defaultBaseURLReadonly := "https://reddit.com".
Definition defaultTokenURL := "https://www.reddit.com/api/v1/access_token".

Definition mediaTypeJSON := "application/json".
Definition mediaTypeForm := "application/x-www-form-urlencoded".

Definition headerContentType := "Content-Type".
Definition headerAccept := "Accept".
Definition headerUserAgent := "User-Agent".

Definition headerRateLimitRemaining := "x-ratelimit-remaining".
Definition headerRateLimitUsed := "x-ratelimit-used".
Definition headerRateLimitReset := "x-ratelimit-reset".

(** The zero value of [Rate]. *)
Definition Rate_zero : Rate := {| Remaining := 0; Used := 0; Reset := 0 |}.

(** The value to decode into, [v interface{}]: [nil], an [io.Writer], or
    anything else, known by what [json] answers when it unmarshals a JSON
    value into it. *)
Inductive Decoded := DecodeOk | DecodeFails (e : GoError) | DecodeLoops.

Inductive Destination :=
| DestNil
| DestWriter (w : nat)
| DestValue (unmarshal : list byte -> Decoded).

Section Pipeline.
Context {platform : Platform}.

(** [int(v)] for [v, _ := strconv.ParseFloat(s, 64)]. *)
Definition ParseFloat_to_int (s : string) : Z :=
  if strconv.smallDecimal s then fst (strconv.Atoi_loop 0 s) else ParseFloat_int s.

(** The readonly Reddit url needs .json at the end of its path to return
    responses in JSON instead of HTML. *)
Definition appendJSONExtensionToRequestURLPath (req : Request.t) : Request.t :=
  match url_Parse defaultBaseURLReadonly with
  | inl _ => req
  | inr readonlyURL =>
      if negb (String.eqb (url.Host (Request.URL req)) (url.Host readonlyURL)) then req
      else
        Request.set_URL
          (url.set_Path (url.Path (Request.URL req) +:+ ".json") (Request.URL req)) req
  end.

(** [NewRequest] creates an API request with form data as the body. *)
Definition NewRequest (c : Client.t) (method path : string) (form : option (list byte))
    : error + Request.t :=
  match URL_Parse (Client.BaseURL c) path with
  | inl err => inl (ErrInternal {| InternalError_Message := Error err |})
  | inr u =>
      match http_NewRequest method (URL_String u) form with
      | inl err => inl (ErrInternal {| InternalError_Message := Error err |})
      | inr req =>
          let req := appendJSONExtensionToRequestURLPath req in
          let h := http.Header_Add (Request.Header req) headerContentType mediaTypeForm in
          let h := http.Header_Add h headerAccept mediaTypeJSON in
          inr (Request.set_Header h req)
      end
  end.

(** [NewJSONRequest] creates an API request with a JSON body.  The body
    [interface{}] is [None] when nil and otherwise what [Encode] makes of
    it: an error, or the bytes written to the buffer. *)
Definition NewJSONRequest (c : Client.t) (method path : string)
    (body : option (GoError + list byte)) : error + Request.t :=
  match URL_Parse (Client.BaseURL c) path with
  | inl err => inl (ErrInternal {| InternalError_Message := Error err |})
  | inr u =>
      match body with
      | Some (inl err) => inl (ErrJSON {| JSONError_Message := Error err; JSONError_Data := [] |})
      | _ =>
          let buf := match body with Some (inr bs) => bs | _ => [] end in
          match http_NewRequest method (URL_String u) (Some buf) with
          | inl err => inl (ErrInternal {| InternalError_Message := Error err |})
          | inr req =>
              let req := appendJSONExtensionToRequestURLPath req in
              let h := http.Header_Add (Request.Header req) headerContentType mediaTypeJSON in
              let h := http.Header_Add h headerAccept mediaTypeJSON in
              inr (Request.set_Header h req)
          end
      end
  end.

(** [parseRate] parses the rate related headers. *)
Definition parseRate (r : Response.t) : M Rate :=
  let remaining := http.Header_Get (Response.Header r) headerRateLimitRemaining in
  let rate_Remaining :=
    if negb (String.eqb remaining EmptyString) then ParseFloat_to_int remaining else 0 in
  let used := http.Header_Get (Response.Header r) headerRateLimitUsed in
  let rate_Used :=
    if negb (String.eqb used EmptyString) then fst (strconv.Atoi used) else 0 in
  let reset := http.Header_Get (Response.Header r) headerRateLimitReset in
  let* rate_Reset :=
    (if negb (String.eqb reset EmptyString) then
       let v := fst (strconv.ParseInt reset) in
       if negb (v =? 0) then
         let* now := time_Now in
         ret (time.Add (time.Truncate now time.Second) (time.mul time.Second v))
       else ret 0
     else ret 0) in
  ret {| Remaining := rate_Remaining; Used := rate_Used; Reset := rate_Reset |}.

Definition checkRateLimitBeforeDo (req : Request.t) : M (option RateLimitError) :=
  let* c := get_this in
  let rate := Client.rate c in
  if negb (time.IsZero (Reset rate)) && (Remaining rate =? 0) then
    let* now := time_Now in
    if time.Before now (Reset rate) then
      (* Create a fake 429 response. *)
      let* body := new_body {| pending := []; ending := None; closed := false |} in
      let resp :=
        {| Response.Status := http.StatusText http.StatusTooManyRequests;
           Response.StatusCode := http.StatusTooManyRequests;
           Response.Request := Some req;
           Response.Header := ∅;
           Response.Body := body;
           Response.ContentLength := 0 |} in
      ret (Some
             {| RateLimitError_Rate := rate;
                RateLimitError_ResponseError :=
                  {| ResponseError_Response := Some resp;
                     ResponseError_Message :=
                       "API rate limit still exceeded until " +:+ Time_String (Reset rate)
                       +:+ ", not making remote request." |} |})
    else ret None
  else ret None.

Definition response_of (r : Reply) (body : nat) (req : Request.t) : Response.t :=
  {| Response.Status := Reply_Status r;
     Response.StatusCode := Reply_StatusCode r;
     Response.Header := Reply_Header r;
     Response.Body := body;
     Response.ContentLength := Reply_ContentLength r;
     Response.Request := Some req |}.

(** [DoRequestWithClient] submits an HTTP request using the specified
    client. *)
Definition DoRequestWithClient (ctx : Context)
    (client : Context -> Request.t -> nat -> Answer) (req : Request.t)
    : M (option Response.t * option GoError) :=
  let* w := get_world in
  let* _ := put_world {| clock := clock w; ticks := ticks w;
                         sent := req :: sent w; heap := heap w |} in
  match client ctx req (length (sent w)) with
  | Failed None e => ret (None, Some e)
  | Failed (Some r) e =>
      let* body := new_body {| pending := Reply_content r; ending := Reply_ending r;
                               closed := true |} in
      ret (Some (response_of r body req), Some e)
  | Replied r =>
      let* body := new_body {| pending := Reply_content r; ending := Reply_ending r;
                               closed := false |} in
      ret (Some (response_of r body req), None)
  end.

(** [CheckResponse] checks the API response for errors, and returns them if
    present. *)
Definition CheckResponse (r : Response.t) : M (option error) :=
  if String.eqb (http.Header_Get (Response.Header r) headerRateLimitRemaining) "0" then
    let* rate := parseRate r in
    ret (Some (ErrRateLimit
           {| RateLimitError_Rate := rate;
              RateLimitError_ResponseError :=
                {| ResponseError_Response := Some r;
                   ResponseError_Message :=
                     "API rate limit has been exceeded until " +:+ Time_String (Reset rate)
                     +:+ "." |} |}))
  else
    let* (data, err) := ioutil_ReadAll (Response.Body r) in
    match err with
    | None =>
        let* msg := Error_of err in
        ret (Some (ErrJSON {| JSONError_Message := msg; JSONError_Data := data |}))
    | Some _ =>
        if Response.StatusCode r =? 200 then ret None
        else
          let* msg := Error_of err in
          ret (Some (ErrResponse {| ResponseError_Response := Some r;
                                    ResponseError_Message := msg |}))
    end.

(** *** Decoding the body

    [json.NewDecoder(body).Decode(v)].  The decoder reads ahead: its buffer
    is taken to hold the whole pending stream.  [readValue] looks for the end
    of the first JSON value in the buffer, with the scanner [s] and the
    bytes [seen] so far, latest first.  A step that answers [scanError] has
    set the error of the scanner, which [readValue] returns. *)
Definition nonSpace (b : list byte) : bool := existsb (fun c => negb (json.isSpace c)) b.

Fixpoint readValue (s : json.scanner) (seen buf : list byte) (ending : option GoError)
    : GoError + list byte :=
  match buf with
  | [] =>
      match ending with
      | None =>
          match fst (json.apply_step s " "%byte) with
          | json.scanEnd => inr (rev seen)
          | _ => if nonSpace (rev seen) then inl io_ErrUnexpectedEOF else inl io_EOF
          end
      | Some e => inl e
      end
  | c :: rest =>
      match json.apply_step s c with
      | (json.scanEnd, _) => inr (rev seen)
      | (json.scanEndObject, s') | (json.scanEndArray, s') =>
          match json.do_stateEndValue s' " "%byte with
          | (json.scanEnd, _) => inr (rev (c :: seen))
          | (_, s'') => readValue s'' (c :: seen) rest ending
          end
      | (json.scanError, s') =>
          inl (default {| Error := EmptyString |} (json.err s'))
      | (_, s') => readValue s' (c :: seen) rest ending
      end
  end.

Definition Decoder_Decode (body : nat) (unmarshal : list byte -> Decoded)
    : M (option GoError) :=
  let* b := get_body body in
  let* _ := put_body body {| pending := []; ending := ending b; closed := closed b |} in
  match readValue json.reset [] (pending b) (ending b) with
  | inl e => ret (Some e)
  | inr value =>
      match unmarshal value with
      | DecodeOk => ret None
      | DecodeFails e => ret (Some e)
      | DecodeLoops => diverge
      end
  end.

(** [defer Body.Close()]: the stream is closed when the rest of the function
    is left, by a return or by a panic. *)
Definition defer_Close {A} (body : nat) (rest : M A) : M A :=
  fun st =>
    match rest st with
    | Returns a st' =>
        match Body_Close body st' with
        | Returns _ st'' => Returns a st''
        | Panics reason st'' => Panics reason st''
        | Diverges st'' => Diverges st''
        end
    | Panics reason st' =>
        match Body_Close body st' with
        | Returns _ st'' => Panics reason st''
        | Panics reason' st'' => Panics reason' st''
        | Diverges st'' => Diverges st''
        end
    | Diverges st' => Diverges st'
    end.

(** [Do] send an API request and returns the API response.  The API
    response is JSON decoded and stored in the value pointed to by [v], or
    returned as an error if an API error has occurred.  If [v] implements the
    [io.Writer] interface, the raw response will be written to [v], without
    attempting to decode it. *)
Definition Do (ctx : Context) (req : Request.t) (v : Destination)
    : M (option Response.t * option error) :=
  let* gate := checkRateLimitBeforeDo req in
  match gate with
  | Some err => ret (None, Some (ErrRateLimit err))
  | None =>
      let* c := get_this in
      let* (resp, err) := DoRequestWithClient ctx (Client.client c) req in
      match err, resp with
      | Some e, _ =>
          ret (None, Some (ErrResponse {| ResponseError_Message := Error e;
                                          ResponseError_Response := resp |}))
      | None, None =>
          panic nil_dereference
      | None, Some resp =>
          defer_Close (Response.Body resp)
            (let* c := get_this in
             let* _ :=
               (match Client.onRequestCompleted c with
                | Some callback =>
                    let* h := get_heap in put_heap (callback req resp h)
                | None => ret tt
                end) in
             let* rate := parseRate resp in
             let* c := get_this in
             let* _ := put_this (Client.set_rate rate c) in
             let* err := CheckResponse resp in
             match err with
             | Some err => ret (None, Some err)
             | None =>
                 match v with
                 | DestNil => ret (Some resp, None)
                 | DestWriter w =>
                     let* err := io_Copy w (Response.Body resp) in
                     match err with
                     | Some e =>
                         ret (None, Some (ErrInternal {| InternalError_Message := Error e |}))
                     | None => ret (Some resp, None)
                     end
                 | DestValue unmarshal =>
                     let* err := Decoder_Decode (Response.Body resp) unmarshal in
                     match err with
                     | Some _ =>
                         let* data := make_bytes (Response.ContentLength resp) in
                         let* (data, err) := Body_Read (Response.Body resp) data in
                         match err with
                         | Some e =>
                             ret (None, Some (ErrJSON {| JSONError_Message := Error e;
                                                         JSONError_Data := data |}))
                         | None =>
                             let* msg := Error_of err in
                             ret (None, Some (ErrJSON {| JSONError_Message := msg;
                                                         JSONError_Data := data |}))
                         end
                     | None => ret (Some resp, None)
                     end
                 end
             end)
      end
  end.

End Pipeline.

(** ** The entities of [json.go] *)




(** The types of [json.go] that implement [json.Unmarshaler]. *)
Inductive Entity :=
| Listing | Comment | Link | Subreddit | Message | Account | Award | More.

(** A call either comes back with its result or is still running when the
    recursion budget is used up. *)
Inductive Run (A : Type) :=
| Done (a : A)
| OutOfFuel.
Arguments Done {A} a.
Arguments OutOfFuel {A}.

(** [(r *JSONError) Error()] *)
Definition JSONError_Error (r : JSONError) : string :=
  "JSONError: " +:+ JSONError_Message r +:+ String (ascii_of_N 10) EmptyString
  +:+ string_of_list_byte (JSONError_Data r).

(** [json.Unmarshal(data, v)] for a non-nil pointer [v] whose type
    implements [json.Unmarshaler]: after the syntax check the decoder hands
    the bytes of the top-level value to [v.UnmarshalJSON] and returns what
    that returns. *)
Definition json_Unmarshal (UnmarshalJSON : list byte -> Run (option JSONError))
    (data : list byte) : Run (option GoError) :=
  match json.checkValid data with
  | Some e => Done (Some e)
  | None =>
      match UnmarshalJSON (json.trimSpace data) with
      | Done (Some e) => Done (Some {| Error := JSONError_Error e |})
      | Done None => Done None
      | OutOfFuel => OutOfFuel
      end
  end.

(** [UnmarshalJSON] implements the [json.Unmarshaler] interface.  The eight
    methods have the same body: each unmarshals [b] into its own receiver.
    [fuel] bounds the depth of the calls. *)
Fixpoint UnmarshalJSON (T : Entity) (fuel : nat) (b : list byte) : Run (option JSONError) :=
  match fuel with
  | O => OutOfFuel
  | S fuel' =>
      match json_Unmarshal (UnmarshalJSON T fuel') b with
      | Done (Some err) =>
          Done (Some {| JSONError_Message := "error during unmarshal: " +:+ Error err;
                        JSONError_Data := b |})
      | Done None => Done None
      | OutOfFuel => OutOfFuel
      end
  end.

(** JSON text written with single quotes in place of double quotes. *)
Definition json_text (s : string) : list byte :=
  map (fun c => if Byte.eqb c "'"%byte then x22 else c) (list_byte_of_string s).

(** ** A small platform to run the definitions on

    Absolute URLs of the shape [scheme://host/path?query], relative
    references that are plain paths, a time rendered as its number of
    nanoseconds, and no float outside the small decimals. *)
Module Simple.

(** The part of [s] before the first [sep] and the part after it. *)
Definition cut (sep s : string) : option (string * string) :=
  match String.index 0 sep s with
  | Some i =>
      Some (String.substring 0 i s,
            String.substring (i + String.length sep) (String.length s - i - String.length sep) s)
  | None => None
  end.

Definition parse_url (s : string) : GoError + url.URL :=
  match cut "://" s with
  | None => inl {| Error := "parse: missing protocol scheme" |}
  | Some (scheme, rest) =>
      let (rest, query) := match cut "?" rest with Some p => p | None => (rest, EmptyString) end in
      match String.index 0 "/" rest with
      | Some i =>
          inr {| url.Scheme := scheme; url.Host := String.substring 0 i rest;
                 url.Path := String.substring i (String.length rest - i) rest;
                 url.RawQuery := query |}
      | None =>
          inr {| url.Scheme := scheme; url.Host := rest; url.Path := EmptyString;
                 url.RawQuery := query |}
      end
  end.

Definition parse_ref (base : url.URL) (ref : string) : GoError + url.URL :=
  let (path, query) := match cut "?" ref with Some p => p | None => (ref, EmptyString) end in
  inr {| url.Scheme := url.Scheme base; url.Host := url.Host base;
         url.Path := "/" +:+ path; url.RawQuery := query |}.

Definition url_string (u : url.URL) : string :=
  url.Scheme u +:+ "://" +:+ url.Host u +:+ url.Path u
  +:+ (if String.eqb (url.RawQuery u) EmptyString then EmptyString else "?" +:+ url.RawQuery u).

Definition new_request (method urlStr : string) (body : option (list byte))
    : GoError + Request.t :=
  match parse_url urlStr with
  | inl e => inl e
  | inr u =>
      inr {| Request.Method := if String.eqb method EmptyString then "GET" else method;
             Request.URL := u; Request.Header := ∅; Request.Body := body |}
  end.

Definition platform : Platform :=
  {| ParseFloat_int := fun _ => 0;
     Time_String := fun t => pretty t;
     url_Parse := parse_url;
     URL_Parse := parse_ref;
     URL_String := url_string;
     http_NewRequest := new_request |}.

(** The two base URLs of [newClient] and [NewReadonlyClient]. *)
Definition oauthURL : url.URL :=
  {| url.Scheme := "https"; url.Host := "oauth.reddit.com"; url.Path := EmptyString;
     url.RawQuery := EmptyString |}.
Definition readonlyURL : url.URL :=
  {| url.Scheme := "https"; url.Host := "reddit.com"; url.Path := EmptyString;
     url.RawQuery := EmptyString |}.
Definition tokenURL : url.URL :=
  {| url.Scheme := "https"; url.Host := "www.reddit.com";
     url.Path := "/api/v1/access_token"; url.RawQuery := EmptyString |}.

(** The client of [newClient], over a given transport. *)
Definition newClient (transport : Context -> Request.t -> nat -> Answer) : Client.t :=
  {| Client.client := transport;
     Client.BaseURL := oauthURL;
     Client.TokenURL := tokenURL;
     Client.userAgent := EmptyString;
     Client.rate := Rate_zero;
     Client.credentials :=
       {| ID := EmptyString; Secret := EmptyString; Username := EmptyString;
          Password := EmptyString |};
     Client.redditID := EmptyString;
     Client.Account := service "Account";
     Client.Captcha := service "Captcha";
     Client.Collection := service "Collection";
     Client.Emoji := service "Emoji";
     Client.Flair := service "Flair";
     Client.Gold := service "Gold";
     Client.LinkAndComment := service "LinkAndComment";
     Client.Listings := service "Listings";
     Client.Message := service "Message";
     Client.Moderation := service "Moderation";
     Client.Multi := service "Multi";
     Client.Subreddit := service "Subreddit";
     Client.User := service "User";
     Client.Widget := service "Widget";
     Client.Wiki := service "Wiki";
     Client.oauth2Transport := None;
     Client.onRequestCompleted := None |}.

Definition set_BaseURL (u : url.URL) (c : Client.t) : Client.t :=
  {| Client.client := Client.client c; Client.BaseURL := u;
     Client.TokenURL := Client.TokenURL c; Client.userAgent := Client.userAgent c;
     Client.rate := Client.rate c; Client.credentials := Client.credentials c;
     Client.redditID := Client.redditID c; Client.Account := Client.Account c;
     Client.Captcha := Client.Captcha c; Client.Collection := Client.Collection c;
     Client.Emoji := Client.Emoji c; Client.Flair := Client.Flair c;
     Client.Gold := Client.Gold c; Client.LinkAndComment := Client.LinkAndComment c;
     Client.Listings := Client.Listings c; Client.Message := Client.Message c;
     Client.Moderation := Client.Moderation c; Client.Multi := Client.Multi c;
     Client.Subreddit := Client.Subreddit c; Client.User := Client.User c;
     Client.Widget := Client.Widget c; Client.Wiki := Client.Wiki c;
     Client.oauth2Transport := Client.oauth2Transport c;
     Client.onRequestCompleted := Client.onRequestCompleted c |}.

(** The client of [NewReadonlyClient]. *)
Definition newReadonlyClient (transport : Context -> Request.t -> nat -> Answer) : Client.t :=
  set_BaseURL readonlyURL (newClient transport).

(** A world whose clock reads [t0], [t0 + 1ns], ... and that holds no
    objects yet. *)
Definition world_at (t0 : time.Time) : World :=
  {| clock := fun n => t0 + Z.of_nat n; ticks := 0%nat; sent := [];
     heap := {| bodies := ∅; sinks := ∅ |} |}.

(** A transport that answers every request with the same reply. *)
Definition always (r : Reply) : Context -> Request.t -> nat -> Answer :=
  fun _ _ _ => Replied r.

Definition get (path : string) : Request.t :=
  {| Request.Method := "GET";
     Request.URL := url.set_Path path oauthURL;
     Request.Header := ∅;
     Request.Body := None |}.

End Simple.

(** ** Inputs for the examples *)
Module Sample.

Definition headers (remaining used reset : string) : http.Header :=
  <["X-Ratelimit-Remaining" := [remaining]]>
    (<["X-Ratelimit-Used" := [used]]> (<["X-Ratelimit-Reset" := [reset]]> ∅)).

Definition reply (code : Z) (h : http.Header) (content : list byte) : Reply :=
  {| Reply_Status := EmptyString;
     Reply_StatusCode := code;
     Reply_Header := h;
     Reply_ContentLength := Z.of_nat (length content);
     Reply_content := content;
     Reply_ending := None |}.

(** A 200 response that announces the end of the budget. *)
Definition exhausted : Reply :=
  reply 200 (headers "0" "60" "120") (json_text "{}").

(** A 404 response and a 200 response with budget left. *)
Definition not_found : Reply :=
  reply 404 (headers "59" "1" "120") (list_byte_of_string "Not Found").

Definition success : Reply :=
  reply 200 (headers "59" "1" "120") (json_text "{'kind':'t1','data':{}}").

(** A new client over a transport that always answers [r], half a second
    after the start of a second. *)
Definition start (r : Reply) : State :=
  {| this := Simple.newClient (Simple.always r);
     world := Simple.world_at 1700000000500000000 |}.

Definition request : Request.t := Simple.get "/api/v1/me".

(** A destination that decodes every JSON value. *)
Definition any_value : Destination := DestValue (fun _ => DecodeOk).

End Sample.

(** ** Reading a state *)

(** The rate the client has stored, and the time that the next reading of
    the clock gives. *)
Definition stored (st : State) : Rate := Client.rate (this st).
Definition now (st : State) : time.Time := clock (world st) (ticks (world st)).
Definition log (st : State) : list Request.t := sent (world st).

(** The state after one more reading of the clock. *)
Definition tick (st : State) : State :=
  {| this := this st;
     world := {| clock := clock (world st); ticks := S (ticks (world st));
                 sent := sent (world st); heap := heap (world st) |} |}.

Definition with_heap (h : Heap) (st : State) : State :=
  {| this := this st;
     world := {| clock := clock (world st); ticks := ticks (world st);
                 sent := sent (world st); heap := h |} |}.

Definition tick_if (b : bool) (st : State) : State := if b then tick st else st.

Definition with_this (c : Client.t) (st : State) : State :=
  {| this := c; world := world st |}.

Definition with_sent (l : list Request.t) (st : State) : State :=
  {| this := this st;
     world := {| clock := clock (world st); ticks := ticks (world st);
                 sent := l; heap := heap (world st) |} |}.

(** The reference that the next new stream gets, and the state with the
    stream [b] under the reference [ref]. *)
Definition next_ref (st : State) : nat := fresh (dom (bodies (heap (world st)))).

Definition with_body (ref : nat) (b : Body) (st : State) : State :=
  with_heap {| bodies := <[ref := b]> (bodies (heap (world st)));
               sinks := sinks (heap (world st)) |} st.

Definition body_at (ref : nat) (st : State) : option Body :=
  bodies (heap (world st)) !! ref.

(** The state after [Close] on the stream [ref]. *)
Definition close_body (ref : nat) (st : State) : State :=
  match body_at ref st with
  | Some b => with_body ref {| pending := pending b; ending := ending b; closed := true |} st
  | None => st
  end.

(** The state after the completion callback of the client, if it has one,
    has run on the request and the response. *)
Definition after_callback (req : Request.t) (resp : Response.t) (st : State) : State :=
  match Client.onRequestCompleted (this st) with
  | Some callback => with_heap (callback req resp (heap (world st))) st
  | None => st
  end.

(** The rate that the three headers denote when the clock reads [t], and
    whether parsing them looks at the clock at all. *)
Definition reads_clock (h : http.Header) : bool :=
  negb (String.eqb (http.Header_Get h headerRateLimitReset) EmptyString)
  && negb (fst (strconv.ParseInt (http.Header_Get h headerRateLimitReset)) =? 0).

Definition rate_at {platform : Platform} (h : http.Header) (t : time.Time) : Rate :=
  {| Remaining :=
       if negb (String.eqb (http.Header_Get h headerRateLimitRemaining) EmptyString)
       then ParseFloat_to_int (http.Header_Get h headerRateLimitRemaining) else 0;
     Used :=
       if negb (String.eqb (http.Header_Get h headerRateLimitUsed) EmptyString)
       then fst (strconv.Atoi (http.Header_Get h headerRateLimitUsed)) else 0;
     Reset :=
       if reads_clock h then
         time.Add (time.Truncate t time.Second)
           (time.mul time.Second (fst (strconv.ParseInt (http.Header_Get h headerRateLimitReset))))
       else 0 |}.

(** The gate of the specification: the budget is used up and the reset
    time, which is set, lies ahead. *)
Definition blocked (rate : Rate) (t : time.Time) : Prop :=
  Remaining rate = 0 /\ Reset rate <> 0 /\ t < Reset rate.

(** The gate looks at the clock only when the stored rate could block. *)
Definition gate_ticks (st : State) : State :=
  tick_if (negb (time.IsZero (Reset (stored st))) && (Remaining (stored st) =? 0)) st.

(** For a request that passes the gate and that the transport answers with
    [r]: the response that [Do] receives, and the state in which it comes to
    [CheckResponse], after the callback has run and the parsed rate has been
    stored. *)
Definition received (r : Reply) (req : Request.t) (st : State) : Response.t :=
  response_of r (next_ref (gate_ticks st)) req.

Definition stream_of (r : Reply) : Body :=
  {| pending := Reply_content r; ending := Reply_ending r; closed := false |}.

Definition answered (r : Reply) (req : Request.t) (st : State) : State :=
  after_callback req (received r req st)
    (with_body (next_ref (gate_ticks st)) (stream_of r)
       (with_sent (req :: log st) (gate_ticks st))).

Definition before_check {platform : Platform} (r : Reply) (req : Request.t) (st : State)
    : State :=
  let st3 := answered r req st in
  let st4 := tick_if (reads_clock (Reply_Header r)) st3 in
  with_this (Client.set_rate (rate_at (Reply_Header r) (now st3)) (this st4)) st4.

(** A step relation on states is a frame when every state is related to
    itself, steps compose, and changes of the heap and readings of the clock
    are steps. *)
Class Frame (R : State -> State -> Prop) := {
  frame_refl : forall st, R st st;
  frame_trans : forall st1 st2 st3, R st1 st2 -> R st2 st3 -> R st1 st3;
  frame_heap : forall st h, R st (with_heap h st);
  frame_tick : forall st, R st (tick st) }.

(** Every run of [m] is a step of [R]. *)
Definition within (R : State -> State -> Prop) {A} (m : M A) : Prop :=
  forall st, R st (final (m st)).

(** The transport log is the same. *)
Definition same_log (st st' : State) : Prop := log st' = log st.

(** The client is the same. *)
Definition same_this (st st' : State) : Prop := this st' = this st.

(** The client is the same but for its rate. *)
Definition same_but_rate (st st' : State) : Prop :=
  this st' = Client.set_rate (stored st') (this st).

(** ** The rest of the client *)

(** [c.userAgent = ua] *)
Definition set_userAgent (ua : string) (c : Client.t) : Client.t :=
  {| Client.client := Client.client c; Client.BaseURL := Client.BaseURL c;
     Client.TokenURL := Client.TokenURL c; Client.userAgent := ua;
     Client.rate := Client.rate c; Client.credentials := Client.credentials c;
     Client.redditID := Client.redditID c; Client.Account := Client.Account c;
     Client.Captcha := Client.Captcha c; Client.Collection := Client.Collection c;
     Client.Emoji := Client.Emoji c; Client.Flair := Client.Flair c;
     Client.Gold := Client.Gold c; Client.LinkAndComment := Client.LinkAndComment c;
     Client.Listings := Client.Listings c; Client.Message := Client.Message c;
     Client.Moderation := Client.Moderation c; Client.Multi := Client.Multi c;
     Client.Subreddit := Client.Subreddit c; Client.User := Client.User c;
     Client.Widget := Client.Widget c; Client.Wiki := Client.Wiki c;
     Client.oauth2Transport := Client.oauth2Transport c;
     Client.onRequestCompleted := Client.onRequestCompleted c |}.

(** [UserAgent] returns the client's user agent.  It is made up on the first
    call and kept in the client. *)
Definition UserAgent : M string :=
  let* c := get_this in
  if String.eqb (Client.userAgent c) EmptyString then
    let userAgent := "golang:" +:+ libraryName +:+ ":v" +:+ libraryVersion in
    let userAgent :=
      if negb (String.eqb (Username (Client.credentials c)) EmptyString)
      then userAgent +:+ " (by /u/" +:+ Username (Client.credentials c) +:+ ")"
      else userAgent in
    let* _ := put_this (set_userAgent userAgent c) in
    ret userAgent
  else ret (Client.userAgent c).

(** *** The [Error] methods *)

(** [%d] on an [int]. *)
Definition Itoa (n : Z) : string := pretty n.

(** [(e *InternalError) Error()] *)
Definition InternalError_Error (e : InternalError) : string :=
  "InternalError: " +:+ InternalError_Message e.

Section Endpoints.
Context {platform : Platform}.

(** [(r *ResponseError) Error()].  The response, when there is one, is asked
    for its request: without one the method dereferences a nil pointer, and
    the result is [None]. *)
Definition ResponseError_Error (r : ResponseError) : option string :=
  match ResponseError_Response r with
  | Some resp =>
      match Response.Request resp with
      | Some request =>
          Some ("ResponseError: " +:+ Request.Method request +:+ " "
                +:+ URL_String (Request.URL request)
                +:+ " (STATUS: " +:+ Itoa (Response.StatusCode resp) +:+ ") "
                +:+ ResponseError_Message r)
      | None => None
      end
  | None => Some ("ResponseError: " +:+ ResponseError_Message r)
  end.

(** [%v] on a [Rate]. *)
Definition Rate_String (rate : Rate) : string :=
  "{" +:+ Itoa (Remaining rate) +:+ " " +:+ Itoa (Used rate) +:+ " "
  +:+ Time_String (Reset rate) +:+ "}".

(** [(e *RateLimitError) Error()] *)
Definition RateLimitError_Error (e : RateLimitError) : option string :=
  match ResponseError_Error (RateLimitError_ResponseError e) with
  | Some s =>
      Some ("RateLimitError: " +:+ s +:+ String (ascii_of_N 10) EmptyString
            +:+ "RATE: " +:+ Rate_String (RateLimitError_Rate e))
  | None => None
  end.

(** [err.Error()] on a non-nil [error] of the package. *)
Definition error_Error (err : error) : option string :=
  match err with
  | ErrInternal e => Some (InternalError_Error e)
  | ErrJSON e => Some (JSONError_Error e)
  | ErrResponse e => ResponseError_Error e
  | ErrRateLimit e => RateLimitError_Error e
  | ErrLib e => Some (Error e)
  end.

Definition Error_text (err : error) : M string :=
  match error_Error err with
  | Some s => ret s
  | None => panic nil_dereference
  end.

(** *** Requests without a destination *)

Definition PostURL (ctx : Context) (path : string) (form : option (list byte))
    : M (option Response.t * option error) :=
  let* c := get_this in
  match NewRequest c "POST" path form with
  | inl err =>
      let* msg := Error_text err in
      ret (None, Some (ErrInternal {| InternalError_Message := msg |}))
  | inr req => Do ctx req DestNil
  end.

(** *** The typed getters *)

(** What [json] answers when it decodes a value of the stream into a new
    entity: the decoder skips the white space in front of the value and hands
    the value to [UnmarshalJSON], which returns its [JSONError] on bytes that
    are no JSON and does not return otherwise. *)
Definition entity_unmarshal (T : Entity) (value : list byte) : Decoded :=
  let item := json.trimLeft value in
  match json.checkValid item with
  | Some e =>
      DecodeFails
        {| Error := JSONError_Error
                      {| JSONError_Message := "error during unmarshal: " +:+ Error e;
                         JSONError_Data := item |} |}
  | None => DecodeLoops
  end.

(** [getListing], [getComment], [getLink], [getSubreddit], [getMessage],
    [getAccount], [getAward] and [getMore] have one body, with the entity [T]
    that each allocates.  The entity returned is the one allocated. *)
Definition get_entity (T : Entity) (ctx : Context) (path : string)
    (opts : option (GoError + list byte))
    : M (option Entity * option Response.t * option error) :=
  let* c := get_this in
  match NewJSONRequest c "GET" path opts with
  | inl err => ret (None, None, Some err)
  | inr req =>
      let* (resp, err) := Do ctx req (DestValue (entity_unmarshal T)) in
      match err with
      | Some err => ret (None, None, Some err)
      | None => ret (Some T, resp, None)
      end
  end.

Definition getListing := get_entity Listing.
Definition getComment := get_entity Comment.
Definition getLink := get_entity Link.
Definition getSubreddit := get_entity Subreddit.
Definition getMessage := get_entity Message.
Definition getAccount := get_entity Account.
Definition getAward := get_entity Award.
Definition getMore := get_entity More.

(** *** The ways in which [Do] ends

    For a call of [Do] in the state [st]: what the body of the response
    holds when [CheckResponse] reads it, after the callback has run, and the
    outcomes of the call, one for each way through the function. *)
Definition read_result (r : Reply) (req : Request.t) (st : State) : option GoError :=
  match body_at (Response.Body (received r req st)) (answered r req st) with
  | Some b => ending b
  | None => None
  end.

Definition writer_at (w : nat) (r : Reply) (req : Request.t) (st : State)
    : option (list byte * option GoError) :=
  sinks (heap (world (answered r req st))) !! w.

Inductive Do_ends (ctx : Context) (req : Request.t) (v : Destination) (st : State)
    : Outcome (option Response.t * option error) -> Prop :=
| ends_at_gate e resp st' :
    blocked (stored st) (now st) ->
    RateLimitError_Rate e = stored st ->
    ResponseError_Response (RateLimitError_ResponseError e) = Some resp ->
    Response.Request resp = Some req ->
    Response.StatusCode resp = 429 ->
    log st' = log st ->
    Do_ends ctx req v st (Returns (None, Some (ErrRateLimit e)) st')
| ends_at_transport r e resp st' :
    ~ blocked (stored st) (now st) ->
    Client.client (this st) ctx req (length (log st)) = Failed r e ->
    match r, resp with
    | None, None => True
    | Some r, Some resp => exists body, resp = response_of r body req
    | _, _ => False
    end ->
    Do_ends ctx req v st
      (Returns (None, Some (ErrResponse {| ResponseError_Message := Error e;
                                           ResponseError_Response := resp |})) st')
| ends_at_rate_header r e st' :
    ~ blocked (stored st) (now st) ->
    Client.client (this st) ctx req (length (log st)) = Replied r ->
    http.Header_Get (Reply_Header r) headerRateLimitRemaining = "0" ->
    ResponseError_Response (RateLimitError_ResponseError e) = Some (received r req st) ->
    Do_ends ctx req v st (Returns (None, Some (ErrRateLimit e)) st')
| ends_in_panic_after_read r st' :
    ~ blocked (stored st) (now st) ->
    Client.client (this st) ctx req (length (log st)) = Replied r ->
    http.Header_Get (Reply_Header r) headerRateLimitRemaining <> "0" ->
    read_result r req st = None ->
    Do_ends ctx req v st (Panics nil_dereference st')
| ends_at_status r e st' :
    ~ blocked (stored st) (now st) ->
    Client.client (this st) ctx req (length (log st)) = Replied r ->
    http.Header_Get (Reply_Header r) headerRateLimitRemaining <> "0" ->
    read_result r req st = Some e ->
    Reply_StatusCode r <> 200 ->
    Do_ends ctx req v st
      (Returns (None, Some (ErrResponse {| ResponseError_Message := Error e;
                                           ResponseError_Response :=
                                             Some (received r req st) |})) st')
| ends_with_response r e st' :
    ~ blocked (stored st) (now st) ->
    Client.client (this st) ctx req (length (log st)) = Replied r ->
    http.Header_Get (Reply_Header r) headerRateLimitRemaining <> "0" ->
    read_result r req st = Some e ->
    Reply_StatusCode r = 200 ->
    v = DestNil ->
    Do_ends ctx req v st (Returns (Some (received r req st), None) st')
| ends_at_copy r e w st' :
    ~ blocked (stored st) (now st) ->
    Client.client (this st) ctx req (length (log st)) = Replied r ->
    http.Header_Get (Reply_Header r) headerRateLimitRemaining <> "0" ->
    read_result r req st = Some e ->
    Reply_StatusCode r = 200 ->
    v = DestWriter w ->
    writer_at w r req st <> None ->
    Do_ends ctx req v st
      (Returns (None, Some (ErrInternal {| InternalError_Message := Error e |})) st')
| ends_in_panic_at_copy r e w st' :
    ~ blocked (stored st) (now st) ->
    Client.client (this st) ctx req (length (log st)) = Replied r ->
    http.Header_Get (Reply_Header r) headerRateLimitRemaining <> "0" ->
    read_result r req st = Some e ->
    Reply_StatusCode r = 200 ->
    v = DestWriter w ->
    writer_at w r req st = None ->
    Do_ends ctx req v st (Panics nil_dereference st')
| ends_at_decode r e unmarshal st' :
    ~ blocked (stored st) (now st) ->
    Client.client (this st) ctx req (length (log st)) = Replied r ->
    http.Header_Get (Reply_Header r) headerRateLimitRemaining <> "0" ->
    read_result r req st = Some e ->
    Reply_StatusCode r = 200 ->
    v = DestValue unmarshal ->
    0 <= Reply_ContentLength r ->
    Do_ends ctx req v st
      (Returns (None,
                Some (ErrJSON {| JSONError_Message := Error e;
                                 JSONError_Data :=
                                   repeat x00 (Z.to_nat (Reply_ContentLength r)) |})) st')
| ends_in_panic_at_decode r e unmarshal st' :
    ~ blocked (stored st) (now st) ->
    Client.client (this st) ctx req (length (log st)) = Replied r ->
    http.Header_Get (Reply_Header r) headerRateLimitRemaining <> "0" ->
    read_result r req st = Some e ->
    Reply_StatusCode r = 200 ->
    v = DestValue unmarshal ->
    Reply_ContentLength r < 0 ->
    Do_ends ctx req v st (Panics "runtime error: makeslice: len out of range" st').

End Endpoints.

(** ** More inputs for the examples *)
Module Fault.

(** The reply [r] over a connection that breaks before the body is
    complete. *)
Definition broken (r : Reply) : Reply :=
  {| Reply_Status := Reply_Status r;
     Reply_StatusCode := Reply_StatusCode r;
     Reply_Header := Reply_Header r;
     Reply_ContentLength := Reply_ContentLength r;
     Reply_content := Reply_content r;
     Reply_ending := Some io_ErrUnexpectedEOF |}.

Definition isControl (c : ascii) : bool :=
  (N_of_ascii c <? 32)%N || (N_of_ascii c =? 127)%N.

Fixpoint hasControl (s : string) : bool :=
  match s with
  | EmptyString => false
  | String c rest => isControl c || hasControl rest
  end.

(** The small platform, with a URL parser that refuses control
    characters as [net/url] does. *)
Definition parse_ref (base : url.URL) (ref : string) : GoError + url.URL :=
  if hasControl ref then inl {| Error := "net/url: invalid control character in URL" |}
  else Simple.parse_ref base ref.

Definition platform : Platform :=
  {| ParseFloat_int := fun _ => 0;
     Time_String := fun t => pretty t;
     url_Parse := Simple.parse_url;
     URL_Parse := parse_ref;
     URL_String := Simple.url_string;
     http_NewRequest := Simple.new_request |}.

(** A path with a line feed in it. *)
Definition bad_path : string := String (ascii_of_N 10) "api".

Definition with_username (name : string) (c : Client.t) : Client.t :=
  {| Client.client := Client.client c; Client.BaseURL := Client.BaseURL c;
     Client.TokenURL := Client.TokenURL c; Client.userAgent := Client.userAgent c;
     Client.rate := Client.rate c;
     Client.credentials :=
       {| ID := ID (Client.credentials c); Secret := Secret (Client.credentials c);
          Username := name; Password := Password (Client.credentials c) |};
     Client.redditID := Client.redditID c; Client.Account := Client.Account c;
     Client.Captcha := Client.Captcha c; Client.Collection := Client.Collection c;
     Client.Emoji := Client.Emoji c; Client.Flair := Client.Flair c;
     Client.Gold := Client.Gold c; Client.LinkAndComment := Client.LinkAndComment c;
     Client.Listings := Client.Listings c; Client.Message := Client.Message c;
     Client.Moderation := Client.Moderation c; Client.Multi := Client.Multi c;
     Client.Subreddit := Client.Subreddit c; Client.User := Client.User c;
     Client.Widget := Client.Widget c; Client.Wiki := Client.Wiki c;
     Client.oauth2Transport := Client.oauth2Transport c;
     Client.onRequestCompleted := Client.onRequestCompleted c |}.

End Fault.

(** ** Query parameters *)

(** A [url.Values] is a [map[string][]string]; [Add] appends to the values
    of the key as it is written. *)
Abbreviation Values := (gmap string (list string)).

Definition Values_Add (v : Values) (key value : string) : Values :=
  <[key := (default [] (v !! key) ++ [value])%list]> v.

(** *** The options of the mod notes ([moderation.go]) *)
Module ModNoteGetOptions.

Definition ModNoteFilterNone : string := EmptyString.

Record t := {
  Before : string;
  Filter : string;
  Limit : Z;
  Subreddit : string;
  User : string }.

Definition Params (opts : t) : Values :=
  let result : Values := ∅ in
  let result :=
    if negb (String.eqb (Before opts) EmptyString)
    then Values_Add result "before" (Before opts) else result in
  let result :=
    if negb (String.eqb (Filter opts) ModNoteFilterNone)
    then Values_Add result "filter" (Filter opts) else result in
  let result :=
    if (Limit opts <=? 100) && (0 <? Limit opts)
    then Values_Add result "limit" (Itoa (Limit opts)) else result in
  let result := Values_Add result "subreddit" (Subreddit opts) in
  let result := Values_Add result "user" (User opts) in
  result.

End ModNoteGetOptions.

(** The header values that a request carries under a key, in the order in
    which they were added. *)
Definition header_values (req : Request.t) (key : string) : list string :=
  default [] (Request.Header req !! http.CanonicalMIMEHeaderKey key).

(** ** [addOptions]

    The functions of [net/url] that [addOptions] calls besides the parser
    and the printer: [URL.Query], which drops what it cannot parse, and
    [Values.Encode]. *)
Class QueryLib := {
  URL_Query : url.URL -> Values;
  Values_Encode : Values -> string }.

(** [u.RawQuery = q] *)
Definition set_RawQuery (q : string) (u : url.URL) : url.URL :=
  {| url.Scheme := url.Scheme u; url.Host := url.Host u; url.Path := url.Path u;
     url.RawQuery := q |}.

(** The options [opt interface{}]: a nil pointer, or a value known by what
    [query.Values] makes of it. *)
Inductive Options :=
| NilPointer
| OptionsOf (encoded : GoError + Values).

(** [for k, v := range newValues { origValues[k] = v }], over the entries in
    the order in which the runtime visits them. *)
Definition range_assign (visited : list (string * list string)) (origValues : Values)
    : Values :=
  foldl (fun acc kv => <[fst kv := snd kv]> acc) origValues visited.

(** [addOptions] adds the options to the query of the URL [s].  [range]
    gives the order in which a map is visited, which Go leaves open. *)
Definition addOptions {platform : Platform} {lib : QueryLib}
    (range : Values -> list (string * list string)) (s : string) (opt : Options)
    : string * option error :=
  match opt with
  | NilPointer => (s, None)
  | OptionsOf encoded =>
      match url_Parse s with
      | inl err => (s, Some (ErrInternal {| InternalError_Message := Error err |}))
      | inr origURL =>
          let origValues := URL_Query origURL in
          match encoded with
          | inl err => (s, Some (ErrInternal {| InternalError_Message := Error err |}))
          | inr newValues =>
              let origValues := range_assign (range newValues) origValues in
              (URL_String (set_RawQuery (Values_Encode origValues) origURL), None)
          end
      end
  end.

(** A query library for the small platform: pairs [key=value] joined by
    [&], without escapes, written in the order of the keys. *)
Module SimpleQuery.

Fixpoint split_on (sep : ascii) (acc s : string) : list string :=
  match s with
  | EmptyString => [String.rev acc]
  | String c rest =>
      if Ascii.eqb c sep then String.rev acc :: split_on sep EmptyString rest
      else split_on sep (String c acc) rest
  end.

Definition add_pair (v : Values) (pair : string) : Values :=
  match Simple.cut "=" pair with
  | Some (key, value) => Values_Add v key value
  | None => if String.eqb pair EmptyString then v else Values_Add v pair EmptyString
  end.

Definition parse_query (q : string) : Values :=
  foldl add_pair ∅ (split_on "&" EmptyString q).

Fixpoint insert_by_key (kv : string * list string) (l : list (string * list string))
    : list (string * list string) :=
  match l with
  | [] => [kv]
  | kv' :: rest =>
      if String.leb (fst kv) (fst kv') then kv :: l else kv' :: insert_by_key kv rest
  end.

Definition sort_by_key (l : list (string * list string)) : list (string * list string) :=
  foldr insert_by_key [] l.

Definition join (sep : string) (l : list string) : string :=
  match l with
  | [] => EmptyString
  | x :: rest => foldl (fun acc y => acc +:+ sep +:+ y) x rest
  end.

Definition encode (v : Values) : string :=
  join "&"
    (flat_map (fun kv => map (fun value => fst kv +:+ "=" +:+ value) (snd kv))
       (sort_by_key (map_to_list v))).

Definition lib : QueryLib :=
  {| URL_Query := fun u => parse_query (url.RawQuery u);
     Values_Encode := encode |}.

End SimpleQuery.

(** ** The menu widget ([WidgetMenu] and its wire form)

    A [[20]byte] is the list of its bytes.  A slice is a list: indexing it
    out of range is a runtime panic, written [None], and a counted loop runs
    its body for [0], ..., [n - 1] as long as no step panics. *)
Module widget.

Definition WidgetKindMenu := "menu".
Definition WidgetKindImage := "image".

Definition WidgetMarshallingErrorPrefix := "error while marshalling widget: ".
Definition WidgetUnmarshallingErrorPrefix := "error while unmarshalling widget: ".
Definition WidgetUnmarshallingTypeErrorMessage :=
  WidgetUnmarshallingErrorPrefix +:+ "unmarshalled widget is not of type ".

Record WidgetMenuDataChild := {
  Child_Text : list byte;
  Child_URL : string }.

Record widgetMenuDataChild := {
  child_text : list byte;
  child_url : string }.

Record WidgetMenuData := {
  Data_Children : list WidgetMenuDataChild;
  Data_Text : list byte;
  Data_URL : string }.

Record widgetMenuData := {
  data_children : list widgetMenuDataChild;
  data_text : list byte;
  data_url : string }.

Record WidgetMenu := {
  Menu_Data : list WidgetMenuData;
  Menu_ShowWiki : bool }.

Record widgetMenu := {
  menu_data : list widgetMenuData;
  menu_kind : string;
  menu_showWiki : bool }.

(** The zero values that [make] fills a slice with. *)
Definition zero_text : list byte := repeat x00 20.
Definition zero_WidgetMenuDataChild : WidgetMenuDataChild :=
  {| Child_Text := zero_text; Child_URL := EmptyString |}.
Definition zero_widgetMenuDataChild : widgetMenuDataChild :=
  {| child_text := zero_text; child_url := EmptyString |}.
Definition zero_WidgetMenuData : WidgetMenuData :=
  {| Data_Children := []; Data_Text := zero_text; Data_URL := EmptyString |}.
Definition zero_widgetMenuData : widgetMenuData :=
  {| data_children := []; data_text := zero_text; data_url := EmptyString |}.

(** [l[i]] and [l[i] = x] *)
Definition index {A} (l : list A) (i : nat) : option A := l !! i.

Definition store {A} (l : list A) (i : nat) (x : A) : option (list A) :=
  match l !! i with
  | Some _ => Some (<[i := x]> l)
  | None => None
  end.

(** [for i := 0; i < n; i++ { body }] on the variables [s]. *)
Definition for_loop {St} (n : nat) (body : nat -> St -> option St) (s : St) : option St :=
  foldl (fun acc i => match acc with Some s => body i s | None => None end)
    (Some s) (seq 0 n).

(** The field assignments [d.Children = c], [d.Text = t] and [d.URL = u]
    on the two kinds of entries. *)
Definition set_Data_Children (c : list WidgetMenuDataChild) (d : WidgetMenuData) :=
  {| Data_Children := c; Data_Text := Data_Text d; Data_URL := Data_URL d |}.
Definition set_Data_Text (t : list byte) (d : WidgetMenuData) :=
  {| Data_Children := Data_Children d; Data_Text := t; Data_URL := Data_URL d |}.
Definition set_Data_URL (u : string) (d : WidgetMenuData) :=
  {| Data_Children := Data_Children d; Data_Text := Data_Text d; Data_URL := u |}.
Definition set_data_children (c : list widgetMenuDataChild) (d : widgetMenuData) :=
  {| data_children := c; data_text := data_text d; data_url := data_url d |}.
Definition set_data_text (t : list byte) (d : widgetMenuData) :=
  {| data_children := data_children d; data_text := t; data_url := data_url d |}.
Definition set_data_url (u : string) (d : widgetMenuData) :=
  {| data_children := data_children d; data_text := data_text d; data_url := u |}.

(** [json.Marshal] and [json.Unmarshal] on the wire form, which has no
    methods of its own. *)
Class WireJSON := {
  json_Marshal : widgetMenu -> GoError + list byte;
  json_Unmarshal : list byte -> GoError + widgetMenu }.

Section Menu.
Context {wire : WireJSON}.

(** The wire form that [MarshalJSON] builds before it hands it to
    [json.Marshal]. *)
Definition wire_of_menu (menu : WidgetMenu) : option widgetMenu :=
  let dataLen := length (Menu_Data menu) in
  let tempData := repeat zero_widgetMenuData dataLen in
  match
    for_loop dataLen
      (fun i tempData =>
         d ← index (Menu_Data menu) i;
         t ← index tempData i;
         tempData ← store tempData i
           (set_data_children
              (repeat zero_widgetMenuDataChild (length (Data_Children d))) t);
         tempData ← for_loop (length (Data_Children d))
           (fun j tempData =>
              d ← index (Menu_Data menu) i;
              c ← index (Data_Children d) j;
              t ← index tempData i;
              children ← store (data_children t) j
                {| child_text := Child_Text c; child_url := Child_URL c |};
              store tempData i (set_data_children children t))
           tempData;
         d ← index (Menu_Data menu) i;
         t ← index tempData i;
         tempData ← store tempData i (set_data_text (Data_Text d) t);
         d ← index (Menu_Data menu) i;
         t ← index tempData i;
         store tempData i (set_data_url (Data_URL d) t))
      tempData
  with
  | Some tempData =>
      Some {| menu_data := tempData; menu_kind := WidgetKindMenu;
              menu_showWiki := Menu_ShowWiki menu |}
  | None => None
  end.

(** [(menu *WidgetMenu) MarshalJSON()] *)
Definition WidgetMenu_MarshalJSON (menu : WidgetMenu)
    : option (list byte * option JSONError) :=
  temp ← wire_of_menu menu;
  match json_Marshal temp with
  | inl err =>
      Some ([], Some {| JSONError_Message := WidgetMarshallingErrorPrefix +:+ Error err;
                        JSONError_Data := [] |})
  | inr data => Some (data, None)
  end.

(** The entries that [UnmarshalJSON] builds from the wire form. *)
Definition data_of_wire (temp : widgetMenu) : option (list WidgetMenuData) :=
  let menuData := repeat zero_WidgetMenuData (length (menu_data temp)) in
  for_loop (length menuData)
    (fun i menuData =>
       t ← index (menu_data temp) i;
       let datumLength := length (data_children t) in
       m ← index menuData i;
       menuData ← store menuData i
         (set_Data_Children (repeat zero_WidgetMenuDataChild datumLength) m);
       menuData ← for_loop datumLength
         (fun j menuData =>
            t ← index (menu_data temp) i;
            c ← index (data_children t) j;
            m ← index menuData i;
            children ← store (Data_Children m) j
              {| Child_Text := child_text c; Child_URL := child_url c |};
            store menuData i (set_Data_Children children m))
         menuData;
       t ← index (menu_data temp) i;
       m ← index menuData i;
       menuData ← store menuData i (set_Data_Text (data_text t) m);
       t ← index (menu_data temp) i;
       m ← index menuData i;
       store menuData i (set_Data_URL (data_url t) m))
    menuData.

(** [(menu *WidgetMenu) UnmarshalJSON(data)]: the receiver after the call
    and the error returned. *)
Definition WidgetMenu_UnmarshalJSON (menu : WidgetMenu) (data : list byte)
    : option (WidgetMenu * option JSONError) :=
  match json_Unmarshal data with
  | inl err =>
      Some (menu, Some {| JSONError_Message := WidgetUnmarshallingErrorPrefix +:+ Error err;
                          JSONError_Data := data |})
  | inr temp =>
      if negb (String.eqb (menu_kind temp) WidgetKindMenu) then
        Some (menu, Some {| JSONError_Message :=
                              WidgetUnmarshallingTypeErrorMessage +:+ WidgetKindMenu;
                            JSONError_Data := data |})
      else
        menuData ← data_of_wire temp;
        Some ({| Menu_Data := menuData; Menu_ShowWiki := menu_showWiki temp |}, None)
  end.

End Menu.

(** The copies that the loops are meant to make, entry by entry. *)
Definition child_to_wire (c : WidgetMenuDataChild) : widgetMenuDataChild :=
  {| child_text := Child_Text c; child_url := Child_URL c |}.
Definition child_of_wire (c : widgetMenuDataChild) : WidgetMenuDataChild :=
  {| Child_Text := child_text c; Child_URL := child_url c |}.
Definition data_to_wire (d : WidgetMenuData) : widgetMenuData :=
  {| data_children := map child_to_wire (Data_Children d);
     data_text := Data_Text d; data_url := Data_URL d |}.
Definition data_from_wire (d : widgetMenuData) : WidgetMenuData :=
  {| Data_Children := map child_of_wire (data_children d);
     Data_Text := data_text d; Data_URL := data_url d |}.

(** The slice that a copying loop has built after [i] rounds: the copies
    of the first [i] entries, and zero values behind them. *)
Definition copied {A B} (f : A -> B) (z : B) (src : list A) (i : nat) : list B :=
  (map f (take i src) ++ repeat z (length src - i))%list.

(** [encoding/json] on a few menus, for the examples.  A wire form is
    written as [encoding/json] writes it: the fields in the order of the
    struct under the names of their tags, a byte array as an array of
    numbers, an empty [children] or [url] left out, and a string between
    quotes (the examples hold no character to escape).  Four texts are read
    back: the two menus without entries, an image widget, and the menu
    [one_entry]. *)
Module Codec.

Definition empty_menu (showWiki : bool) : widgetMenu :=
  {| menu_data := []; menu_kind := WidgetKindMenu; menu_showWiki := showWiki |}.

Definition text (showWiki : bool) : string :=
  if showWiki then "{'data':[],'kind':'menu','showWiki':true}"
  else "{'data':[],'kind':'menu','showWiki':false}".

Definition image_text : string := "{'data':[],'kind':'image','showWiki':false}".

(** A menu with one entry that has one child, and its wire form. *)
Definition one_entry : WidgetMenu :=
  {| Menu_Data :=
       [ {| Data_Children := [ {| Child_Text := zero_text; Child_URL := "https://reddit.com" |} ];
            Data_Text := zero_text; Data_URL := EmptyString |} ];
     Menu_ShowWiki := false |}.

Definition one_entry_wire : widgetMenu :=
  {| menu_data := map data_to_wire (Menu_Data one_entry);
     menu_kind := WidgetKindMenu;
     menu_showWiki := Menu_ShowWiki one_entry |}.

Definition quoted (s : string) : string := "'" +:+ s +:+ "'".
Definition array (items : list string) : string := "[" +:+ SimpleQuery.join "," items +:+ "]".
Definition object (fields : list string) : string :=
  "{" +:+ SimpleQuery.join "," fields +:+ "}".
Definition field (name value : string) : string := quoted name +:+ ":" +:+ value.
Definition bytes_json (bs : list byte) : string :=
  array (map (fun b => pretty (Byte.to_N b)) bs).

Definition child_json (c : widgetMenuDataChild) : string :=
  object [field "text" (bytes_json (child_text c)); field "url" (quoted (child_url c))].

Definition data_json (d : widgetMenuData) : string :=
  object
    ((match data_children d with
      | [] => []
      | children => [field "children" (array (map child_json children))]
      end)
     ++ [field "text" (bytes_json (data_text d))]
     ++ (if String.eqb (data_url d) EmptyString then []
         else [field "url" (quoted (data_url d))]))%list.

Definition menu_json (t : widgetMenu) : string :=
  object [field "data" (array (map data_json (menu_data t)));
          field "kind" (quoted (menu_kind t));
          field "showWiki" (if menu_showWiki t then "true" else "false")].

Definition marshal (t : widgetMenu) : GoError + list byte :=
  inr (json_text (menu_json t)).

Definition unmarshal (data : list byte) : GoError + widgetMenu :=
  let s := string_of_list_byte data in
  if String.eqb s (string_of_list_byte (json_text (text true))) then inr (empty_menu true)
  else if String.eqb s (string_of_list_byte (json_text (text false)))
  then inr (empty_menu false)
  else if String.eqb s (string_of_list_byte (json_text image_text))
  then inr {| menu_data := []; menu_kind := WidgetKindImage; menu_showWiki := false |}
  else if String.eqb s (string_of_list_byte (json_text (menu_json one_entry_wire)))
  then inr one_entry_wire
  else inl {| Error := "unexpected end of JSON input" |}.

Definition wire : WireJSON := {| json_Marshal := marshal; json_Unmarshal := unmarshal |}.

End Codec.

End widget.

(** A transport that is down, and a client over it. *)
Module Offline.

Definition refused : GoError := {| Error := "dial tcp: connect: connection refused" |}.

Definition transport : Context -> Request.t -> nat -> Answer :=
  fun _ _ _ => Failed None refused.

Definition start : State :=
  {| this := Simple.newClient transport;
     world := Simple.world_at 1700000000500000000 |}.

(** A transport that gives up on a redirect and hands back the last
    response next to its error. *)
Definition stopped : GoError := {| Error := "net/http: stopped after 10 redirects" |}.

Definition moved : Reply :=
  Sample.reply 302 (Sample.headers "58" "2" "120") (list_byte_of_string "Found").

Definition redirecting : Context -> Request.t -> nat -> Answer :=
  fun _ _ _ => Failed (Some moved) stopped.

Definition start_redirecting : State :=
  {| this := Simple.newClient redirecting;
     world := Simple.world_at 1700000000500000000 |}.

End Offline.

(** What [Do] hands on as the response of a failed call: nothing when the
    transport gave none, and otherwise a response with the status, the
    headers and the length of the one that the transport gave, over its
    body, which the HTTP client has closed. *)
Definition came_with (r : option Reply) (resp : option Response.t) (st' : State) : Prop :=
  match r with
  | None => resp = None
  | Some r0 =>
      exists resp0,
        resp = Some resp0
        /\ Response.Status resp0 = Reply_Status r0
        /\ Response.StatusCode resp0 = Reply_StatusCode r0
        /\ Response.Header resp0 = Reply_Header r0
        /\ Response.ContentLength resp0 = Reply_ContentLength r0
        /\ body_at (Response.Body resp0) st'
           = Some {| pending := Reply_content r0; ending := Reply_ending r0;
                     closed := true |}
  end.


(** A client that holds a rate without requests left, two minutes before
    its reset time. *)
Module Held.

Definition rate : Rate := {| Remaining := 0; Used := 60; Reset := 1700000120000000000 |}.

Definition start : State :=
  {| this := Client.set_rate rate (Simple.newClient (Simple.always Sample.success));
     world := Simple.world_at 1700000000500000000 |}.

End Held.

(** ** Proofs *)

Section Lemmas.
Context {platform : Platform}.

Lemma bind_Returns {A B} (m : M A) (k : A -> M B) st a st' :
  m st = Returns a st' -> bind m k st = k a st'.
Proof. intros H. unfold bind. now rewrite H. Qed.

Lemma bind_Panics {A B} (m : M A) (k : A -> M B) st reason st' :
  m st = Panics reason st' -> bind m k st = Panics reason st'.
Proof. intros H. unfold bind. now rewrite H. Qed.

Lemma final_bind {A B} (m : M A) (k : A -> M B) st :
  final (bind m k st) =
  match m st with
  | Returns a st' => final (k a st')
  | Panics _ st' | Diverges st' => st'
  end.
Proof. unfold bind. now destruct (m st). Qed.

(** *** Frames *)

Section Frames.
Context (R : State -> State -> Prop) `{!Frame R}.

Lemma within_ret {A} (a : A) : within R (ret a).
Proof. intros st. apply frame_refl. Qed.

Lemma within_panic {A} reason : within R (@panic A reason).
Proof. intros st. apply frame_refl. Qed.

Lemma within_diverge {A} : within R (@diverge A).
Proof. intros st. apply frame_refl. Qed.

Lemma within_bind {A B} (m : M A) (k : A -> M B) :
  within R m -> (forall a, within R (k a)) -> within R (bind m k).
Proof.
  intros Hm Hk st. rewrite final_bind. specialize (Hm st).
  destruct (m st) as [a st'|reason st'|st']; simpl in *; auto.
  eapply frame_trans; [exact Hm | apply Hk].
Qed.

Lemma within_get_world : within R get_world.
Proof. intros st. apply frame_refl. Qed.

Lemma within_get_this : within R get_this.
Proof. intros st. apply frame_refl. Qed.

Lemma within_get_heap : within R get_heap.
Proof. intros st. apply frame_refl. Qed.

Lemma within_put_heap h : within R (put_heap h).
Proof. intros st. apply (frame_heap st h). Qed.

Lemma within_time_Now : within R time_Now.
Proof. intros st. apply (frame_tick st). Qed.

Lemma within_Error_of err : within R (Error_of err).
Proof. destruct err; [apply within_ret | apply within_panic]. Qed.

Lemma within_get_body ref : within R (get_body ref).
Proof.
  apply within_bind; [apply within_get_heap|]. intros h.
  destruct (bodies h !! ref); [apply within_ret | apply within_panic].
Qed.

Lemma within_put_body ref b : within R (put_body ref b).
Proof.
  apply within_bind; [apply within_get_heap|]. intros h. apply within_put_heap.
Qed.

Lemma within_new_body b : within R (new_body b).
Proof.
  apply within_bind; [apply within_get_heap|]. intros h.
  apply within_bind; [apply within_put_body|]. intros _. apply within_ret.
Qed.

Lemma within_ReadAll ref : within R (ioutil_ReadAll ref).
Proof.
  apply within_bind; [apply within_get_body|]. intros b.
  apply within_bind; [apply within_put_body|]. intros _. apply within_ret.
Qed.

Lemma within_Body_Read ref p : within R (Body_Read ref p).
Proof.
  apply within_bind; [apply within_get_body|]. intros b.
  destruct (pending b); [apply within_ret|].
  apply within_bind; [apply within_put_body|]. intros _. apply within_ret.
Qed.

Lemma within_Body_Close ref : within R (Body_Close ref).
Proof.
  apply within_bind; [apply within_get_heap|]. intros h.
  destruct (bodies h !! ref); [apply within_put_body | apply within_ret].
Qed.

Lemma within_make_bytes n : within R (make_bytes n).
Proof. unfold make_bytes. destruct (n <? 0); [apply within_panic | apply within_ret]. Qed.

Lemma within_io_Copy w ref : within R (io_Copy w ref).
Proof.
  apply within_bind; [apply within_get_body|]. intros b.
  apply within_bind; [apply within_get_heap|]. intros h.
  destruct (sinks h !! w) as [[got werr]|]; [|apply within_panic].
  destruct (pending b), werr;
    (apply within_bind; [first [apply within_put_body | apply within_put_heap]|]);
    intros _; apply within_ret.
Qed.

Lemma within_Decoder_Decode ref unmarshal : within R (Decoder_Decode ref unmarshal).
Proof.
  apply within_bind; [apply within_get_body|]. intros b.
  apply within_bind; [apply within_put_body|]. intros _.
  destruct (readValue _ _ _ _); [apply within_ret|].
  destruct (unmarshal _); [apply within_ret | apply within_ret | apply within_diverge].
Qed.

Lemma within_defer_Close {A} ref (rest : M A) :
  within R rest -> within R (defer_Close ref rest).
Proof.
  intros H st. unfold defer_Close. specialize (H st).
  destruct (rest st) as [a st'|reason st'|st']; simpl in H; auto;
    pose proof (within_Body_Close ref st') as Hc;
    destruct (Body_Close ref st'); simpl in *; eapply frame_trans; eauto.
Qed.

Lemma within_parseRate r : within R (parseRate r).
Proof.
  unfold parseRate. apply within_bind; [|intros; apply within_ret].
  destruct (negb _); [|apply within_ret].
  destruct (negb _); [|apply within_ret].
  apply within_bind; [apply within_time_Now|]. intros; apply within_ret.
Qed.

Lemma within_CheckResponse r : within R (CheckResponse r).
Proof.
  unfold CheckResponse. destruct (String.eqb _ _).
  - apply within_bind; [apply within_parseRate|]. intros; apply within_ret.
  - apply within_bind; [apply within_ReadAll|]. intros [data err].
    destruct err as [e|].
    + destruct (_ =? _); [apply within_ret|].
      apply within_bind; [apply within_Error_of|]. intros; apply within_ret.
    + apply within_bind; [apply within_Error_of|]. intros; apply within_ret.
Qed.

Lemma within_gate req : within R (checkRateLimitBeforeDo req).
Proof.
  unfold checkRateLimitBeforeDo. apply within_bind; [apply within_get_this|]. intros c.
  destruct (_ && _); [|apply within_ret].
  apply within_bind; [apply within_time_Now|]. intros t.
  destruct (time.Before _ _); [|apply within_ret].
  apply within_bind; [apply within_new_body|]. intros; apply within_ret.
Qed.

End Frames.

(** *** The two frames of the pipeline *)

Lemma same_log_frame : Frame same_log.
Proof.
  split; unfold same_log, log; intros; simpl; try reflexivity.
  etransitivity; eassumption.
Qed.

Lemma same_but_rate_frame : Frame same_but_rate.
Proof.
  split; unfold same_but_rate, stored.
  - intros [[] w]; reflexivity.
  - intros st1 st2 st3 H12 H23. rewrite H23, H12. now destruct (this st1).
  - intros [[] w] h; reflexivity.
  - intros [[] w]; reflexivity.
Qed.

Lemma same_this_frame : Frame same_this.
Proof.
  split; unfold same_this; intros; simpl; try reflexivity.
  etransitivity; eassumption.
Qed.

#[local] Existing Instance same_this_frame.
#[local] Existing Instance same_log_frame.
#[local] Existing Instance same_but_rate_frame.

(** Storing a rate changes the client in its rate only, and the log not at
    all. *)
Lemma within_store_rate R `{!Frame R} {A} rate (k : M A) :
  (forall st, R st {| this := Client.set_rate rate (this st); world := world st |}) ->
  within R k ->
  within R (let* c := get_this in let* _ := put_this (Client.set_rate rate c) in k).
Proof.
  intros Hput Hk st. unfold bind, get_this, put_this. simpl.
  eapply frame_trans; [apply Hput | apply Hk].
Qed.

Lemma store_rate_same_log rate st :
  same_log st {| this := Client.set_rate rate (this st); world := world st |}.
Proof. reflexivity. Qed.

Lemma store_rate_same_but_rate rate st :
  same_but_rate st {| this := Client.set_rate rate (this st); world := world st |}.
Proof. destruct st as [[] w]. reflexivity. Qed.

(** The steps of [Do] that follow the answer of the transport. *)
Ltac frame_apply L := apply L; try (solve [exact _]).

Ltac within_rest Hput :=
  repeat first
    [ frame_apply within_ret | frame_apply within_panic | frame_apply within_diverge
    | frame_apply within_CheckResponse | frame_apply within_parseRate
    | frame_apply within_io_Copy | frame_apply within_Decoder_Decode
    | frame_apply within_make_bytes | frame_apply within_Body_Read
    | frame_apply within_Error_of | frame_apply within_get_heap
    | frame_apply within_put_heap | frame_apply within_defer_Close
    | frame_apply within_store_rate; [apply Hput|]
    | frame_apply within_bind; [|intros]
    | frame_apply within_get_this
    | match goal with
      | |- within _ (match ?x with _ => _ end) => destruct x
      end ].

(** *** The gate *)

Lemma gate_open req st :
  ~ blocked (stored st) (now st) ->
  checkRateLimitBeforeDo req st = Returns None (gate_ticks st).
Proof.
  intros Hopen. unfold checkRateLimitBeforeDo, gate_ticks, tick_if, bind, get_this, stored in *.
  unfold time.IsZero. simpl.
  destruct (negb (Reset (Client.rate (this st)) =? 0) && (Remaining (Client.rate (this st)) =? 0))
    eqn:Hguard; [|reflexivity].
  apply andb_true_iff in Hguard as [Hreset Hrem].
  apply negb_true_iff, Z.eqb_neq in Hreset. apply Z.eqb_eq in Hrem.
  unfold time.Before. destruct (Z.ltb_spec (clock (world st) (ticks (world st)))
                                  (Reset (Client.rate (this st)))) as [Hlt|Hge].
  - exfalso. apply Hopen. now repeat split.
  - reflexivity.
Qed.

Lemma gate_blocked req st :
  blocked (stored st) (now st) ->
  exists e h,
    checkRateLimitBeforeDo req st = Returns (Some e) (with_heap h (tick st))
    /\ RateLimitError_Rate e = stored st.
Proof.
  intros (Hrem & Hreset & Hlt).
  unfold checkRateLimitBeforeDo, bind, get_this, stored, now in *.
  unfold time.IsZero, time.Before. simpl.
  rewrite Hrem. apply Z.eqb_neq in Hreset. rewrite Hreset.
  apply Z.ltb_lt in Hlt. simpl. rewrite Hlt.
  eexists. eexists. split; reflexivity.
Qed.

Lemma gate_ticks_log st : log (gate_ticks st) = log st.
Proof. unfold gate_ticks, tick_if. now destruct (_ && _). Qed.

Lemma gate_ticks_this st : this (gate_ticks st) = this st.
Proof. unfold gate_ticks, tick_if. now destruct (_ && _). Qed.

(** *** The transport *)

Lemma send_returns ctx client req st :
  exists resp err st',
    DoRequestWithClient ctx client req st = Returns (resp, err) st'
    /\ log st' = req :: log st /\ this st' = this st
    /\ (err = None -> resp <> None).
Proof.
  unfold DoRequestWithClient, bind, get_world, put_world. simpl.
  destruct (client ctx req _) as [[r|] e|r]; simpl;
    do 3 eexists; (split; [reflexivity|]); repeat split; congruence.
Qed.

(** Once the gate is open the request goes to the transport, once. *)
Lemma Do_open_log ctx req v st :
  ~ blocked (stored st) (now st) ->
  log (final (Do ctx req v st)) = req :: log st.
Proof.
  intros Hopen. unfold Do.
  rewrite (bind_Returns _ _ _ _ _ (gate_open req st Hopen)).
  destruct (send_returns ctx (Client.client (this (gate_ticks st))) req (gate_ticks st))
    as (resp & err & st2 & Hsend & Hlog & _ & Hresp).
  rewrite gate_ticks_log in Hlog.
  unfold bind at 1. unfold get_this at 1.
  rewrite (bind_Returns _ _ _ _ _ Hsend).
  destruct err as [e|]; [exact Hlog|].
  destruct resp as [resp|]; [|exact Hlog].
  rewrite <- Hlog.
  frame_apply within_defer_Close.
  within_rest store_rate_same_log.
Qed.

Lemma Do_blocked ctx req v st :
  blocked (stored st) (now st) ->
  exists e h,
    Do ctx req v st = Returns (None, Some (ErrRateLimit e)) (with_heap h (tick st))
    /\ RateLimitError_Rate e = stored st.
Proof.
  intros Hb. destruct (gate_blocked req st Hb) as (e & h & Hgate & Hrate).
  exists e, h. split; [|exact Hrate].
  unfold Do. now rewrite (bind_Returns _ _ _ _ _ Hgate).
Qed.

Lemma blocked_dec rate t : blocked rate t \/ ~ blocked rate t.
Proof. unfold blocked. lia. Qed.

(** The client after [Do] is the client before, but for its rate. *)
Lemma Do_same_but_rate ctx req v st :
  same_but_rate st (final (Do ctx req v st)).
Proof.
  destruct (blocked_dec (stored st) (now st)) as [Hb|Hopen].
  - destruct (Do_blocked ctx req v st Hb) as (e & h & -> & _). simpl.
    eapply frame_trans; [apply frame_tick | apply frame_heap].
  - unfold Do. rewrite (bind_Returns _ _ _ _ _ (gate_open req st Hopen)).
    destruct (send_returns ctx (Client.client (this (gate_ticks st))) req (gate_ticks st))
      as (resp & err & st2 & Hsend & _ & Hthis & _).
    unfold bind at 1. unfold get_this at 1.
    rewrite (bind_Returns _ _ _ _ _ Hsend).
    assert (H2 : same_but_rate st st2).
    { unfold same_but_rate, stored. rewrite Hthis, gate_ticks_this.
      apply (frame_refl (R := same_but_rate)). }
    destruct err as [e|]; [exact H2|].
    destruct resp as [resp|]; [|exact H2].
    eapply frame_trans; [exact H2|].
    frame_apply within_defer_Close.
    within_rest store_rate_same_but_rate.
Qed.


(** *** Exact runs *)

Lemma parseRate_at r st :
  parseRate r st =
  Returns (rate_at (Response.Header r) (now st))
    (tick_if (reads_clock (Response.Header r)) st).
Proof.
  unfold parseRate, rate_at, reads_clock, tick_if, bind.
  destruct (String.eqb (http.Header_Get (Response.Header r) headerRateLimitReset) EmptyString);
    simpl.
  - destruct st as [c []]. reflexivity.
  - destruct (fst (strconv.ParseInt (http.Header_Get (Response.Header r) headerRateLimitReset)) =? 0);
      simpl; destruct st as [c []]; reflexivity.
Qed.

Lemma send_replied ctx client req st r :
  client ctx req (length (log st)) = Replied r ->
  DoRequestWithClient ctx client req st =
  Returns (Some (response_of r (next_ref st) req), None)
    (with_body (next_ref st) (stream_of r) (with_sent (req :: log st) st)).
Proof.
  intros H. unfold DoRequestWithClient, bind, get_world, put_world, log in *. simpl.
  rewrite H. reflexivity.
Qed.

Lemma CheckResponse_exhausted r st :
  http.Header_Get (Response.Header r) headerRateLimitRemaining = "0" ->
  CheckResponse r st =
  Returns
    (Some (ErrRateLimit
       {| RateLimitError_Rate := rate_at (Response.Header r) (now st);
          RateLimitError_ResponseError :=
            {| ResponseError_Response := Some r;
               ResponseError_Message :=
                 "API rate limit has been exceeded until "
                 +:+ Time_String (Reset (rate_at (Response.Header r) (now st))) +:+ "." |} |}))
    (tick_if (reads_clock (Response.Header r)) st).
Proof.
  intros H. unfold CheckResponse. rewrite H. simpl.
  now rewrite (bind_Returns _ _ _ _ _ (parseRate_at r st)).
Qed.

Lemma ReadAll_at ref st b :
  body_at ref st = Some b ->
  ioutil_ReadAll ref st =
  Returns (pending b, ending b)
    (with_body ref {| pending := []; ending := ending b; closed := closed b |} st).
Proof.
  intros H. unfold ioutil_ReadAll, get_body, put_body, get_heap, put_heap, bind,
    get_world, put_world, body_at in *. simpl. rewrite H. reflexivity.
Qed.

Lemma CheckResponse_readable r st b :
  String.eqb (http.Header_Get (Response.Header r) headerRateLimitRemaining) "0" = false ->
  body_at (Response.Body r) st = Some b ->
  ending b = None ->
  CheckResponse r st =
  Panics nil_dereference
    (with_body (Response.Body r) {| pending := []; ending := None; closed := closed b |} st).
Proof.
  intros Hh Hb He. unfold CheckResponse. rewrite Hh.
  rewrite (bind_Returns _ _ _ _ _ (ReadAll_at _ _ _ Hb)). rewrite He. reflexivity.
Qed.

Lemma CheckResponse_read_fails r st b e :
  String.eqb (http.Header_Get (Response.Header r) headerRateLimitRemaining) "0" = false ->
  body_at (Response.Body r) st = Some b ->
  ending b = Some e ->
  CheckResponse r st =
  Returns
    (if Response.StatusCode r =? 200 then None
     else Some (ErrResponse {| ResponseError_Response := Some r;
                               ResponseError_Message := Error e |}))
    (with_body (Response.Body r) {| pending := []; ending := Some e; closed := closed b |} st).
Proof.
  intros Hh Hb He. unfold CheckResponse. rewrite Hh.
  rewrite (bind_Returns _ _ _ _ _ (ReadAll_at _ _ _ Hb)). rewrite He.
  destruct (_ =? _); reflexivity.
Qed.

Lemma Body_Close_runs ref st : Body_Close ref st = Returns tt (close_body ref st).
Proof.
  unfold Body_Close, close_body, body_at, bind, get_heap, get_world, put_body, put_heap,
    put_world. simpl.
  destruct (_ !! ref); [reflexivity|]. now destruct st as [c []].
Qed.

Lemma defer_bind_Returns {A B} ref (m : M A) (k : A -> M B) st a st' :
  m st = Returns a st' ->
  defer_Close ref (bind m k) st = defer_Close ref (k a) st'.
Proof. intros H. unfold defer_Close. now rewrite (bind_Returns _ _ _ _ _ H). Qed.

Lemma defer_bind_Panics {A B} ref (m : M A) (k : A -> M B) st reason st' :
  m st = Panics reason st' ->
  defer_Close ref (bind m k) st = Panics reason (close_body ref st').
Proof.
  intros H. unfold defer_Close. rewrite (bind_Panics _ _ _ _ _ H).
  now rewrite Body_Close_runs.
Qed.

Lemma defer_ret {A} ref (a : A) st :
  defer_Close ref (ret a) st = Returns a (close_body ref st).
Proof. unfold defer_Close, ret. now rewrite Body_Close_runs. Qed.

Lemma close_body_this ref st : this (close_body ref st) = this st.
Proof. unfold close_body. now destruct (body_at ref st). Qed.

Lemma close_body_log ref st : log (close_body ref st) = log st.
Proof. unfold close_body. now destruct (body_at ref st). Qed.

Lemma close_body_sinks ref st :
  sinks (heap (world (close_body ref st))) = sinks (heap (world st)).
Proof. unfold close_body. now destruct (body_at ref st). Qed.

Lemma callback_runs req resp st :
  (match Client.onRequestCompleted (this st) with
   | Some callback => let* h := get_heap in put_heap (callback req resp h)
   | None => ret tt
   end) st = Returns tt (after_callback req resp st).
Proof.
  unfold after_callback. destruct (Client.onRequestCompleted (this st)); [|reflexivity].
  destruct st as [c []]. reflexivity.
Qed.

Lemma get_this_runs st : get_this st = Returns (this st) st.
Proof. reflexivity. Qed.

Lemma put_this_runs c st : put_this c st = Returns tt (with_this c st).
Proof. reflexivity. Qed.

(** Runs [Do] from its start to the call of [CheckResponse], for a request
    that passes the gate ([Hopen]) and that the transport answers ([Hr]). *)
Ltac run_to_check r req st Hopen Hr :=
  unfold Do;
  rewrite (bind_Returns _ _ _ _ _ (gate_open _ _ Hopen));
  unfold bind at 1; unfold get_this at 1;
  rewrite <- gate_ticks_log, <- gate_ticks_this in Hr;
  rewrite (bind_Returns _ _ _ _ _ (send_replied _ _ _ _ _ Hr));
  rewrite gate_ticks_log;
  rewrite (defer_bind_Returns _ _ _ _ _ _ (get_this_runs _));
  rewrite (defer_bind_Returns _ _ _ _ _ _ (callback_runs _ _ _));
  rewrite (defer_bind_Returns _ _ _ _ _ _ (parseRate_at _ _));
  rewrite (defer_bind_Returns _ _ _ _ _ _ (get_this_runs _));
  rewrite (defer_bind_Returns _ _ _ _ _ _ (put_this_runs _ _));
  change (with_this _ _) with (before_check r req st);
  change (response_of r (next_ref (gate_ticks st)) req) with (received r req st).

(** *** The state in which the response is checked *)

Lemma now_tick_if b st : now (tick_if b st) = if b then now (tick st) else now st.
Proof. now destruct b. Qed.

Lemma now_answered r req st : now (answered r req st) = now (gate_ticks st).
Proof.
  unfold answered, after_callback. now destruct (Client.onRequestCompleted _).
Qed.

Lemma stored_before_check r req st :
  stored (before_check r req st) = rate_at (Reply_Header r) (now (gate_ticks st)).
Proof.
  change (stored (before_check r req st))
    with (rate_at (Reply_Header r) (now (answered r req st))).
  now rewrite now_answered.
Qed.

Lemma log_before_check r req st : log (before_check r req st) = req :: log st.
Proof.
  unfold before_check, answered, after_callback, tick_if.
  destruct (reads_clock _), (Client.onRequestCompleted _); reflexivity.
Qed.

Lemma body_before_check ref r req st :
  body_at ref (before_check r req st) = body_at ref (answered r req st).
Proof. unfold before_check, tick_if. now destruct (reads_clock _). Qed.

Lemma sinks_before_check r req st :
  sinks (heap (world (before_check r req st))) = sinks (heap (world (answered r req st))).
Proof. unfold before_check, tick_if. now destruct (reads_clock _). Qed.

Lemma send_failed ctx client req st r e :
  client ctx req (length (log st)) = Failed r e ->
  exists resp st',
    DoRequestWithClient ctx client req st = Returns (resp, Some e) st'
    /\ this st' = this st.
Proof.
  intros H. unfold DoRequestWithClient, bind, get_world, put_world, log in *. simpl.
  rewrite H. destruct r; simpl; do 2 eexists; split; reflexivity.
Qed.

Lemma within_same_this {A} (m : M A) st :
  within same_this m -> this (final (m st)) = this st.
Proof. intros H. apply H. Qed.

(** From [CheckResponse] on, the client is not written to. *)
Lemma Do_stores_parsed_rate ctx req v st r :
  ~ blocked (stored st) (now st) ->
  Client.client (this st) ctx req (length (log st)) = Replied r ->
  stored (final (Do ctx req v st)) = rate_at (Reply_Header r) (now (gate_ticks st)).
Proof.
  intros Hopen Hr. run_to_check r req st Hopen Hr.
  rewrite <- (stored_before_check r req st). unfold stored. f_equal.
  apply within_same_this.
  frame_apply within_defer_Close.
  within_rest store_rate_same_log.
Qed.


(** ** The claims *)

(** C1.  A call of [Do] reaches the network exactly when the stored rate
    does not block it.  When the stored rate has no request left and its
    reset time is set and still ahead, [Do] returns a rate-limit error that
    carries the stored rate and the transport log is unchanged; when requests
    remain or the reset time has come, the request is handed to the
    transport; and it is handed to the transport if and only if the gate
    does not block. *)
Theorem Do_sends_iff_gate_open ctx req v st :
  (blocked (stored st) (now st) ->
   exists e st',
     Do ctx req v st = Returns (None, Some (ErrRateLimit e)) st'
     /\ RateLimitError_Rate e = stored st /\ log st' = log st)
  /\ (0 < Remaining (stored st) \/ Reset (stored st) <= now st ->
      log (final (Do ctx req v st)) = req :: log st)
  /\ (log (final (Do ctx req v st)) = req :: log st <-> ~ blocked (stored st) (now st)).
Proof.
  split; [|split].
  - intros Hb. destruct (Do_blocked ctx req v st Hb) as (e & h & HDo & Hrate).
    exists e. eexists. split; [exact HDo|]. split; [exact Hrate | reflexivity].
  - intros H. apply Do_open_log. unfold blocked. lia.
  - split.
    + intros Hlog Hb. destruct (Do_blocked ctx req v st Hb) as (e & h & HDo & _).
      rewrite HDo in Hlog. simpl in Hlog. unfold log in Hlog. simpl in Hlog.
      apply (f_equal (@length _)) in Hlog. simpl in Hlog. lia.
    + apply Do_open_log.
Qed.

(** C10.  On a client whose rate is the zero value the gate does not block:
    [checkRateLimitBeforeDo] returns nil without touching the state, and
    [Do] hands the request to the transport. *)
Theorem zero_rate_passes_gate req st :
  stored st = Rate_zero ->
  checkRateLimitBeforeDo req st = Returns None st
  /\ forall ctx v, log (final (Do ctx req v st)) = req :: log st.
Proof.
  intros Hz.
  assert (Hopen : ~ blocked (stored st) (now st)).
  { rewrite Hz. unfold blocked. simpl. lia. }
  split.
  - rewrite (gate_open req st Hopen). unfold gate_ticks. now rewrite Hz.
  - intros ctx v. now apply Do_open_log.
Qed.

(** C8.  [Do] writes to the client in its rate only: the client after the
    call is the client before with, at most, another rate.  A call that the
    gate blocks or that the transport fails leaves the client as it was, and
    a call that gets a response stores the rate parsed from its headers. *)
Theorem Do_writes_rate_only ctx req v st :
  this (final (Do ctx req v st))
  = Client.set_rate (stored (final (Do ctx req v st))) (this st)
  /\ (blocked (stored st) (now st) -> this (final (Do ctx req v st)) = this st)
  /\ (forall r e,
        Client.client (this st) ctx req (length (log st)) = Failed r e ->
        this (final (Do ctx req v st)) = this st)
  /\ (forall r,
        ~ blocked (stored st) (now st) ->
        Client.client (this st) ctx req (length (log st)) = Replied r ->
        stored (final (Do ctx req v st)) = rate_at (Reply_Header r) (now (gate_ticks st))).
Proof.
  split; [apply Do_same_but_rate|]. split; [|split].
  - intros Hb. destruct (Do_blocked ctx req v st Hb) as (e & h & -> & _). reflexivity.
  - intros r e Hf.
    destruct (blocked_dec (stored st) (now st)) as [Hb|Hopen].
    + destruct (Do_blocked ctx req v st Hb) as (e' & h & -> & _). reflexivity.
    + unfold Do. rewrite (bind_Returns _ _ _ _ _ (gate_open req st Hopen)).
      unfold bind at 1. unfold get_this at 1.
      rewrite <- gate_ticks_log, <- gate_ticks_this in Hf.
      destruct (send_failed _ _ _ _ _ _ Hf) as (resp & st' & Hsend & Hthis).
      rewrite (bind_Returns _ _ _ _ _ Hsend). simpl.
      now rewrite Hthis, gate_ticks_this.
  - intros r. apply Do_stores_parsed_rate.
Qed.

(** C4.  A response whose [x-ratelimit-remaining] header reads [0] makes
    [Do] return a rate-limit error, whatever its status code: the error
    carries the rate parsed from the headers of the response, whose
    [Remaining] is 0, and the response itself. *)
Theorem exhausted_header_gives_rate_limit_error ctx req v st r :
  ~ blocked (stored st) (now st) ->
  Client.client (this st) ctx req (length (log st)) = Replied r ->
  http.Header_Get (Reply_Header r) headerRateLimitRemaining = "0" ->
  exists e st',
    Do ctx req v st = Returns (None, Some (ErrRateLimit e)) st'
    /\ RateLimitError_Rate e = rate_at (Reply_Header r) (now (before_check r req st))
    /\ Remaining (RateLimitError_Rate e) = 0
    /\ ResponseError_Response (RateLimitError_ResponseError e) = Some (received r req st)
    /\ Response.StatusCode (received r req st) = Reply_StatusCode r.
Proof.
  intros Hopen Hr H0. run_to_check r req st Hopen Hr.
  rewrite (defer_bind_Returns _ _ _ _ _ _
             (CheckResponse_exhausted (received r req st) (before_check r req st) H0)).
  rewrite defer_ret.
  eexists. eexists. split; [reflexivity|]. simpl.
  repeat split. unfold rate_at; simpl.
  change (Response.Header (received r req st)) with (Reply_Header r).
  rewrite H0. reflexivity.
Qed.

Lemma reset_in_120_seconds t :
  time.Add (time.Truncate t time.Second) (time.mul time.Second 120)
  = time.Truncate (time.Add t (120 * time.Second)) time.Second.
Proof.
  unfold time.Add, time.Truncate, time.mul, time.Second.
  change (wrap64 (1000000000 * 120)) with (120 * 1000000000).
  rewrite Z.mod_add by lia. lia.
Qed.

Lemma rate_at_example h t :
  http.Header_Get h headerRateLimitRemaining = "0" ->
  http.Header_Get h headerRateLimitUsed = "60" ->
  http.Header_Get h headerRateLimitReset = "120" ->
  reads_clock h = true
  /\ rate_at h t
     = {| Remaining := 0; Used := 60;
          Reset := time.Truncate (time.Add t (120 * time.Second)) time.Second |}.
Proof.
  intros H0 H60 H120. unfold rate_at, reads_clock. rewrite H0, H60, H120.
  split; [reflexivity|]. rewrite <- reset_in_120_seconds. reflexivity.
Qed.

(** C5.  With the headers [x-ratelimit-remaining: 0], [x-ratelimit-used: 60]
    and [x-ratelimit-reset: 120], [parseRate] reads the clock once and
    returns [Remaining = 0], [Used = 60] and, as [Reset], the time of that
    reading plus 120 seconds, truncated to the second; and [Do], for a
    request that passes the gate and gets this response, leaves that rate in
    the client. *)
Theorem rate_headers_parsed_and_stored ctx req v st r :
  http.Header_Get (Reply_Header r) headerRateLimitRemaining = "0" ->
  http.Header_Get (Reply_Header r) headerRateLimitUsed = "60" ->
  http.Header_Get (Reply_Header r) headerRateLimitReset = "120" ->
  ~ blocked (stored st) (now st) ->
  Client.client (this st) ctx req (length (log st)) = Replied r ->
  (forall resp st0,
     Response.Header resp = Reply_Header r ->
     parseRate resp st0
     = Returns {| Remaining := 0; Used := 60;
                  Reset := time.Truncate (time.Add (now st0) (120 * time.Second)) time.Second |}
         (tick st0))
  /\ stored (final (Do ctx req v st))
     = {| Remaining := 0; Used := 60;
          Reset := time.Truncate (time.Add (now (gate_ticks st)) (120 * time.Second))
                     time.Second |}.
Proof.
  intros H0 H60 H120 Hopen Hr. split.
  - intros resp st0 Hh. rewrite parseRate_at, Hh.
    destruct (rate_at_example (Reply_Header r) (now st0) H0 H60 H120) as [-> ->].
    reflexivity.
  - rewrite (Do_stores_parsed_rate ctx req v st r Hopen Hr).
    apply (rate_at_example _ _ H0 H60 H120).
Qed.

Lemma Do_panics_on_readable_body ctx req v st r b :
  ~ blocked (stored st) (now st) ->
  Client.client (this st) ctx req (length (log st)) = Replied r ->
  http.Header_Get (Reply_Header r) headerRateLimitRemaining <> "0" ->
  body_at (Response.Body (received r req st)) (answered r req st) = Some b ->
  ending b = None ->
  exists st',
    Do ctx req v st = Panics nil_dereference st'
    /\ log st' = req :: log st
    /\ sinks (heap (world st')) = sinks (heap (world (answered r req st))).
Proof.
  intros Hopen Hr Hh Hb He. run_to_check r req st Hopen Hr.
  apply String.eqb_neq in Hh.
  rewrite <- body_before_check in Hb.
  rewrite (defer_bind_Panics _ _ _ _ _ _
             (CheckResponse_readable (received r req st) (before_check r req st) b Hh Hb He)).
  eexists. split; [reflexivity|]. split.
  - rewrite close_body_log. apply log_before_check.
  - rewrite close_body_sinks. apply sinks_before_check.
Qed.

(** C3 (the code departs from it).  A response whose rate header does not
    read [0] and whose status is not 200 should give a response error.  When
    its body can be read to the end, [CheckResponse] calls [Error()] on the
    nil error that [ReadAll] returned, and [Do] panics. *)
Theorem non200_response_panics ctx req v st r b :
  ~ blocked (stored st) (now st) ->
  Client.client (this st) ctx req (length (log st)) = Replied r ->
  http.Header_Get (Reply_Header r) headerRateLimitRemaining <> "0" ->
  Reply_StatusCode r <> 200 ->
  body_at (Response.Body (received r req st)) (answered r req st) = Some b ->
  ending b = None ->
  exists st', Do ctx req v st = Panics nil_dereference st'.
Proof.
  intros Hopen Hr Hh _ Hb He.
  destruct (Do_panics_on_readable_body ctx req v st r b Hopen Hr Hh Hb He) as (st' & H & _).
  now exists st'.
Qed.

(** Only when reading the body fails does a response with another status
    than 200 give the response error, which carries the response and with it
    the status code and the request. *)
Lemma non200_response_error_when_read_fails ctx req v st r b e :
  ~ blocked (stored st) (now st) ->
  Client.client (this st) ctx req (length (log st)) = Replied r ->
  http.Header_Get (Reply_Header r) headerRateLimitRemaining <> "0" ->
  Reply_StatusCode r <> 200 ->
  body_at (Response.Body (received r req st)) (answered r req st) = Some b ->
  ending b = Some e ->
  exists st',
    Do ctx req v st
    = Returns (None, Some (ErrResponse {| ResponseError_Response := Some (received r req st);
                                          ResponseError_Message := Error e |})) st'.
Proof.
  intros Hopen Hr Hh Hs Hb He. run_to_check r req st Hopen Hr.
  apply String.eqb_neq in Hh. rewrite <- body_before_check in Hb.
  rewrite (defer_bind_Returns _ _ _ _ _ _
             (CheckResponse_read_fails (received r req st) (before_check r req st) b e Hh Hb He)).
  change (Response.StatusCode (received r req st)) with (Reply_StatusCode r).
  apply Z.eqb_neq in Hs. rewrite Hs. rewrite defer_ret. eexists. reflexivity.
Qed.

(** C7 (the code departs from it).  On a response with status 200 whose
    rate header does not read [0] and whose body can be read to the end, [Do]
    should decode the body into the destination or copy it to the writer.
    It panics in [CheckResponse] before it comes to the destination: nothing
    is decoded and no writer receives a byte. *)
Theorem success_response_panics_before_decoding ctx req v st r b :
  ~ blocked (stored st) (now st) ->
  Client.client (this st) ctx req (length (log st)) = Replied r ->
  http.Header_Get (Reply_Header r) headerRateLimitRemaining <> "0" ->
  Reply_StatusCode r = 200 ->
  body_at (Response.Body (received r req st)) (answered r req st) = Some b ->
  ending b = None ->
  exists st',
    Do ctx req v st = Panics nil_dereference st'
    /\ sinks (heap (world st')) = sinks (heap (world (answered r req st))).
Proof.
  intros Hopen Hr Hh _ Hb He.
  destruct (Do_panics_on_readable_body ctx req v st r b Hopen Hr Hh Hb He)
    as (st' & H & _ & Hs).
  now exists st'.
Qed.

(** The decoding steps of [Do] are reached only after [ReadAll] has failed
    on the body, when nothing is left in the stream: the decoder meets the
    read error again, and the [JSONError] carries that error and a buffer of
    [ContentLength] zero bytes. *)
Lemma body_at_with_body ref b st : body_at ref (with_body ref b st) = Some b.
Proof. unfold body_at, with_body. simpl. apply lookup_insert_eq. Qed.

Lemma Decoder_Decode_drained ref unmarshal st b e :
  body_at ref st = Some b -> pending b = [] -> ending b = Some e ->
  Decoder_Decode ref unmarshal st = Returns (Some e) (with_body ref b st).
Proof.
  intros Hb Hp He.
  unfold Decoder_Decode, get_body, put_body, get_heap, put_heap, bind, get_world,
    put_world, body_at in *. simpl. rewrite Hb. simpl. rewrite Hp, He. simpl.
  unfold with_body, with_heap. simpl. destruct b; simpl in *; subst. reflexivity.
Qed.

Lemma Body_Read_drained ref p st b :
  body_at ref st = Some b -> pending b = [] ->
  Body_Read ref p st = Returns (p, Some (default io_EOF (ending b))) st.
Proof.
  intros Hb Hp. unfold Body_Read, get_body, get_heap, bind, get_world, body_at in *.
  simpl. rewrite Hb. simpl. rewrite Hp. reflexivity.
Qed.

Lemma decode_after_failed_read ctx req unmarshal st r b e :
  ~ blocked (stored st) (now st) ->
  Client.client (this st) ctx req (length (log st)) = Replied r ->
  http.Header_Get (Reply_Header r) headerRateLimitRemaining <> "0" ->
  Reply_StatusCode r = 200 ->
  body_at (Response.Body (received r req st)) (answered r req st) = Some b ->
  ending b = Some e ->
  0 <= Reply_ContentLength r ->
  exists st',
    Do ctx req (DestValue unmarshal) st
    = Returns (None,
               Some (ErrJSON {| JSONError_Message := Error e;
                                JSONError_Data :=
                                  repeat x00 (Z.to_nat (Reply_ContentLength r)) |})) st'.
Proof.
  intros Hopen Hr Hh Hs Hb He Hlen. run_to_check r req st Hopen Hr.
  apply String.eqb_neq in Hh. rewrite <- body_before_check in Hb.
  rewrite (defer_bind_Returns _ _ _ _ _ _
             (CheckResponse_read_fails (received r req st) (before_check r req st) b e Hh Hb He)).
  change (Response.StatusCode (received r req st)) with (Reply_StatusCode r).
  rewrite Hs. simpl (if _ =? _ then _ else _). cbv beta iota.
  rewrite (defer_bind_Returns _ _ _ _ _ _
             (Decoder_Decode_drained _ unmarshal _
                {| pending := []; ending := Some e; closed := closed b |} e
                (body_at_with_body _ _ _) eq_refl eq_refl)).
  cbv beta iota.
  change (Response.ContentLength (received r req st)) with (Reply_ContentLength r).
  unfold make_bytes. apply Z.ltb_ge in Hlen. rewrite Hlen.
  rewrite (defer_bind_Returns _ _ _ _ _ _ eq_refl).
  rewrite (defer_bind_Returns _ _ _ _ _ _
             (Body_Read_drained _ _ _
                {| pending := []; ending := Some e; closed := closed b |}
                (body_at_with_body _ _ _) eq_refl)).
  simpl. rewrite defer_ret. eexists. reflexivity.
Qed.


(** *** Request construction *)

Lemma append_on_readonly_host ro req :
  url_Parse defaultBaseURLReadonly = inr ro ->
  url.Host (Request.URL req) = url.Host ro ->
  Request.URL (appendJSONExtensionToRequestURLPath req)
  = url.set_Path (url.Path (Request.URL req) +:+ ".json") (Request.URL req).
Proof.
  intros Hro Hhost. unfold appendJSONExtensionToRequestURLPath. rewrite Hro.
  apply String.eqb_eq in Hhost. now rewrite Hhost.
Qed.

Lemma append_on_other_host ro req :
  url_Parse defaultBaseURLReadonly = inr ro ->
  url.Host (Request.URL req) <> url.Host ro ->
  appendJSONExtensionToRequestURLPath req = req.
Proof.
  intros Hro Hhost. unfold appendJSONExtensionToRequestURLPath. rewrite Hro.
  apply String.eqb_neq in Hhost. now rewrite Hhost.
Qed.

(** C6.  Let the relative path resolve against the base URL of the client
    to [u], and let [http.NewRequest] make the request [req0] of it, on the
    host of the base.  Then [NewRequest] returns a request whose URL is that
    of [req0] with [.json] appended to the path when the base host is the
    read-only host, and the URL of [req0] as it is when the base host is
    another one, such as the OAuth host. *)
Theorem json_suffix_on_readonly_host_only c method path form ro u req0 :
  url_Parse defaultBaseURLReadonly = inr ro ->
  URL_Parse (Client.BaseURL c) path = inr u ->
  http_NewRequest method (URL_String u) form = inr req0 ->
  url.Host (Request.URL req0) = url.Host (Client.BaseURL c) ->
  exists req,
    NewRequest c method path form = inr req
    /\ (url.Host (Client.BaseURL c) = url.Host ro ->
        Request.URL req
        = url.set_Path (url.Path (Request.URL req0) +:+ ".json") (Request.URL req0))
    /\ (url.Host (Client.BaseURL c) <> url.Host ro ->
        Request.URL req = Request.URL req0).
Proof.
  intros Hro Hu Hreq Hhost. unfold NewRequest. rewrite Hu, Hreq.
  eexists. split; [reflexivity|]. rewrite <- Hhost. split; intros H.
  - apply (append_on_readonly_host ro req0 Hro H).
  - simpl. now rewrite (append_on_other_host ro req0 Hro H).
Qed.

(** [NewJSONRequest] treats the path of its request in the same way. *)
Lemma json_suffix_of_NewJSONRequest c method path body ro u req0 :
  url_Parse defaultBaseURLReadonly = inr ro ->
  URL_Parse (Client.BaseURL c) path = inr u ->
  (forall e, body <> Some (inl e)) ->
  http_NewRequest method (URL_String u)
    (Some match body with Some (inr bs) => bs | _ => [] end) = inr req0 ->
  url.Host (Request.URL req0) = url.Host (Client.BaseURL c) ->
  exists req,
    NewJSONRequest c method path body = inr req
    /\ (url.Host (Client.BaseURL c) = url.Host ro ->
        Request.URL req
        = url.set_Path (url.Path (Request.URL req0) +:+ ".json") (Request.URL req0))
    /\ (url.Host (Client.BaseURL c) <> url.Host ro ->
        Request.URL req = Request.URL req0).
Proof.
  intros Hro Hu Hbody Hreq Hhost. unfold NewJSONRequest. rewrite Hu.
  destruct body as [[e|bs]|]; [now destruct (Hbody e)| |]; rewrite Hreq;
    (eexists; split; [reflexivity|]); rewrite <- Hhost; split; intros H;
    first [ apply (append_on_readonly_host ro req0 Hro H)
          | simpl; now rewrite (append_on_other_host ro req0 Hro H) ].
Qed.

(** *** The syntax check and white space *)

Lemma isSpace_cases c :
  json.isSpace c = true -> c = " "%byte \/ c = x09 \/ c = x0d \/ c = x0a.
Proof.
  unfold json.isSpace. intros H. apply andb_true_iff in H as [_ H].
  repeat (apply orb_true_iff in H as [H|H]); apply Byte.byte_dec_bl in H; auto.
Qed.

Lemma consistent_error s c context : json.consistent (snd (json.error s c context)) = true.
Proof. reflexivity. Qed.

Ltac split_ifs :=
  repeat match goal with
         | |- context [if ?b then _ else _] => destruct b
         | |- context [match ?x with json.parseObjectKey => _ | _ => _ end] => destruct x
         end.

Ltac unfold_step :=
  unfold json.apply_step, json.do_stateBeginValueOrEmpty, json.do_stateBeginValue,
    json.do_stateBeginStringOrEmpty, json.do_stateBeginString, json.do_stateEndValue,
    json.do_stateEndTop, json.do_stateInString, json.do_stateInStringEsc, json.do_hex,
    json.do_stateNeg, json.do_state1, json.do_state0, json.do_stateDot, json.do_stateDot0,
    json.do_stateE, json.do_stateESign, json.do_stateE0, json.do_lit,
    json.do_stateEndValue, json.do_stateEndTop, json.pushParseState, json.popParseState;
  cbn [json.step json.err json.parseState json.endTop json.set_step json.set_top].

Lemma step_consistent s c :
  json.consistent s = true -> json.consistent (snd (json.apply_step s c)) = true.
Proof.
  destruct s as [st et ps [e|]]; destruct st; try discriminate; intros _;
    unfold_step; try reflexivity.
  all: destruct ps as [|p ps]; cbn [tail json.parseState]; split_ifs; try reflexivity.
  all: try (destruct ps; reflexivity).
Qed.


(** A step answers [scanError] only with the error set. *)
Lemma step_error s c :
  json.consistent s = true ->
  fst (json.apply_step s c) = json.scanError ->
  json.err (snd (json.apply_step s c)) <> None.
Proof.
  destruct s as [st et ps [e|]]; destruct st; try discriminate; intros _;
    unfold_step; try discriminate.
  all: destruct ps as [|p ps]; cbn [tail json.parseState]; split_ifs; try discriminate.
  all: try (destruct ps; discriminate).
Qed.

(** White space in front of the value leaves the scanner where it starts. *)
Lemma step_reset_space c :
  json.isSpace c = true -> json.apply_step json.reset c = (json.scanSkipSpace, json.reset).
Proof.
  intros H. unfold json.apply_step, json.do_stateBeginValue. simpl. now rewrite H.
Qed.

(** A scanner that accepts after one more white space byte accepts
    before it. *)
Lemma space_accepts s c :
  json.consistent s = true ->
  json.isSpace c = true ->
  fst (json.apply_step s c) <> json.scanError ->
  json.accepts (snd (json.apply_step s c)) = true ->
  json.accepts s = true.
Proof.
  intros Hs Hc. apply isSpace_cases in Hc.
  destruct s as [st et ps [e|]]; destruct st; try discriminate;
    destruct Hc as [-> | [-> | [-> | ->]]]; destruct et, ps as [|p ps]; try destruct p;
    vm_compute; congruence.
Qed.


(** The scanner after the bytes of [data], if no step answers
    [scanError]. *)
Lemma scan_bytes_app s data rest :
  json.scan_bytes s (data ++ rest)
  = match json.scan_bytes s data with
    | inl e => inl e
    | inr s' => json.scan_bytes s' rest
    end.
Proof.
  revert s. induction data as [|c data IH]; intros s; simpl; [reflexivity|].
  destruct (json.apply_step s c) as [[] s']; auto.
Qed.

Lemma scan_bytes_consistent data : forall s s',
  json.consistent s = true -> json.scan_bytes s data = inr s' -> json.consistent s' = true.
Proof.
  induction data as [|c data IH]; intros s s' Hs H; simpl in H.
  - inversion H; subst; exact Hs.
  - pose proof (step_consistent s c Hs) as Hc.
    destruct (json.apply_step s c) as [op s1]; simpl in Hc.
    destruct op; try discriminate; eapply IH; eauto.
Qed.

Lemma scan_bytes_error data : forall s e,
  json.consistent s = true -> json.scan_bytes s data = inl e -> e <> None.
Proof.
  induction data as [|c data IH]; intros s e Hs H; simpl in H; [discriminate|].
  pose proof (step_consistent s c Hs) as Hc. pose proof (step_error s c Hs) as He.
  destruct (json.apply_step s c) as [op s1]; simpl in Hc, He.
  destruct op; try (eapply IH; eassumption).
  inversion H; subst. now apply He.
Qed.

Lemma eof_error s :
  fst (json.eof s) = json.scanError -> json.err (snd (json.eof s)) <> None.
Proof.
  unfold json.eof. destruct (json.err s) eqn:He; [intros _ Hn; simpl in Hn; congruence|].
  destruct (json.endTop s); [discriminate|].
  destruct (json.endTop (snd _)); [discriminate|].
  destruct (json.err (snd _)) eqn:He'; intros _ Hn; cbn [snd json.err] in Hn; congruence.
Qed.

Lemma eof_opcode s :
  fst (json.eof s) = json.scanEnd \/ fst (json.eof s) = json.scanError.
Proof.
  unfold json.eof. destruct (json.err s); [now right|].
  destruct (json.endTop s); [now left|].
  destruct (json.endTop (snd _)); [now left|].
  destruct (json.err (snd _)); now right.
Qed.

(** An input is valid exactly when the scanner runs through it and accepts
    at its end. *)
Lemma checkValid_accepts data :
  json.checkValid data = None
  <-> exists s, json.scan_bytes json.reset data = inr s /\ json.accepts s = true.
Proof.
  unfold json.checkValid, json.accepts. split.
  - destruct (json.scan_bytes json.reset data) as [e|s] eqn:Hscan.
    + intros ->. now destruct (scan_bytes_error data json.reset None eq_refl Hscan).
    + intros H. exists s. split; [reflexivity|].
      pose proof (eof_error s) as He. pose proof (eof_opcode s) as Hop.
      destruct (json.eof s) as [op s']; simpl in *.
      destruct Hop as [-> | ->]; [reflexivity|]. exfalso. now apply He.
  - intros (s & -> & H). destruct (json.eof s) as [op s']; simpl in *.
    destruct op; try reflexivity; discriminate.
Qed.

Lemma checkValid_leading_space c data :
  json.isSpace c = true -> json.checkValid (c :: data) = json.checkValid data.
Proof.
  intros Hc. unfold json.checkValid. simpl. now rewrite (step_reset_space c Hc).
Qed.

Lemma checkValid_trimLeft data : json.checkValid (json.trimLeft data) = json.checkValid data.
Proof.
  induction data as [|c data IH]; simpl; [reflexivity|].
  destruct (json.isSpace c) eqn:Hc; [|reflexivity].
  now rewrite IH, (checkValid_leading_space c data Hc).
Qed.

Lemma checkValid_trailing_space data c :
  json.isSpace c = true ->
  json.checkValid (data ++ [c]) = None -> json.checkValid data = None.
Proof.
  intros Hc H. apply checkValid_accepts in H as (s' & Hscan & Hacc).
  apply checkValid_accepts. rewrite scan_bytes_app in Hscan.
  destruct (json.scan_bytes json.reset data) as [e|s] eqn:Hdata; [discriminate|].
  exists s. split; [reflexivity|].
  pose proof (scan_bytes_consistent data json.reset s eq_refl Hdata) as Hs.
  simpl in Hscan.
  apply (space_accepts s c Hs Hc);
    destruct (json.apply_step s c) as [op s1]; simpl;
    destruct op; try discriminate; now inversion Hscan.
Qed.

Lemma checkValid_trailing_spaces ws : forall data,
  forallb json.isSpace ws = true ->
  json.checkValid (data ++ ws) = None -> json.checkValid data = None.
Proof.
  induction ws as [|c ws IH] using rev_ind; intros data Hws H.
  - now rewrite app_nil_r in H.
  - rewrite forallb_app in Hws. apply andb_true_iff in Hws as [Hws Hc].
    simpl in Hc. rewrite andb_true_r in Hc.
    rewrite app_assoc in H. apply checkValid_trailing_space in H; auto.
Qed.

Lemma trimLeft_split data :
  exists ws, data = (ws ++ json.trimLeft data)%list /\ forallb json.isSpace ws = true.
Proof.
  induction data as [|c data (ws & Heq & Hws)]; simpl.
  - now exists [].
  - destruct (json.isSpace c) eqn:Hc.
    + exists (c :: ws). simpl. rewrite Hc, Hws. split; [now f_equal | reflexivity].
    + now exists [].
Qed.

(** The bytes that the decoder hands to [UnmarshalJSON] are valid when the
    input is. *)
Lemma checkValid_trimSpace data :
  json.checkValid data = None -> json.checkValid (json.trimSpace data) = None.
Proof.
  intros H. rewrite <- checkValid_trimLeft in H. unfold json.trimSpace.
  destruct (trimLeft_split (rev (json.trimLeft data))) as (ws & Heq & Hws).
  apply (checkValid_trailing_spaces (rev ws)).
  - rewrite forallb_forall in *. intros x Hx. apply Hws. now apply in_rev.
  - rewrite <- rev_app_distr, <- Heq, rev_involutive. exact H.
Qed.

(** *** The entity decoders *)

Lemma UnmarshalJSON_invalid T fuel b e :
  json.checkValid b = Some e ->
  UnmarshalJSON T (S fuel) b
  = Done (Some {| JSONError_Message := "error during unmarshal: " +:+ Error e;
                  JSONError_Data := b |}).
Proof. intros H. simpl. unfold json_Unmarshal. now rewrite H. Qed.

Lemma UnmarshalJSON_valid T fuel : forall b,
  json.checkValid b = None -> UnmarshalJSON T fuel b = OutOfFuel.
Proof.
  induction fuel as [|fuel IH]; intros b H; [reflexivity|].
  simpl. unfold json_Unmarshal. rewrite H.
  now rewrite (IH _ (checkValid_trimSpace b H)).
Qed.



(** C9 (the code departs from it).  The [UnmarshalJSON] methods should
    return on every input.  On an input that is valid JSON each of them calls
    [json.Unmarshal] on its own receiver, which calls the method again on the
    bytes of the same value: whatever the budget of nested calls, the call has
    not returned when the budget is used up. *)
Theorem UnmarshalJSON_does_not_return_on_valid_json T b :
  json.checkValid b = None ->
  forall fuel, UnmarshalJSON T fuel b = OutOfFuel.
Proof.
  intros H fuel. revert b H.
  induction fuel as [|fuel IH]; intros b H; [reflexivity|].
  cbn [UnmarshalJSON]. unfold json_Unmarshal. rewrite H.
  pose proof (checkValid_trimSpace b H) as Hitem.
  now rewrite (IH (json.trimSpace b) Hitem).
Qed.

(** On the payloads of the kinds [t1] and [t99] and on a listing with a
    child, every decoder is still running when its budget is used up. *)
Lemma kind_is_never_looked_at T fuel :
  UnmarshalJSON T fuel (json_text "{'kind':'t1','data':{}}") = OutOfFuel
  /\ UnmarshalJSON T fuel (json_text "{'kind':'t99','data':{}}") = OutOfFuel
  /\ UnmarshalJSON T fuel
       (json_text "{'kind':'Listing','data':{'children':[{'kind':'t1','data':{}}]}}")
     = OutOfFuel.
Proof. repeat split; apply UnmarshalJSON_valid; vm_compute; reflexivity. Qed.



(** The fields of the client that [Do] leaves alone, one by one. *)
Lemma Do_keeps_fields ctx req v st :
  let c := this st in
  let c' := this (final (Do ctx req v st)) in
  Client.credentials c' = Client.credentials c
  /\ Client.BaseURL c' = Client.BaseURL c
  /\ Client.TokenURL c' = Client.TokenURL c
  /\ Client.userAgent c' = Client.userAgent c
  /\ Client.redditID c' = Client.redditID c
  /\ Client.client c' = Client.client c
  /\ Client.oauth2Transport c' = Client.oauth2Transport c
  /\ Client.onRequestCompleted c' = Client.onRequestCompleted c
  /\ [Client.Account c'; Client.Captcha c'; Client.Collection c'; Client.Emoji c';
      Client.Flair c'; Client.Gold c'; Client.LinkAndComment c'; Client.Listings c';
      Client.Message c'; Client.Moderation c'; Client.Multi c'; Client.Subreddit c';
      Client.User c'; Client.Widget c'; Client.Wiki c']
     = [Client.Account c; Client.Captcha c; Client.Collection c; Client.Emoji c;
        Client.Flair c; Client.Gold c; Client.LinkAndComment c; Client.Listings c;
        Client.Message c; Client.Moderation c; Client.Multi c; Client.Subreddit c;
        Client.User c; Client.Widget c; Client.Wiki c].
Proof.
  intros c c'. pose proof (Do_same_but_rate ctx req v st) as H.
  unfold same_but_rate in H. subst c c'. rewrite H. repeat split.
Qed.


(** ** Every way through [Do] *)

Lemma gate_blocked_response req st :
  blocked (stored st) (now st) ->
  exists e h resp,
    checkRateLimitBeforeDo req st = Returns (Some e) (with_heap h (tick st))
    /\ RateLimitError_Rate e = stored st
    /\ ResponseError_Response (RateLimitError_ResponseError e) = Some resp
    /\ Response.Request resp = Some req
    /\ Response.StatusCode resp = 429.
Proof.
  intros (Hrem & Hreset & Hlt).
  unfold checkRateLimitBeforeDo, bind, get_this, stored, now in *.
  unfold time.IsZero, time.Before. simpl.
  rewrite Hrem. apply Z.eqb_neq in Hreset. rewrite Hreset.
  apply Z.ltb_lt in Hlt. simpl. rewrite Hlt.
  do 3 eexists. repeat split; reflexivity.
Qed.

Lemma send_failed_response ctx client req st r e :
  client ctx req (length (log st)) = Failed r e ->
  exists resp st',
    DoRequestWithClient ctx client req st = Returns (resp, Some e) st'
    /\ match r, resp with
       | None, None => True
       | Some r, Some resp => exists body, resp = response_of r body req
       | _, _ => False
       end.
Proof.
  intros H. unfold DoRequestWithClient, bind, get_world, put_world, log in *. simpl.
  rewrite H. destruct r; simpl; do 2 eexists; (split; [reflexivity|]);
    first [exact I | eexists; reflexivity].
Qed.

Lemma CheckResponse_no_body r st :
  String.eqb (http.Header_Get (Response.Header r) headerRateLimitRemaining) "0" = false ->
  body_at (Response.Body r) st = None ->
  CheckResponse r st = Panics nil_dereference st.
Proof.
  intros Hh Hb. unfold CheckResponse. rewrite Hh.
  unfold ioutil_ReadAll, get_body, get_heap, bind, get_world, body_at in *. simpl.
  now rewrite Hb.
Qed.

Lemma io_Copy_drained w ref st b e :
  body_at ref st = Some b -> pending b = [] -> ending b = Some e ->
  sinks (heap (world st)) !! w <> None ->
  exists st', io_Copy w ref st = Returns (Some e) st'.
Proof.
  intros Hb Hp He Hw.
  unfold io_Copy, get_body, get_heap, put_heap, bind, get_world, put_world, body_at in *.
  simpl. rewrite Hb. simpl.
  destruct (sinks (heap (world st)) !! w) as [[got werr]|]; [|congruence].
  rewrite Hp, He. simpl. eexists. reflexivity.
Qed.

Lemma io_Copy_no_writer w ref st b :
  body_at ref st = Some b ->
  sinks (heap (world st)) !! w = None ->
  io_Copy w ref st = Panics nil_dereference st.
Proof.
  intros Hb Hw.
  unfold io_Copy, get_body, get_heap, bind, get_world, body_at in *.
  simpl. rewrite Hb. simpl. now rewrite Hw.
Qed.

Lemma sinks_with_body ref b st :
  sinks (heap (world (with_body ref b st))) = sinks (heap (world st)).
Proof. reflexivity. Qed.

(** [Do] ends in one of the ways of [Do_ends], whatever the state, the
    transport, the callback and the destination are. *)
Theorem Do_ends_one_way ctx req v st : Do_ends ctx req v st (Do ctx req v st).
Proof.
  destruct (blocked_dec (stored st) (now st)) as [Hb|Hopen].
  { destruct (gate_blocked_response req st Hb) as (e & h & resp & Hgate & Hrate & Hresp & Hreq & Hs).
    unfold Do. rewrite (bind_Returns _ _ _ _ _ Hgate).
    now apply (ends_at_gate ctx req v st e resp). }
  destruct (Client.client (this st) ctx req (length (log st))) as [r e|r] eqn:Hr.
  { unfold Do. rewrite (bind_Returns _ _ _ _ _ (gate_open _ _ Hopen)).
    unfold bind at 1. unfold get_this at 1.
    pose proof Hr as Hr'. rewrite <- gate_ticks_log, <- gate_ticks_this in Hr'.
    destruct (send_failed_response _ _ _ _ _ _ Hr') as (resp & st' & Hsend & Hshape).
    rewrite (bind_Returns _ _ _ _ _ Hsend). cbv beta iota.
    now apply (ends_at_transport ctx req v st r e resp). }
  pose proof Hr as Hr'. run_to_check r req st Hopen Hr'.
  destruct (String.eqb (http.Header_Get (Reply_Header r) headerRateLimitRemaining) "0")
    eqn:Hh.
  { apply String.eqb_eq in Hh.
    rewrite (defer_bind_Returns _ _ _ _ _ _
               (CheckResponse_exhausted (received r req st) (before_check r req st) Hh)).
    cbv beta iota. rewrite defer_ret.
    now apply (ends_at_rate_header ctx req v st r). }
  assert (Hne : http.Header_Get (Reply_Header r) headerRateLimitRemaining <> "0")
    by now apply String.eqb_neq.
  destruct (body_at (Response.Body (received r req st)) (answered r req st)) as [b|] eqn:Hbody.
  2:{ pose proof Hbody as Hb'. rewrite <- body_before_check in Hb'.
      rewrite (defer_bind_Panics _ _ _ _ _ _
                 (CheckResponse_no_body (received r req st) (before_check r req st) Hh Hb')).
      apply (ends_in_panic_after_read ctx req v st r); auto.
      unfold read_result. now rewrite Hbody. }
  pose proof Hbody as Hb'. rewrite <- body_before_check in Hb'.
  destruct (ending b) as [e|] eqn:He.
  2:{ rewrite (defer_bind_Panics _ _ _ _ _ _
                 (CheckResponse_readable (received r req st) (before_check r req st) b Hh Hb' He)).
      apply (ends_in_panic_after_read ctx req v st r); auto.
      unfold read_result. now rewrite Hbody. }
  assert (Hread : read_result r req st = Some e).
  { unfold read_result. now rewrite Hbody. }
  rewrite (defer_bind_Returns _ _ _ _ _ _
             (CheckResponse_read_fails (received r req st) (before_check r req st) b e Hh Hb' He)).
  change (Response.StatusCode (received r req st)) with (Reply_StatusCode r).
  destruct (Z.eqb_spec (Reply_StatusCode r) 200) as [Hs|Hs]; cbv beta iota.
  2:{ rewrite defer_ret. now apply (ends_at_status ctx req v st r e). }
  destruct v as [|w|unmarshal].
  - rewrite defer_ret. now apply (ends_with_response ctx req DestNil st r e).
  - destruct (writer_at w r req st) as [sink|] eqn:Hw.
    + destruct (io_Copy_drained w (Response.Body (received r req st))
                  (with_body (Response.Body (received r req st))
                     {| pending := []; ending := Some e; closed := closed b |}
                     (before_check r req st))
                  {| pending := []; ending := Some e; closed := closed b |} e
                  (body_at_with_body _ _ _) eq_refl eq_refl) as (st' & Hcopy).
      { rewrite sinks_with_body, sinks_before_check. unfold writer_at in Hw. congruence. }
      rewrite (defer_bind_Returns _ _ _ _ _ _ Hcopy). cbv beta iota. rewrite defer_ret.
      apply (ends_at_copy ctx req (DestWriter w) st r e w); auto. congruence.
    + rewrite (defer_bind_Panics _ _ _ _ _ _
                 (io_Copy_no_writer w _ _ _ (body_at_with_body _ _ _)
                    ltac:(rewrite sinks_with_body, sinks_before_check; exact Hw))).
      now apply (ends_in_panic_at_copy ctx req (DestWriter w) st r e w).
  - rewrite (defer_bind_Returns _ _ _ _ _ _
               (Decoder_Decode_drained _ unmarshal _
                  {| pending := []; ending := Some e; closed := closed b |} e
                  (body_at_with_body _ _ _) eq_refl eq_refl)).
    cbv beta iota.
    change (Response.ContentLength (received r req st)) with (Reply_ContentLength r).
    unfold make_bytes.
    destruct (Z.ltb_spec (Reply_ContentLength r) 0) as [Hlen|Hlen].
    + rewrite (defer_bind_Panics _ _ _ _ _ _ eq_refl).
      now apply (ends_in_panic_at_decode ctx req (DestValue unmarshal) st r e unmarshal).
    + rewrite (defer_bind_Returns _ _ _ _ _ _ eq_refl).
      rewrite (defer_bind_Returns _ _ _ _ _ _
                 (Body_Read_drained _ _ _
                    {| pending := []; ending := Some e; closed := closed b |}
                    (body_at_with_body _ _ _) eq_refl)).
      simpl. rewrite defer_ret.
      now apply (ends_at_decode ctx req (DestValue unmarshal) st r e unmarshal).
Qed.

(** ** What [Do] returns *)

(** X1.  [Do] returns a response or an error, never both and never
    neither. *)
Theorem Do_returns_response_or_error ctx req v st resp err st' :
  Do ctx req v st = Returns (resp, err) st' ->
  (resp = None /\ err <> None) \/ (resp <> None /\ err = None).
Proof.
  intros H. pose proof (Do_ends_one_way ctx req v st) as Hends. rewrite H in Hends.
  inversion Hends; subst; (left; split; congruence) || (right; split; congruence).
Qed.

(** X2.  [Do] hands back a response only after the read of its body has
    failed: the gate was open, the transport has answered, the response is
    the answer with its status, headers and length, the status is 200, the
    rate header does not read [0], and [ReadAll] has returned an error on
    the body as the callback left it.  On a body that can be read to the end
    no call of [Do] returns a response. *)
Theorem Do_succeeds_only_after_a_failed_read ctx req v st resp st' :
  Do ctx req v st = Returns (Some resp, None) st' ->
  ~ blocked (stored st) (now st)
  /\ exists r e,
       Client.client (this st) ctx req (length (log st)) = Replied r
       /\ Response.Status resp = Reply_Status r
       /\ Response.StatusCode resp = 200
       /\ Response.Header resp = Reply_Header r
       /\ Response.ContentLength resp = Reply_ContentLength r
       /\ http.Header_Get (Reply_Header r) headerRateLimitRemaining <> "0"
       /\ read_result r req st = Some e.
Proof.
  intros H. pose proof (Do_ends_one_way ctx req v st) as Hends. rewrite H in Hends.
  inversion Hends; subst. split; [assumption|]. exists r, e.
  repeat split; try assumption; try reflexivity.
Qed.

(** X4.  The error of a call that the gate stops can be printed: its
    response is the fake 429 response, which holds the request, and the text
    gives the method and the URL of the request, the status, the message with
    the reset time, and the stored rate. *)
Theorem gate_error_can_be_printed ctx req v st :
  blocked (stored st) (now st) ->
  exists e st',
    Do ctx req v st = Returns (None, Some (ErrRateLimit e)) st'
    /\ error_Error (ErrRateLimit e)
       = Some ("RateLimitError: "
               +:+ ("ResponseError: " +:+ Request.Method req +:+ " "
                    +:+ URL_String (Request.URL req)
                    +:+ " (STATUS: " +:+ "429" +:+ ") "
                    +:+ ("API rate limit still exceeded until "
                         +:+ Time_String (Reset (stored st))
                         +:+ ", not making remote request."))
               +:+ String (ascii_of_N 10) EmptyString
               +:+ "RATE: " +:+ Rate_String (stored st)).
Proof.
  intros (Hrem & Hreset & Hlt).
  unfold Do, checkRateLimitBeforeDo, bind, get_this, stored, now in *.
  unfold time.IsZero, time.Before. simpl.
  rewrite Hrem. apply Z.eqb_neq in Hreset. rewrite Hreset.
  apply Z.ltb_lt in Hlt. simpl. rewrite Hlt.
  do 2 eexists. split; reflexivity.
Qed.

(** ** The typed getters *)

Lemma entity_unmarshal_is_UnmarshalJSON T value fuel :
  match entity_unmarshal T value with
  | DecodeFails e =>
      exists je, UnmarshalJSON T (S fuel) (json.trimLeft value) = Done (Some je)
                 /\ Error e = JSONError_Error je
  | DecodeLoops => UnmarshalJSON T (S fuel) (json.trimLeft value) = OutOfFuel
  | DecodeOk => False
  end.
Proof.
  unfold entity_unmarshal.
  destruct (json.checkValid (json.trimLeft value)) as [e|] eqn:Hv.
  - eexists. split; [apply (UnmarshalJSON_invalid T fuel _ e Hv)|reflexivity].
  - now apply UnmarshalJSON_valid.
Qed.

Lemma entity_unmarshal_never_succeeds T value : entity_unmarshal T value <> DecodeOk.
Proof. unfold entity_unmarshal. now destruct (json.checkValid _). Qed.

(** X5.  A typed getter never hands out an entity: when it returns, it
    returns an error and neither an entity nor a response.  The decoder never
    reports success on an entity, whatever the body holds: the entity's
    [UnmarshalJSON] returns an error or does not return. *)
Theorem getters_return_errors_only T ctx path opts st :
  (forall x resp err st',
     get_entity T ctx path opts st = Returns (x, resp, err) st' ->
     x = None /\ resp = None /\ err <> None)
  /\ (forall body st0 st',
        Decoder_Decode body (entity_unmarshal T) st0 <> Returns None st').
Proof.
  split.
  - unfold get_entity, bind. rewrite get_this_runs.
    destruct (NewJSONRequest (this st) "GET" path opts) as [e|req].
    { intros x resp err st' [= <- <- <- <-]. repeat split. discriminate. }
    pose proof (Do_ends_one_way ctx req (DestValue (entity_unmarshal T)) st) as Hends.
    destruct (Do ctx req (DestValue (entity_unmarshal T)) st)
      as [[resp0 err0] st0|reason st0|st0]; try discriminate.
    destruct err0 as [err0|].
    + intros x resp err st' [= <- <- <- <-]. repeat split. discriminate.
    + inversion Hends; discriminate.
  - intros body st0 st'. unfold Decoder_Decode, bind.
    destruct (get_body body st0) as [b st1|reason st1|st1]; try discriminate.
    destruct (put_body body _ st1) as [u st2|reason st2|st2]; try discriminate.
    destruct (readValue json.reset [] (pending b) (ending b)) as [e|value];
      [discriminate|].
    pose proof (entity_unmarshal_never_succeeds T value) as Hne.
    destruct (entity_unmarshal T value); [contradiction|discriminate|discriminate].
Qed.

(** ** [PostURL] *)

Lemma NewRequest_error c method path form err :
  NewRequest c method path form = inl err ->
  exists msg, err = ErrInternal {| InternalError_Message := msg |}.
Proof.
  unfold NewRequest. destruct (URL_Parse _ _) as [e|u].
  - intros [= <-]. eexists. reflexivity.
  - destruct (http_NewRequest _ _ _) as [e|req]; [|discriminate].
    intros [= <-]. eexists. reflexivity.
Qed.

(** X6.  When the request cannot be built, [PostURL] sends nothing and
    leaves the state as it is; the internal error of [NewRequest] comes back
    wrapped in a second internal error, whose message is the first one
    printed. *)
Theorem PostURL_wraps_the_request_error ctx path form st err :
  NewRequest (this st) "POST" path form = inl err ->
  exists msg,
    err = ErrInternal {| InternalError_Message := msg |}
    /\ PostURL ctx path form st
       = Returns (None, Some (ErrInternal
                    {| InternalError_Message := "InternalError: " +:+ msg |})) st.
Proof.
  intros H. destruct (NewRequest_error _ _ _ _ _ H) as (msg & ->).
  exists msg. split; [reflexivity|].
  unfold PostURL, bind. rewrite get_this_runs, H. reflexivity.
Qed.

(** ** [UserAgent] *)

Lemma set_userAgent_same c : set_userAgent (Client.userAgent c) c = c.
Proof. now destruct c. Qed.

(** X7.  [UserAgent] never returns the empty string and stores what it
    returns; from then on every call returns the stored string and changes
    nothing, whatever has happened to the user name in between. *)
Theorem UserAgent_is_made_once st :
  exists ua,
    UserAgent st = Returns ua (with_this (set_userAgent ua (this st)) st)
    /\ ua <> EmptyString
    /\ forall st2, Client.userAgent (this st2) = ua -> UserAgent st2 = Returns ua st2.
Proof.
  assert (Hcached : forall ua st2, ua <> EmptyString ->
            Client.userAgent (this st2) = ua -> UserAgent st2 = Returns ua st2).
  { intros ua st2 Hne Hua. unfold UserAgent, bind. rewrite get_this_runs.
    apply String.eqb_neq in Hne. rewrite Hua, Hne. reflexivity. }
  unfold UserAgent at 1. unfold bind. rewrite get_this_runs.
  destruct (String.eqb_spec (Client.userAgent (this st)) EmptyString) as [He|Hne].
  - eexists. split; [reflexivity|].
    assert (Hne : (if negb (String.eqb (Username (Client.credentials (this st))) EmptyString)
                   then "golang:" +:+ libraryName +:+ ":v" +:+ libraryVersion +:+ " (by /u/"
                        +:+ Username (Client.credentials (this st)) +:+ ")"
                   else "golang:" +:+ libraryName +:+ ":v" +:+ libraryVersion)
                  <> EmptyString).
    { destruct (negb _); discriminate. }
    split; [exact Hne|]. intros st2. now apply Hcached.
  - exists (Client.userAgent (this st)). rewrite set_userAgent_same.
    split; [now destruct st|]. split; [exact Hne|]. intros st2. now apply Hcached.
Qed.

(** ** The gate after a reply *)

Lemma Reset_rate_at_no_clock h t : reads_clock h = false -> Reset (rate_at h t) = 0.
Proof. intros H. unfold rate_at. simpl. now rewrite H. Qed.

(** X8.  A reply whose reset header is missing, is no number or reads 0
    leaves the gate open, whatever it says about the requests that remain: no
    later reading of the clock makes the stored rate block. *)
Theorem reply_without_reset_opens_the_gate ctx req v st r t :
  ~ blocked (stored st) (now st) ->
  Client.client (this st) ctx req (length (log st)) = Replied r ->
  reads_clock (Reply_Header r) = false ->
  ~ blocked (stored (final (Do ctx req v st))) t.
Proof.
  intros Hopen Hr Hreset (_ & Hset & _). apply Hset.
  rewrite (Do_stores_parsed_rate ctx req v st r Hopen Hr).
  now apply Reset_rate_at_no_clock.
Qed.

Lemma mul_Second_small n :
  0 < n <= 9223372036 -> time.mul time.Second n = 1000000000 * n.
Proof.
  intros H. unfold time.mul, time.Second, wrap64.
  change (2 ^ 63) with 9223372036854775808.
  change (2 ^ 64) with 18446744073709551616.
  rewrite Z.mod_small; lia.
Qed.

(** X9.  After a reply that leaves no request and gives a reset time of [n]
    seconds, a later call is held back exactly as long as the clock reads
    less than the start of the second of the reply plus [n] seconds; from
    then on it is sent.  A reply without the header of the remaining
    requests counts as one that leaves none. *)
Theorem gate_blocks_until_reset ctx req v st r n ctx' req' v' :
  ~ blocked (stored st) (now st) ->
  Client.client (this st) ctx req (length (log st)) = Replied r ->
  http.Header_Get (Reply_Header r) headerRateLimitRemaining = EmptyString
  \/ ParseFloat_to_int (http.Header_Get (Reply_Header r) headerRateLimitRemaining) = 0 ->
  http.Header_Get (Reply_Header r) headerRateLimitReset <> EmptyString ->
  fst (strconv.ParseInt (http.Header_Get (Reply_Header r) headerRateLimitReset)) = n ->
  0 < n <= 9223372036 ->
  0 <= now (gate_ticks st) ->
  let st1 := final (Do ctx req v st) in
  let reset := time.Truncate (now (gate_ticks st)) time.Second + 1000000000 * n in
  (now st1 < reset -> log (final (Do ctx' req' v' st1)) = log st1)
  /\ (reset <= now st1 -> log (final (Do ctx' req' v' st1)) = req' :: log st1).
Proof.
  intros Hopen Hr Hrem Hreset Hn Hrange Hclock st1 reset.
  assert (Hrem0 : Remaining (stored st1) = 0).
  { unfold st1. rewrite (Do_stores_parsed_rate ctx req v st r Hopen Hr).
    unfold rate_at. cbn [Remaining].
    destruct Hrem as [-> | Hrem]; [reflexivity|]. rewrite Hrem. now destruct (negb _). }
  assert (Hres : Reset (stored st1) = reset).
  { unfold st1. rewrite (Do_stores_parsed_rate ctx req v st r Hopen Hr).
    unfold rate_at, reads_clock. cbn [Reset]. rewrite Hn.
    apply String.eqb_neq in Hreset. rewrite Hreset.
    assert (Hz : (n =? 0) = false) by (apply Z.eqb_neq; lia). rewrite Hz.
    cbn [negb andb]. rewrite (mul_Second_small n Hrange). reflexivity. }
  assert (Hpos : 0 < reset).
  { unfold reset, time.Truncate, time.Second.
    pose proof (Z.mod_pos_bound (now (gate_ticks st)) 1000000000 ltac:(lia)) as Hm.
    pose proof (Z.mod_le (now (gate_ticks st)) 1000000000 Hclock ltac:(lia)). lia. }
  split; intros Ht.
  - assert (Hb : blocked (stored st1) (now st1)).
    { unfold blocked. rewrite Hrem0, Hres. repeat split; lia. }
    destruct (Do_blocked ctx' req' v' st1 Hb) as (e & h & -> & _). reflexivity.
  - apply Do_open_log. unfold blocked. rewrite Hres. lia.
Qed.

(** ** Runs that the examples use *)

Lemma Do_returns_response_when_read_fails ctx req st r b e :
  ~ blocked (stored st) (now st) ->
  Client.client (this st) ctx req (length (log st)) = Replied r ->
  http.Header_Get (Reply_Header r) headerRateLimitRemaining <> "0" ->
  Reply_StatusCode r = 200 ->
  body_at (Response.Body (received r req st)) (answered r req st) = Some b ->
  ending b = Some e ->
  exists st', Do ctx req DestNil st = Returns (Some (received r req st), None) st'.
Proof.
  intros Hopen Hr Hh Hs Hb He. run_to_check r req st Hopen Hr.
  apply String.eqb_neq in Hh. rewrite <- body_before_check in Hb.
  rewrite (defer_bind_Returns _ _ _ _ _ _
             (CheckResponse_read_fails (received r req st) (before_check r req st) b e Hh Hb He)).
  change (Response.StatusCode (received r req st)) with (Reply_StatusCode r).
  rewrite Hs. simpl (if _ =? _ then _ else _). cbv beta iota.
  rewrite defer_ret. eexists. reflexivity.
Qed.

Lemma get_entity_hands_on_the_error T ctx path opts st req resp err st' :
  NewJSONRequest (this st) "GET" path opts = inr req ->
  Do ctx req (DestValue (entity_unmarshal T)) st = Returns (resp, Some err) st' ->
  get_entity T ctx path opts st = Returns (None, None, Some err) st'.
Proof.
  intros Hreq HDo. unfold get_entity, bind. rewrite get_this_runs, Hreq, HDo. reflexivity.
Qed.

(** ** The headers of a new request *)

Lemma header_values_Add_same h key value req :
  header_values (Request.set_Header (http.Header_Add h key value) req) key
  = (default [] (h !! http.CanonicalMIMEHeaderKey key) ++ [value])%list.
Proof.
  unfold header_values, http.Header_Add. destruct req. simpl.
  now rewrite lookup_insert_eq.
Qed.

Lemma Header_Add_other h key value key' :
  http.CanonicalMIMEHeaderKey key <> http.CanonicalMIMEHeaderKey key' ->
  http.Header_Add h key value !! http.CanonicalMIMEHeaderKey key'
  = h !! http.CanonicalMIMEHeaderKey key'.
Proof. intros H. unfold http.Header_Add. now rewrite lookup_insert_ne. Qed.

Lemma media_types_added h ct req :
  let h' := http.Header_Add (http.Header_Add h headerContentType ct) headerAccept mediaTypeJSON in
  last (header_values (Request.set_Header h' req) headerContentType) = Some ct
  /\ last (header_values (Request.set_Header h' req) headerAccept) = Some mediaTypeJSON.
Proof.
  intros h'. split.
  - unfold header_values. destruct req. simpl. unfold h'.
    rewrite Header_Add_other by (vm_compute; discriminate).
    unfold http.Header_Add. rewrite lookup_insert_eq. simpl. apply last_snoc.
  - unfold h'. rewrite header_values_Add_same. apply last_snoc.
Qed.

(** X10.  Every request that [NewRequest] builds declares a form body and
    asks for JSON: the last [Content-Type] value is the form media type and
    the last [Accept] value is [application/json].  A request of
    [NewJSONRequest] declares a JSON body and asks for JSON. *)
Theorem new_requests_declare_their_media_types c method path :
  (forall form req,
     NewRequest c method path form = inr req ->
     last (header_values req headerContentType) = Some mediaTypeForm
     /\ last (header_values req headerAccept) = Some mediaTypeJSON)
  /\ (forall body req,
        NewJSONRequest c method path body = inr req ->
        last (header_values req headerContentType) = Some mediaTypeJSON
        /\ last (header_values req headerAccept) = Some mediaTypeJSON).
Proof.
  split.
  - intros form req. unfold NewRequest.
    destruct (URL_Parse _ _) as [e|u]; [discriminate|].
    destruct (http_NewRequest _ _ _) as [e|req0]; [discriminate|].
    intros [= <-]. apply media_types_added.
  - intros body req. unfold NewJSONRequest.
    destruct (URL_Parse _ _) as [e|u]; [discriminate|].
    destruct body as [[e|bs]|]; [discriminate| |];
      (destruct (http_NewRequest _ _ _) as [e|req0]; [discriminate|]);
      intros [= <-]; apply media_types_added.
Qed.

(** ** A transport that fails *)

Lemma send_failed_state ctx client req st r e :
  client ctx req (length (log st)) = Failed r e ->
  exists resp st',
    DoRequestWithClient ctx client req st = Returns (resp, Some e) st'
    /\ this st' = this st /\ log st' = req :: log st
    /\ came_with r resp st'.
Proof.
  intros H. unfold DoRequestWithClient, bind, get_world, put_world, log in *. simpl.
  rewrite H. destruct r as [r0|]; simpl.
  - do 2 eexists. split; [reflexivity|]. split; [reflexivity|]. split; [reflexivity|].
    eexists. split; [reflexivity|]. repeat split.
    unfold body_at. simpl. apply lookup_insert_eq.
  - do 2 eexists. repeat split.
Qed.

(** X11.  When the transport fails on a request that has passed the gate,
    [Do] returns a response error with the text of the transport error and
    with the response that came with it: none if the transport gave none,
    and otherwise the status, the headers, the length and the body of the
    one it gave.  The request has gone to the transport once, and the client,
    with its stored rate, is as it was. *)
Theorem transport_failure_is_reported ctx req v st r e :
  ~ blocked (stored st) (now st) ->
  Client.client (this st) ctx req (length (log st)) = Failed r e ->
  exists resp st',
    Do ctx req v st
    = Returns (None, Some (ErrResponse {| ResponseError_Message := Error e;
                                          ResponseError_Response := resp |})) st'
    /\ this st' = this st /\ log st' = req :: log st
    /\ came_with r resp st'.
Proof.
  intros Hopen Hr. unfold Do. rewrite (bind_Returns _ _ _ _ _ (gate_open _ _ Hopen)).
  unfold bind at 1. unfold get_this at 1.
  rewrite <- gate_ticks_log, <- gate_ticks_this in Hr.
  destruct (send_failed_state _ _ _ _ _ _ Hr) as (resp & st' & Hsend & Hthis & Hlog & Hresp).
  rewrite (bind_Returns _ _ _ _ _ Hsend). cbv beta iota.
  exists resp, st'. split; [reflexivity|].
  rewrite Hthis, Hlog, gate_ticks_this, gate_ticks_log. auto.
Qed.

(** ** The body is closed *)

Lemma Do_defers_Close ctx req v st r :
  ~ blocked (stored st) (now st) ->
  Client.client (this st) ctx req (length (log st)) = Replied r ->
  exists (rest : M (option Response.t * option error)) st5,
    Do ctx req v st = defer_Close (Response.Body (received r req st)) rest st5.
Proof.
  intros Hopen Hr. run_to_check r req st Hopen Hr. do 2 eexists. reflexivity.
Qed.

Lemma defer_Close_final {A} ref (m : M A) st :
  (forall st', defer_Close ref m st <> Diverges st') ->
  exists st', final (defer_Close ref m st) = close_body ref st'.
Proof.
  unfold defer_Close. destruct (m st) as [a st1|reason st1|st1];
    rewrite ?Body_Close_runs; intros H; simpl; eauto.
  now destruct (H st1).
Qed.

Lemma closed_by_close_body ref st b :
  body_at ref (close_body ref st) = Some b -> closed b = true.
Proof.
  unfold close_body. destruct (body_at ref st) as [b0|] eqn:Hb.
  - rewrite body_at_with_body. now intros [= <-].
  - congruence.
Qed.

(** X12.  Once the transport has answered, [Do] leaves the body of the
    response closed, whether it returns or panics. *)
Theorem Do_closes_the_body ctx req v st r b :
  ~ blocked (stored st) (now st) ->
  Client.client (this st) ctx req (length (log st)) = Replied r ->
  body_at (Response.Body (received r req st)) (final (Do ctx req v st)) = Some b ->
  closed b = true.
Proof.
  intros Hopen Hr.
  assert (Hnd : forall st', Do ctx req v st <> Diverges st').
  { intros st' H. pose proof (Do_ends_one_way ctx req v st) as Hends.
    rewrite H in Hends. inversion Hends. }
  destruct (Do_defers_Close ctx req v st r Hopen Hr) as (rest & st5 & HDo).
  rewrite HDo in *.
  destruct (defer_Close_final _ rest st5 Hnd) as (st' & ->).
  apply closed_by_close_body.
Qed.

(** ** The parameters of the mod notes *)

(** X13.  The parameters of a mod-notes query hold the limit exactly when
    it lies between 1 and 100, as its decimal digits; the subreddit and the
    user are always there, each once. *)
Theorem mod_note_limit_is_bounded (opts : ModNoteGetOptions.t) :
  ModNoteGetOptions.Params opts !! "limit"
  = (if (0 <? ModNoteGetOptions.Limit opts) && (ModNoteGetOptions.Limit opts <=? 100)
     then Some [Itoa (ModNoteGetOptions.Limit opts)] else None)
  /\ ModNoteGetOptions.Params opts !! "subreddit" = Some [ModNoteGetOptions.Subreddit opts]
  /\ ModNoteGetOptions.Params opts !! "user" = Some [ModNoteGetOptions.User opts].
Proof.
  unfold ModNoteGetOptions.Params, Values_Add.
  rewrite (andb_comm (0 <? _)).
  destruct (negb (String.eqb (ModNoteGetOptions.Before opts) EmptyString)),
    (negb (String.eqb (ModNoteGetOptions.Filter opts) ModNoteGetOptions.ModNoteFilterNone)),
    ((ModNoteGetOptions.Limit opts <=? 100) && (0 <? ModNoteGetOptions.Limit opts));
    repeat split; simplify_map_eq; reflexivity.
Qed.

(** ** Rate headers in decimal

    [strconv.Itoa] writes the decimal digits that [Atoi], [ParseInt] and,
    for small numbers, [ParseFloat] read back. *)

Lemma pretty_N_char_digit d :
  (d < 10)%N ->
  strconv.isDigit (pretty_N_char d) = true /\ strconv.digitVal (pretty_N_char d) = Z.of_N d.
Proof.
  intros H.
  assert (Hd : (d = 0 \/ d = 1 \/ d = 2 \/ d = 3 \/ d = 4 \/ d = 5 \/ d = 6 \/ d = 7
               \/ d = 8 \/ d = 9)%N) by lia.
  destruct Hd as [-> | [-> | [-> | [-> | [-> | [-> | [-> | [-> | [-> | ->]]]]]]]]];
    split; reflexivity.
Qed.

(** What the digits of [x] in front of [s] do to a parser that has read
    [n]: the loop of [Atoi] goes on with [n] shifted by the digits of [x]. *)
Lemma Atoi_loop_pretty_go x : forall s,
  exists k : nat,
    (x = 0%N /\ k = 0%nat \/ (0 < x)%N /\ (0 < k)%nat /\ 10 ^ (Z.of_nat k - 1) <= Z.of_N x)
    /\ Z.of_N x < 10 ^ Z.of_nat k
    /\ String.length (pretty_N_go x s) = (k + String.length s)%nat
    /\ (strconv.allDigits s = true -> strconv.allDigits (pretty_N_go x s) = true)
    /\ forall n, strconv.Atoi_loop n (pretty_N_go x s)
                 = strconv.Atoi_loop (n * 10 ^ Z.of_nat k + Z.of_N x) s.
Proof.
  induction (N.lt_wf_0 x) as [x _ IH]. intros s.
  destruct (N.eq_dec x 0%N) as [->|Hx].
  - exists 0%nat. rewrite pretty_N_go_0. repeat split; auto; try lia.
    intros n. f_equal. simpl. lia.
  - assert (Hpos : (0 < x)%N) by lia.
    rewrite pretty_N_go_step by exact Hpos.
    destruct (IH (x `div` 10)%N ltac:(apply N.div_lt; lia)
                (String (pretty_N_char (x `mod` 10)) s))
      as (k & Hk & Hlt & Hlen & Hdig & Hloop).
    destruct (pretty_N_char_digit (x `mod` 10)%N ltac:(apply N.mod_lt; lia)) as (Hd & Hv).
    pose proof (N.div_mod x 10 ltac:(lia)) as Hdm.
    pose proof (N.mod_lt x 10 ltac:(lia)) as Hmod.
    assert (Hx10 : Z.of_N x = 10 * Z.of_N (x `div` 10) + Z.of_N (x `mod` 10)) by lia.
    exists (S k). split; [|split; [|split; [|split]]].
    + right. split; [exact Hpos|]. split; [lia|].
      replace (Z.of_nat (S k) - 1) with (Z.of_nat k) by lia.
      destruct Hk as [(H0 & ->) | (Hq & Hk0 & Hle)].
      * simpl. lia.
      * replace (Z.of_nat k) with (1 + (Z.of_nat k - 1)) by lia.
        rewrite Z.pow_add_r by lia. change (10 ^ 1) with 10.
        pose proof (N2Z.is_nonneg (x `mod` 10)) as Hm0.
        revert Hle Hx10 Hm0.
        generalize (10 ^ (Z.of_nat k - 1)) (Z.of_N (x `div` 10)) (Z.of_N (x `mod` 10))
          (Z.of_N x).
        clear. intros. lia.
    + rewrite Nat2Z.inj_succ, Z.pow_succ_r by lia. lia.
    + rewrite Hlen. simpl. lia.
    + intros Hs. apply Hdig. simpl. now rewrite Hd, Hs.
    + intros n. rewrite Hloop. simpl. rewrite Hd, Hv. f_equal.
      rewrite Nat2Z.inj_succ, Z.pow_succ_r by lia. lia.
Qed.

Lemma Itoa_digits n :
  0 <= n ->
  exists k : nat,
    ((k = 1%nat /\ n = 0) \/ ((0 < k)%nat /\ 10 ^ (Z.of_nat k - 1) <= n))
    /\ String.length (Itoa n) = k
    /\ strconv.allDigits (Itoa n) = true
    /\ strconv.Atoi_loop 0 (Itoa n) = (n, None).
Proof.
  intros Hn. unfold Itoa, pretty, pretty_Z. destruct n as [|p|p]; [| |lia].
  - exists 1%nat. split; [left; split; reflexivity|]. repeat split.
  - unfold pretty, pretty_positive, pretty, pretty_N.
    destruct (decide (N.pos p = 0%N)) as [H|_]; try discriminate.
    destruct (Atoi_loop_pretty_go (N.pos p) EmptyString) as (k & Hk & _ & Hlen & Hdig & Hloop).
    destruct Hk as [(H0 & _) | (_ & Hk0 & Hle)]; try discriminate.
    exists k. split; [right; split; [exact Hk0|exact Hle]|].
    split; [rewrite Hlen; simpl; lia|]. split; [now apply Hdig|].
    rewrite Hloop. simpl. f_equal; lia.
Qed.

Lemma Atoi_loop_mono s : forall n v,
  0 <= n -> strconv.Atoi_loop n s = (v, None) -> n <= v.
Proof.
  induction s as [|c s IH]; intros n v Hn; simpl.
  - intros [= <-]. lia.
  - destruct (strconv.isDigit c) eqn:Hc; [|discriminate].
    intros H. apply IH in H.
    + unfold strconv.isDigit, ascii_le in Hc. unfold strconv.digitVal in *.
      apply andb_true_iff in Hc as [Hc _]. apply N.leb_le in Hc.
      change (N_of_ascii "0") with 48%N in Hc. lia.
    + unfold strconv.isDigit, ascii_le in Hc. unfold strconv.digitVal.
      apply andb_true_iff in Hc as [Hc _]. apply N.leb_le in Hc.
      change (N_of_ascii "0") with 48%N in Hc. lia.
Qed.

Lemma ParseUint_loop_small s : forall n v,
  0 <= n -> strconv.Atoi_loop n s = (v, None) -> v < 2 ^ 63 ->
  strconv.ParseUint_loop n s = (v, None).
Proof.
  induction s as [|c s IH]; intros n v Hn; simpl.
  - intros [= <-]. reflexivity.
  - destruct (strconv.isDigit c) eqn:Hc; [|discriminate]. simpl.
    intros H Hv.
    assert (Hd : 0 <= strconv.digitVal c).
    { unfold strconv.isDigit, ascii_le in Hc. unfold strconv.digitVal.
      apply andb_true_iff in Hc as [Hc _]. apply N.leb_le in Hc.
      change (N_of_ascii "0") with 48%N in Hc. lia. }
    pose proof (Atoi_loop_mono s (n * 10 + strconv.digitVal c) v ltac:(lia) H) as Hle.
    change (2 ^ 63) with 9223372036854775808 in Hv.
    change ((2 ^ 64 - 1) / 10 + 1) with 1844674407370955162.
    change (2 ^ 64 - 1) with 18446744073709551615.
    destruct (Z.leb_spec 1844674407370955162 n); [lia|].
    destruct (Z.ltb_spec 18446744073709551615 (n * 10 + strconv.digitVal c)); [lia|].
    apply IH; [lia|exact H|exact Hv].
Qed.

Lemma Itoa_first n :
  0 <= n -> exists c rest, Itoa n = String c rest /\ strconv.isDigit c = true.
Proof.
  intros Hn. destruct (Itoa_digits n Hn) as (k & Hk & Hlen & Hdig & _).
  destruct (Itoa n) as [|c rest]; [simpl in Hlen; lia|].
  exists c, rest. split; [reflexivity|]. simpl in Hdig.
  now apply andb_true_iff in Hdig as [Hc _].
Qed.

Lemma digit_is_no_sign c :
  strconv.isDigit c = true -> Ascii.eqb c "-" = false /\ Ascii.eqb c "+" = false.
Proof.
  intros Hc. split; apply Ascii.eqb_neq; intros ->; discriminate.
Qed.


Lemma Itoa_length n (d : nat) :
  0 <= n < 10 ^ Z.of_nat d -> (0 < d)%nat ->
  (0 < String.length (Itoa n) <= d)%nat.
Proof.
  intros Hn Hd. destruct (Itoa_digits n ltac:(lia)) as (k & Hk & Hlen & _).
  rewrite Hlen. destruct Hk as [(-> & _) | (Hk0 & Hle)]; [lia|].
  split; [exact Hk0|]. destruct (Nat.le_gt_cases k d) as [H|H]; [exact H|]. exfalso.
  assert (10 ^ Z.of_nat d <= 10 ^ (Z.of_nat k - 1)) by (apply Z.pow_le_mono_r; lia).
  lia.
Qed.

Lemma Atoi_Itoa n : 0 <= n < 10 ^ 18 -> strconv.Atoi (Itoa n) = (n, None).
Proof.
  intros Hn. destruct (Itoa_digits n ltac:(lia)) as (k & _ & _ & _ & Hloop).
  pose proof (Itoa_length n 18 Hn ltac:(lia)) as Hlen.
  destruct (Itoa_first n ltac:(lia)) as (c & rest & Hs & Hc).
  destruct (digit_is_no_sign c Hc) as (Hm & Hp).
  unfold strconv.Atoi.
  assert (Hfast : (0 <? Z.of_nat (String.length (Itoa n)))
                  && (Z.of_nat (String.length (Itoa n)) <? 19) = true).
  { apply andb_true_iff. split; apply Z.ltb_lt; lia. }
  rewrite Hfast. rewrite Hs in *. rewrite Hm, Hp. cbn [orb andb].
  rewrite Hloop. reflexivity.
Qed.

Lemma ParseInt_Itoa n : 0 <= n < 2 ^ 63 -> strconv.ParseInt (Itoa n) = (n, None).
Proof.
  intros Hn. destruct (Itoa_digits n ltac:(lia)) as (k & _ & _ & _ & Hloop).
  destruct (Itoa_first n ltac:(lia)) as (c & rest & Hs & Hc).
  destruct (digit_is_no_sign c Hc) as (Hm & Hp).
  unfold strconv.ParseInt. rewrite Hs in *. rewrite Hm, Hp.
  unfold strconv.ParseUint.
  rewrite (ParseUint_loop_small _ 0 n ltac:(lia) Hloop ltac:(lia)).
  cbn [negb andb].
  destruct (Z.leb_spec (2 ^ 63) n); [lia|]. reflexivity.
Qed.

Lemma smallDecimal_Itoa n : 0 <= n < 10 ^ 15 -> strconv.smallDecimal (Itoa n) = true.
Proof.
  intros Hn. destruct (Itoa_digits n ltac:(lia)) as (k & _ & _ & Hdig & _).
  pose proof (Itoa_length n 15 Hn ltac:(lia)) as Hlen.
  destruct (Itoa_first n ltac:(lia)) as (c & rest & Hs & _).
  unfold strconv.smallDecimal. rewrite Hdig.
  assert (Hne : String.eqb (Itoa n) EmptyString = false) by now rewrite Hs.
  rewrite Hne. simpl. apply Nat.leb_le. lia.
Qed.

Lemma Itoa_not_empty n : 0 <= n -> String.eqb (Itoa n) EmptyString = false.
Proof.
  intros Hn. destruct (Itoa_first n Hn) as (c & rest & -> & _). reflexivity.
Qed.

(** X14.  When the three rate headers of a reply are decimal numbers, the
    rate that [Do] stores has these numbers as its remaining and used
    requests, and its reset time is the start of the second in which the
    reply was parsed plus the number of seconds of the reset header. *)
Theorem decimal_rate_headers_are_stored ctx req v st r k m n :
  ~ blocked (stored st) (now st) ->
  Client.client (this st) ctx req (length (log st)) = Replied r ->
  http.Header_Get (Reply_Header r) headerRateLimitRemaining = Itoa k ->
  http.Header_Get (Reply_Header r) headerRateLimitUsed = Itoa m ->
  http.Header_Get (Reply_Header r) headerRateLimitReset = Itoa n ->
  0 <= k < 10 ^ 15 -> 0 <= m < 10 ^ 18 -> 0 < n <= 9223372036 ->
  stored (final (Do ctx req v st))
  = {| Remaining := k; Used := m;
       Reset := time.Truncate (now (gate_ticks st)) time.Second + 1000000000 * n |}.
Proof.
  intros Hopen Hr Hk Hm Hn Hkr Hmr Hnr.
  rewrite (Do_stores_parsed_rate ctx req v st r Hopen Hr).
  unfold rate_at, reads_clock. rewrite Hk, Hm, Hn.
  rewrite !Itoa_not_empty by lia. cbn [negb andb].
  unfold ParseFloat_to_int. rewrite (smallDecimal_Itoa k Hkr).
  destruct (Itoa_digits k ltac:(lia)) as (dk & _ & _ & _ & ->).
  rewrite (Atoi_Itoa m Hmr).
  rewrite (ParseInt_Itoa n) by (change (2 ^ 63) with 9223372036854775808; lia).
  cbn [fst]. assert (Hz : (n =? 0) = false) by (apply Z.eqb_neq; lia). rewrite Hz.
  cbn [negb]. rewrite (mul_Second_small n Hnr). reflexivity.
Qed.

(** ** Merging options into a query *)

Lemma range_assign_lookup visited : forall (origValues : Values) k,
  NoDup (map fst visited) ->
  range_assign visited origValues !! k
  = match (list_to_map visited : Values) !! k with
    | Some v => Some v
    | None => origValues !! k
    end.
Proof.
  unfold range_assign.
  induction visited as [|[k0 v0] rest IH]; intros origValues k Hnd; simpl.
  - now rewrite lookup_empty.
  - apply NoDup_cons in Hnd as [Hk0 Hnd]. rewrite (IH _ _ Hnd).
    destruct (decide (k0 = k)) as [->|Hne].
    + rewrite lookup_insert_eq.
      assert (Hnone : (list_to_map rest : Values) !! k = None).
      { apply not_elem_of_list_to_map_1. exact Hk0. }
      rewrite Hnone. now rewrite lookup_insert_eq.
    + rewrite !lookup_insert_ne by exact Hne. reflexivity.
Qed.

(** X15.  [addOptions] returns the URL with the merged query: a key of the
    options has the values of the options, any other key keeps the values it
    had in the URL.  The result does not depend on the order in which the
    runtime visits the map of the options. *)
Theorem addOptions_merges_the_queries {lib : QueryLib}
    (range : Values -> list (string * list string)) s u newValues :
  url_Parse s = inr u ->
  range newValues ≡ₚ map_to_list newValues ->
  exists merged : Values,
    addOptions range s (OptionsOf (inr newValues))
    = (URL_String (set_RawQuery (Values_Encode merged) u), None)
    /\ forall k,
         merged !! k = match newValues !! k with
                       | Some v => Some v
                       | None => URL_Query u !! k
                       end.
Proof.
  intros Hu Hperm. unfold addOptions. rewrite Hu.
  eexists. split; [reflexivity|]. intros k.
  assert (Hnd : NoDup (map fst (range newValues))).
  { rewrite Hperm. apply NoDup_fst_map_to_list. }
  rewrite (range_assign_lookup _ _ _ Hnd).
  assert (Hmap : (list_to_map (range newValues) : Values) = newValues).
  { rewrite (list_to_map_proper (M := gmap string) _ _ Hnd Hperm).
    apply list_to_map_to_list. }
  now rewrite Hmap.
Qed.


(** ** The loops of the menu widget *)

Lemma for_loop_S {St} n (body : nat -> St -> option St) s :
  widget.for_loop (S n) body s
  = match widget.for_loop n body s with Some s' => body n s' | None => None end.
Proof. unfold widget.for_loop. now rewrite seq_S, foldl_app. Qed.

Lemma for_loop_invariant {St} (P : nat -> St -> Prop) n (body : nat -> St -> option St) s :
  P 0%nat s ->
  (forall i s, (i < n)%nat -> P i s -> exists s', body i s = Some s' /\ P (S i) s') ->
  exists s', widget.for_loop n body s = Some s' /\ P n s'.
Proof.
  intros H0 Hstep. induction n as [|n IH].
  - exists s. split; [reflexivity|exact H0].
  - destruct IH as (s1 & Hrun & HP).
    { intros i s0 Hi. apply Hstep. lia. }
    destruct (Hstep n s1 ltac:(lia) HP) as (s2 & Hbody & HP2).
    exists s2. split; [|exact HP2]. now rewrite for_loop_S, Hrun.
Qed.

Lemma copied_0 {A B} (f : A -> B) z src : widget.copied f z src 0 = repeat z (length src).
Proof. unfold widget.copied. rewrite take_0, Nat.sub_0_r. reflexivity. Qed.

Lemma copied_all {A B} (f : A -> B) z src : widget.copied f z src (length src) = map f src.
Proof.
  unfold widget.copied. rewrite firstn_all, Nat.sub_diag. simpl. apply app_nil_r.
Qed.

Lemma copied_length {A B} (f : A -> B) z src i :
  (i <= length src)%nat -> length (widget.copied f z src i) = length src.
Proof.
  intros Hi. unfold widget.copied. rewrite length_app, length_map, length_take, repeat_length. lia.
Qed.

Lemma copied_lookup {A B} (f : A -> B) z src i :
  (i < length src)%nat -> widget.copied f z src i !! i = Some z.
Proof.
  intros Hi. unfold widget.copied.
  rewrite lookup_app_r by (rewrite length_map, length_take; lia).
  rewrite length_map, length_take.
  replace (i - i `min` length src)%nat with 0%nat by lia.
  destruct (length src - i)%nat eqn:Hn; [lia|]. reflexivity.
Qed.

Lemma copied_step {A B} (f : A -> B) z src i a :
  src !! i = Some a ->
  <[i := f a]> (widget.copied f z src i) = widget.copied f z src (S i).
Proof.
  intros Ha. pose proof (lookup_lt_Some _ _ _ Ha) as Hi. unfold widget.copied.
  rewrite insert_app_r_alt by (rewrite length_map, length_take; lia).
  rewrite length_map, length_take.
  replace (i - i `min` length src)%nat with 0%nat by lia.
  rewrite (take_S_r _ _ _ Ha), map_app, <- app_assoc. f_equal.
  destruct (length src - i)%nat eqn:Hn; [lia|].
  replace (length src - S i)%nat with n by lia. reflexivity.
Qed.

Lemma store_Some {A} (l : list A) i x y :
  l !! i = Some y -> widget.store l i x = Some (<[i := x]> l).
Proof. intros H. unfold widget.store. now rewrite H. Qed.

Lemma store_after_insert {A} (l : list A) i x y :
  (i < length l)%nat -> widget.store (<[i := y]> l) i x = Some (<[i := x]> l).
Proof.
  intros Hi. unfold widget.store.
  rewrite list_lookup_insert_eq by exact Hi. now rewrite list_insert_insert_eq.
Qed.

(** A loop that fills the slice under [get] of the entry [i], the way the
    inner loops of the two methods do. *)
Lemma inner_copy_loop {A B M} (f : A -> B) (z : B) (get : M -> list B)
    (set : list B -> M -> M) (src : list A) (body : nat -> list M -> option (list M))
    (md : list M) i m :
  (forall ch m, get (set ch m) = ch) ->
  (forall ch ch' m, set ch (set ch' m) = set ch m) ->
  (forall m, set (get m) m = m) ->
  (forall j a md m,
     src !! j = Some a -> md !! i = Some m ->
     body j md = match widget.store (get m) j (f a) with
                 | Some ch => widget.store md i (set ch m)
                 | None => None
                 end) ->
  md !! i = Some m ->
  get m = repeat z (length src) ->
  widget.for_loop (length src) body md = Some (<[i := set (map f src) m]> md).
Proof.
  intros Hget Hset Hsetget Hbody Hm Hz.
  pose proof (lookup_lt_Some _ _ _ Hm) as Hi.
  destruct (for_loop_invariant
              (fun j md' => md' = <[i := set (widget.copied f z src j) m]> md)
              (length src) body md) as (md' & Hrun & ->).
  - rewrite copied_0, <- Hz, Hsetget. symmetry. now apply list_insert_id.
  - intros j md' Hj ->.
    destruct (lookup_lt_is_Some_2 src j Hj) as (a & Ha).
    rewrite (Hbody j a _ (set (widget.copied f z src j) m) Ha)
      by (apply list_lookup_insert_eq; exact Hi).
    rewrite Hget.
    rewrite (store_Some _ _ _ z) by (apply copied_lookup; exact Hj).
    rewrite (store_Some _ _ _ (set (widget.copied f z src j) m))
      by (apply list_lookup_insert_eq; exact Hi).
    eexists. split; [reflexivity|].
    rewrite list_insert_insert_eq, Hset, copied_step by exact Ha. reflexivity.
  - rewrite Hrun, copied_all. reflexivity.
Qed.

(** A loop that builds a slice entry by entry, the way the outer loops
    do. *)
Lemma outer_copy_loop {A B} (f : A -> B) (z : B) (src : list A)
    (body : nat -> list B -> option (list B)) :
  (forall i a dst,
     src !! i = Some a -> dst !! i = Some z -> body i dst = Some (<[i := f a]> dst)) ->
  widget.for_loop (length src) body (repeat z (length src)) = Some (map f src).
Proof.
  intros Hbody.
  destruct (for_loop_invariant (fun i dst => dst = widget.copied f z src i)
              (length src) body (repeat z (length src))) as (dst & Hrun & ->).
  - now rewrite copied_0.
  - intros i dst Hi ->.
    destruct (lookup_lt_is_Some_2 src i Hi) as (a & Ha).
    rewrite (Hbody i a _ Ha (copied_lookup f z src i Hi)).
    eexists. split; [reflexivity|]. now apply copied_step.
  - now rewrite Hrun, copied_all.
Qed.

Section MenuLemmas.
Context {wire : widget.WireJSON}.

Lemma wire_of_menu_copies menu :
  widget.wire_of_menu menu
  = Some {| widget.menu_data := map widget.data_to_wire (widget.Menu_Data menu);
            widget.menu_kind := widget.WidgetKindMenu;
            widget.menu_showWiki := widget.Menu_ShowWiki menu |}.
Proof.
  unfold widget.wire_of_menu.
  rewrite (outer_copy_loop widget.data_to_wire widget.zero_widgetMenuData); [reflexivity|].
  intros i d dst Hd Ht. cbv beta. unfold widget.index. rewrite Hd, Ht. simpl.
  rewrite (store_Some _ _ _ _ Ht). simpl.
  pose proof (lookup_lt_Some _ _ _ Ht) as Hi.
  rewrite (inner_copy_loop widget.child_to_wire widget.zero_widgetMenuDataChild
             widget.data_children widget.set_data_children (widget.Data_Children d) _ _ i
             (widget.set_data_children
                (repeat widget.zero_widgetMenuDataChild (length (widget.Data_Children d)))
                widget.zero_widgetMenuData));
    [| reflexivity | reflexivity | now intros [] | | now apply list_lookup_insert_eq
     | reflexivity ].
  - simpl. rewrite list_insert_insert_eq.
    rewrite list_lookup_insert_eq by exact Hi. simpl.
    rewrite store_after_insert by exact Hi. simpl.
    rewrite list_lookup_insert_eq by exact Hi. simpl.
    rewrite store_after_insert by exact Hi. reflexivity.
  - intros j c md m Hc Hm. cbv beta. rewrite Hc. simpl. rewrite Hm. reflexivity.
Qed.

Lemma data_of_wire_copies temp :
  widget.data_of_wire temp = Some (map widget.data_from_wire (widget.menu_data temp)).
Proof.
  unfold widget.data_of_wire. rewrite repeat_length.
  apply (outer_copy_loop widget.data_from_wire widget.zero_WidgetMenuData).
  intros i t dst Ht Hm. cbv beta. unfold widget.index. rewrite Ht, Hm. simpl.
  rewrite (store_Some _ _ _ _ Hm). simpl.
  pose proof (lookup_lt_Some _ _ _ Hm) as Hi.
  rewrite (inner_copy_loop widget.child_of_wire widget.zero_WidgetMenuDataChild
             widget.Data_Children widget.set_Data_Children (widget.data_children t) _ _ i
             (widget.set_Data_Children
                (repeat widget.zero_WidgetMenuDataChild (length (widget.data_children t)))
                widget.zero_WidgetMenuData));
    [| reflexivity | reflexivity | now intros [] | | now apply list_lookup_insert_eq
     | reflexivity ].
  - simpl. rewrite list_insert_insert_eq.
    rewrite list_lookup_insert_eq by exact Hi. simpl.
    rewrite store_after_insert by exact Hi. simpl.
    rewrite list_lookup_insert_eq by exact Hi. simpl.
    rewrite store_after_insert by exact Hi. reflexivity.
  - intros j c md m Hc Hm'. cbv beta. rewrite Hc. simpl. rewrite Hm'. reflexivity.
Qed.

Lemma data_from_wire_to_wire l :
  map widget.data_from_wire (map widget.data_to_wire l) = l.
Proof.
  induction l as [|[children text url] rest IH]; [reflexivity|]. simpl. rewrite IH.
  f_equal. unfold widget.data_from_wire, widget.data_to_wire. simpl. f_equal.
  clear. induction children as [|[ctext curl] crest IHc]; [reflexivity|].
  simpl. now rewrite IHc.
Qed.

(** X16.  [MarshalJSON] of a menu never indexes a slice out of range.  It
    hands to [json.Marshal] the wire form with the kind [menu], the flag of
    the menu and a copy of every entry with all its children, and it wraps
    the error of [json.Marshal] in a [JSONError] without data. *)
Theorem WidgetMenu_MarshalJSON_copies_the_menu menu :
  widget.WidgetMenu_MarshalJSON menu
  = Some
      match widget.json_Marshal
              {| widget.menu_data := map widget.data_to_wire (widget.Menu_Data menu);
                 widget.menu_kind := "menu";
                 widget.menu_showWiki := widget.Menu_ShowWiki menu |} with
      | inl err =>
          ([], Some {| JSONError_Message := "error while marshalling widget: " +:+ Error err;
                       JSONError_Data := [] |})
      | inr data => (data, None)
      end.
Proof.
  unfold widget.WidgetMenu_MarshalJSON. rewrite wire_of_menu_copies. simpl.
  change widget.WidgetKindMenu with "menu".
  now destruct (widget.json_Marshal _).
Qed.

(** X17.  [UnmarshalJSON] of a menu never indexes a slice out of range.
    When it returns an error, for bytes that [json] rejects or for a widget
    of another kind, the receiver is as it was and the error carries the
    bytes; a widget of another kind is reported as not of type [menu]. *)
Theorem WidgetMenu_UnmarshalJSON_errors_keep_the_receiver menu data :
  exists menu' err,
    widget.WidgetMenu_UnmarshalJSON menu data = Some (menu', err)
    /\ (forall e, err = Some e -> menu' = menu /\ JSONError_Data e = data)
    /\ (forall temp,
          widget.json_Unmarshal data = inr temp ->
          widget.menu_kind temp <> "menu" ->
          err = Some {| JSONError_Message :=
                          "error while unmarshalling widget: unmarshalled widget is not of type menu";
                        JSONError_Data := data |}).
Proof.
  unfold widget.WidgetMenu_UnmarshalJSON.
  destruct (widget.json_Unmarshal data) as [e|temp].
  { do 2 eexists. split; [reflexivity|]. split.
    - intros e' [= <-]. split; reflexivity.
    - discriminate. }
  change widget.WidgetKindMenu with "menu".
  destruct (String.eqb_spec (widget.menu_kind temp) "menu") as [Hk|Hk]; simpl.
  - rewrite data_of_wire_copies. simpl. do 2 eexists. split; [reflexivity|]. split.
    + discriminate.
    + intros temp' [= <-] Hne. contradiction.
  - do 2 eexists. split; [reflexivity|]. split.
    + intros e' [= <-]. split; reflexivity.
    + intros temp' [= <-] _. reflexivity.
Qed.

(** X18.  What [MarshalJSON] writes for a menu, [UnmarshalJSON] reads back
    as that menu, into any receiver, provided [json.Unmarshal] reads the
    bytes that [json.Marshal] wrote for the wire form of this menu back as
    that wire form. *)
Theorem WidgetMenu_round_trip menu receiver data :
  (forall bytes,
     widget.json_Marshal
       {| widget.menu_data := map widget.data_to_wire (widget.Menu_Data menu);
          widget.menu_kind := "menu";
          widget.menu_showWiki := widget.Menu_ShowWiki menu |} = inr bytes ->
     widget.json_Unmarshal bytes
     = inr {| widget.menu_data := map widget.data_to_wire (widget.Menu_Data menu);
              widget.menu_kind := "menu";
              widget.menu_showWiki := widget.Menu_ShowWiki menu |}) ->
  widget.WidgetMenu_MarshalJSON menu = Some (data, None) ->
  widget.WidgetMenu_UnmarshalJSON receiver data = Some (menu, None).
Proof.
  intros Hlib. unfold widget.WidgetMenu_MarshalJSON. rewrite wire_of_menu_copies. simpl.
  change widget.WidgetKindMenu with "menu". intros Hm.
  assert (Hback := Hlib data). clear Hlib.
  destruct (widget.json_Marshal _) as [e|bytes]; [discriminate|].
  injection Hm as ->. unfold widget.WidgetMenu_UnmarshalJSON.
  rewrite (Hback eq_refl). simpl.
  rewrite data_of_wire_copies. simpl. rewrite data_from_wire_to_wire.
  now destruct menu.
Qed.

End MenuLemmas.
End Lemmas.

(** ** The claims on concrete inputs *)

#[local] Existing Instance Simple.platform.

(** After the response that announces the end of the budget, the next call
    is stopped at the gate: the transport has still seen one request only. *)
Lemma second_call_is_blocked :
  let st1 := final (Do 0%nat Sample.request DestNil (Sample.start Sample.exhausted)) in
  blocked (stored st1) (now st1)
  /\ log (final (Do 0%nat Sample.request DestNil st1)) = [Sample.request].
Proof.
  assert (H1 : stored (final (Do 0%nat Sample.request DestNil (Sample.start Sample.exhausted)))
               = {| Remaining := 0; Used := 60; Reset := 1700000120000000000 |}).
  { apply (Do_stores_parsed_rate 0%nat Sample.request DestNil
             (Sample.start Sample.exhausted) Sample.exhausted).
    - unfold blocked. simpl. lia.
    - reflexivity. }
  assert (Hb : blocked
                 (stored (final (Do 0%nat Sample.request DestNil
                                   (Sample.start Sample.exhausted))))
                 (now (final (Do 0%nat Sample.request DestNil
                                (Sample.start Sample.exhausted))))).
  { rewrite H1. vm_compute. repeat split; congruence. }
  split; [exact Hb|].
  destruct (Do_blocked 0%nat Sample.request DestNil _ Hb) as (e & h & -> & _).
  vm_compute. reflexivity.
Qed.

Lemma zero_rate_passes_gate_witness :
  stored (Sample.start Sample.success) = Rate_zero
  /\ checkRateLimitBeforeDo Sample.request (Sample.start Sample.success)
     = Returns None (Sample.start Sample.success)
  /\ forall ctx v,
       log (final (Do ctx Sample.request v (Sample.start Sample.success)))
       = Sample.request :: log (Sample.start Sample.success).
Proof.
  split; [reflexivity|].
  apply (zero_rate_passes_gate Sample.request (Sample.start Sample.success)).
  reflexivity.
Defined.

Lemma exhausted_header_gives_rate_limit_error_witness :
  Reply_StatusCode Sample.exhausted = 200
  /\ exists e st',
       Do 0%nat Sample.request Sample.any_value (Sample.start Sample.exhausted)
       = Returns (None, Some (ErrRateLimit e)) st'
       /\ Remaining (RateLimitError_Rate e) = 0.
Proof.
  split; [reflexivity|].
  destruct (exhausted_header_gives_rate_limit_error 0%nat Sample.request Sample.any_value
              (Sample.start Sample.exhausted) Sample.exhausted)
    as (e & st' & HDo & _ & Hrem & _).
  - unfold blocked. simpl. lia.
  - reflexivity.
  - vm_compute. reflexivity.
  - exists e, st'. split; assumption.
Defined.

Lemma rate_headers_parsed_and_stored_witness :
  stored (final (Do 0%nat Sample.request DestNil (Sample.start Sample.exhausted)))
  = {| Remaining := 0; Used := 60; Reset := 1700000120000000000 |}.
Proof.
  apply (rate_headers_parsed_and_stored 0%nat Sample.request DestNil
           (Sample.start Sample.exhausted) Sample.exhausted).
  - vm_compute. reflexivity.
  - vm_compute. reflexivity.
  - vm_compute. reflexivity.
  - unfold blocked. simpl. lia.
  - reflexivity.
Defined.

Lemma non200_response_panics_witness :
  exists st',
    Do 0%nat Sample.request DestNil (Sample.start Sample.not_found)
    = Panics nil_dereference st'.
Proof.
  apply (non200_response_panics 0%nat Sample.request DestNil
           (Sample.start Sample.not_found) Sample.not_found
           (stream_of Sample.not_found)).
  - unfold blocked. simpl. lia.
  - reflexivity.
  - vm_compute. discriminate.
  - vm_compute. discriminate.
  - vm_compute. reflexivity.
  - reflexivity.
Defined.

Lemma success_response_panics_before_decoding_witness :
  exists st',
    Do 0%nat Sample.request Sample.any_value (Sample.start Sample.success)
    = Panics nil_dereference st'
    /\ sinks (heap (world st'))
       = sinks (heap (world (answered Sample.success Sample.request
                               (Sample.start Sample.success)))).
Proof.
  apply (success_response_panics_before_decoding 0%nat Sample.request Sample.any_value
           (Sample.start Sample.success) Sample.success (stream_of Sample.success)).
  - unfold blocked. simpl. lia.
  - reflexivity.
  - vm_compute. discriminate.
  - reflexivity.
  - vm_compute. reflexivity.
  - reflexivity.
Defined.

Lemma json_suffix_on_readonly_host_only_witness :
  (exists req,
     NewRequest (Simple.newReadonlyClient (Simple.always Sample.success))
       "GET" "r/foo/about" None = inr req
     /\ URL_String (Request.URL req) = "https://reddit.com/r/foo/about.json")
  /\ (exists req,
        NewRequest (Simple.newClient (Simple.always Sample.success))
          "GET" "r/foo/about" None = inr req
        /\ URL_String (Request.URL req) = "https://oauth.reddit.com/r/foo/about").
Proof.
  split.
  - destruct (json_suffix_on_readonly_host_only
                (Simple.newReadonlyClient (Simple.always Sample.success))
                "GET" "r/foo/about" None Simple.readonlyURL
                (url.set_Path "/r/foo/about" Simple.readonlyURL)
                {| Request.Method := "GET";
                   Request.URL := url.set_Path "/r/foo/about" Simple.readonlyURL;
                   Request.Header := ∅; Request.Body := None |})
      as (req & Hreq & Hro & _); try reflexivity.
    exists req. split; [exact Hreq|]. now rewrite (Hro eq_refl).
  - destruct (json_suffix_on_readonly_host_only
                (Simple.newClient (Simple.always Sample.success))
                "GET" "r/foo/about" None Simple.readonlyURL
                (url.set_Path "/r/foo/about" Simple.oauthURL)
                {| Request.Method := "GET";
                   Request.URL := url.set_Path "/r/foo/about" Simple.oauthURL;
                   Request.Header := ∅; Request.Body := None |})
      as (req & Hreq & _ & Hoauth); try reflexivity.
    exists req. split; [exact Hreq|]. rewrite Hoauth; [reflexivity|].
    vm_compute. discriminate.
Defined.

Lemma UnmarshalJSON_does_not_return_on_valid_json_witness :
  json.checkValid (json_text "{}") = None
  /\ forall fuel, UnmarshalJSON Listing fuel (json_text "{}") = OutOfFuel.
Proof.
  split; [reflexivity|].
  apply (UnmarshalJSON_does_not_return_on_valid_json Listing (json_text "{}")).
  reflexivity.
Defined.

(** ** The further properties on concrete inputs *)

(** The run on a 404 reply over a broken connection, which the examples
    below share. *)
Lemma broken_not_found_run v :
  exists st',
    Do 0%nat Sample.request v (Sample.start (Fault.broken Sample.not_found))
    = Returns (None,
               Some (ErrResponse
                 {| ResponseError_Response :=
                      Some (received (Fault.broken Sample.not_found) Sample.request
                              (Sample.start (Fault.broken Sample.not_found)));
                    ResponseError_Message := Error io_ErrUnexpectedEOF |})) st'.
Proof.
  apply (non200_response_error_when_read_fails 0%nat Sample.request v
           (Sample.start (Fault.broken Sample.not_found)) (Fault.broken Sample.not_found)
           (stream_of (Fault.broken Sample.not_found)) io_ErrUnexpectedEOF).
  - unfold blocked. simpl. lia.
  - reflexivity.
  - vm_compute. discriminate.
  - vm_compute. discriminate.
  - vm_compute. reflexivity.
  - reflexivity.
Qed.

Lemma Do_returns_response_or_error_witness :
  exists resp err st',
    Do 0%nat Sample.request DestNil (Sample.start (Fault.broken Sample.not_found))
    = Returns (resp, err) st'
    /\ ((resp = None /\ err <> None) \/ (resp <> None /\ err = None)).
Proof.
  destruct (broken_not_found_run DestNil) as (st' & H).
  do 3 eexists. split; [exact H|].
  exact (Do_returns_response_or_error _ _ _ _ _ _ _ H).
Defined.

Lemma Do_succeeds_only_after_a_failed_read_witness :
  exists resp st' e,
    Do 0%nat Sample.request DestNil (Sample.start (Fault.broken Sample.success))
    = Returns (Some resp, None) st'
    /\ Response.StatusCode resp = 200
    /\ read_result (Fault.broken Sample.success) Sample.request
         (Sample.start (Fault.broken Sample.success)) = Some e.
Proof.
  destruct (Do_returns_response_when_read_fails 0%nat Sample.request
              (Sample.start (Fault.broken Sample.success)) (Fault.broken Sample.success)
              (stream_of (Fault.broken Sample.success)) io_ErrUnexpectedEOF)
    as (st' & H).
  - unfold blocked. simpl. lia.
  - reflexivity.
  - vm_compute. discriminate.
  - reflexivity.
  - vm_compute. reflexivity.
  - reflexivity.
  - destruct (Do_succeeds_only_after_a_failed_read _ _ _ _ _ _ H)
      as (_ & r & e & Hr & _ & Hs & _ & _ & _ & He).
    injection Hr as <-.
    exists (received (Fault.broken Sample.success) Sample.request
              (Sample.start (Fault.broken Sample.success))), st', e.
    split; [exact H|]. split; [exact Hs|exact He].
Defined.

Lemma gate_error_can_be_printed_witness :
  blocked (stored Held.start) (now Held.start)
  /\ exists e st' text,
       Do 0%nat Sample.request Sample.any_value Held.start
       = Returns (None, Some (ErrRateLimit e)) st'
       /\ error_Error (ErrRateLimit e) = Some text.
Proof.
  assert (Hb : blocked (stored Held.start) (now Held.start)).
  { split; [reflexivity|]. split; [vm_compute; discriminate|vm_compute; reflexivity]. }
  split; [exact Hb|].
  destruct (gate_error_can_be_printed 0%nat Sample.request Sample.any_value Held.start Hb)
    as (e & st' & H & Htext).
  exists e, st'. eexists. split; [exact H|exact Htext].
Defined.

Lemma getters_return_errors_only_witness :
  exists x resp err st',
    getListing 0%nat "r/golang/hot" None (Sample.start (Fault.broken Sample.not_found))
    = Returns (x, resp, err) st'
    /\ x = None /\ resp = None /\ err <> None.
Proof.
  destruct (NewJSONRequest (this (Sample.start (Fault.broken Sample.not_found)))
              "GET" "r/golang/hot" None) as [e|req] eqn:Hreq;
    [vm_compute in Hreq; discriminate|].
  destruct (non200_response_error_when_read_fails 0%nat req
              (DestValue (entity_unmarshal Listing))
              (Sample.start (Fault.broken Sample.not_found))
              (Fault.broken Sample.not_found)
              (stream_of (Fault.broken Sample.not_found)) io_ErrUnexpectedEOF)
    as (st' & H).
  - unfold blocked. simpl. lia.
  - reflexivity.
  - vm_compute. discriminate.
  - vm_compute. discriminate.
  - vm_compute. reflexivity.
  - reflexivity.
  - pose proof (get_entity_hands_on_the_error Listing 0%nat "r/golang/hot" None _ _ _ _ _
                  Hreq H) as Hget.
    do 4 eexists. split; [exact Hget|].
    exact (proj1 (getters_return_errors_only Listing 0%nat "r/golang/hot" None
                    (Sample.start (Fault.broken Sample.not_found))) _ _ _ _ Hget).
Defined.

Lemma PostURL_wraps_the_request_error_witness :
  exists msg,
    PostURL (platform := Fault.platform) 0%nat Fault.bad_path None
      (Sample.start Sample.success)
    = Returns (None, Some (ErrInternal
                 {| InternalError_Message := "InternalError: " +:+ msg |}))
        (Sample.start Sample.success).
Proof.
  destruct (PostURL_wraps_the_request_error (platform := Fault.platform) 0%nat
              Fault.bad_path None (Sample.start Sample.success)
              (ErrInternal {| InternalError_Message :=
                                "net/url: invalid control character in URL" |})
              eq_refl) as (msg & _ & H).
  exists msg. exact H.
Defined.

Lemma reply_without_reset_opens_the_gate_witness :
  reads_clock (Sample.headers "0" "600" "soon") = false
  /\ ~ blocked
        (stored (final (Do 0%nat Sample.request DestNil
                          (Sample.start
                             (Sample.reply 200 (Sample.headers "0" "600" "soon") [])))))
        1700000001000000000.
Proof.
  split; [vm_compute; reflexivity|].
  apply (reply_without_reset_opens_the_gate 0%nat Sample.request DestNil
           (Sample.start (Sample.reply 200 (Sample.headers "0" "600" "soon") []))
           (Sample.reply 200 (Sample.headers "0" "600" "soon") []) 1700000001000000000).
  - unfold blocked. simpl. lia.
  - reflexivity.
  - vm_compute. reflexivity.
Defined.

Lemma gate_blocks_until_reset_witness :
  let st1 := final (Do 0%nat Sample.request DestNil (Sample.start Sample.exhausted)) in
  let reset := time.Truncate (now (gate_ticks (Sample.start Sample.exhausted))) time.Second
               + 1000000000 * 120 in
  reset = 1700000120000000000
  /\ (now st1 < reset ->
      log (final (Do 1%nat Sample.request Sample.any_value st1)) = log st1)
  /\ (reset <= now st1 ->
      log (final (Do 1%nat Sample.request Sample.any_value st1)) = Sample.request :: log st1).
Proof.
  intros st1 reset. split; [vm_compute; reflexivity|].
  apply (gate_blocks_until_reset 0%nat Sample.request DestNil
           (Sample.start Sample.exhausted) Sample.exhausted 120
           1%nat Sample.request Sample.any_value).
  - unfold blocked. simpl. lia.
  - reflexivity.
  - right. vm_compute. reflexivity.
  - vm_compute. discriminate.
  - vm_compute. reflexivity.
  - lia.
  - vm_compute. discriminate.
Defined.

Lemma decimal_rate_headers_are_stored_witness :
  stored (final (Do 0%nat Sample.request DestNil (Sample.start Sample.not_found)))
  = {| Remaining := 59; Used := 1; Reset := 1700000120000000000 |}.
Proof.
  etransitivity.
  - apply (decimal_rate_headers_are_stored 0%nat Sample.request DestNil
             (Sample.start Sample.not_found) Sample.not_found 59 1 120).
    + unfold blocked. simpl. lia.
    + reflexivity.
    + vm_compute. reflexivity.
    + vm_compute. reflexivity.
    + vm_compute. reflexivity.
    + lia.
    + lia.
    + lia.
  - vm_compute. reflexivity.
Defined.

Lemma new_requests_declare_their_media_types_witness :
  exists req,
    NewRequest (Simple.newClient (Simple.always Sample.success)) "GET" "r/golang/hot" None
    = inr req
    /\ last (header_values req headerContentType) = Some mediaTypeForm
    /\ last (header_values req headerAccept) = Some mediaTypeJSON.
Proof.
  destruct (NewRequest (Simple.newClient (Simple.always Sample.success)) "GET"
              "r/golang/hot" None) as [e|req] eqn:Hreq;
    [vm_compute in Hreq; discriminate|].
  exists req. split; [reflexivity|].
  exact (proj1 (new_requests_declare_their_media_types
                  (Simple.newClient (Simple.always Sample.success)) "GET" "r/golang/hot")
           None req Hreq).
Defined.

Lemma transport_failure_is_reported_witness :
  exists resp st',
    Do 0%nat Sample.request Sample.any_value Offline.start_redirecting
    = Returns (None, Some (ErrResponse
                 {| ResponseError_Message := "net/http: stopped after 10 redirects";
                    ResponseError_Response := Some resp |})) st'
    /\ Response.StatusCode resp = 302
    /\ body_at (Response.Body resp) st'
       = Some {| pending := list_byte_of_string "Found"; ending := None; closed := true |}
    /\ log st' = [Sample.request].
Proof.
  destruct (transport_failure_is_reported 0%nat Sample.request Sample.any_value
              Offline.start_redirecting (Some Offline.moved) Offline.stopped)
    as (resp & st' & H & Hthis & Hlog & resp0 & -> & _ & Hs & _ & _ & Hbody).
  - unfold blocked. simpl. lia.
  - reflexivity.
  - exists resp0, st'. split; [exact H|]. split; [exact Hs|]. split; [exact Hbody|exact Hlog].
Defined.

Lemma Do_closes_the_body_witness :
  exists b,
    body_at (Response.Body (received Sample.success Sample.request
                              (Sample.start Sample.success)))
      (final (Do 0%nat Sample.request Sample.any_value (Sample.start Sample.success)))
    = Some b
    /\ closed b = true.
Proof.
  destruct (body_at (Response.Body (received Sample.success Sample.request
                                      (Sample.start Sample.success)))
              (final (Do 0%nat Sample.request Sample.any_value
                        (Sample.start Sample.success)))) as [b|] eqn:Hb;
    [|vm_compute in Hb; discriminate].
  exists b. split; [reflexivity|].
  apply (Do_closes_the_body 0%nat Sample.request Sample.any_value
           (Sample.start Sample.success) Sample.success b).
  - unfold blocked. simpl. lia.
  - reflexivity.
  - exact Hb.
Defined.

Lemma UserAgent_is_made_once_witness :
  let st := with_this (Fault.with_username "alice" (this (Sample.start Sample.success)))
              (Sample.start Sample.success) in
  exists ua,
    UserAgent st = Returns ua (with_this (set_userAgent ua (this st)) st)
    /\ ua <> EmptyString
    /\ UserAgent (with_this (Fault.with_username "bob" (set_userAgent ua (this st))) st)
       = Returns ua (with_this (Fault.with_username "bob" (set_userAgent ua (this st))) st).
Proof.
  intros st. destruct (UserAgent_is_made_once st) as (ua & H1 & Hne & Hlater).
  exists ua. split; [exact H1|]. split; [exact Hne|].
  apply Hlater. reflexivity.
Defined.

#[local] Existing Instance SimpleQuery.lib.

Lemma addOptions_merges_the_queries_witness :
  exists merged : Values,
    addOptions map_to_list "https://oauth.reddit.com/r/golang/hot?limit=25&after=t3_a"
      (OptionsOf (inr {[ "limit" := ["100"] ]}))
    = (URL_String
         (set_RawQuery (Values_Encode merged)
            (url.set_Path "/r/golang/hot" Simple.oauthURL)), None)
    /\ merged !! "limit" = Some ["100"]
    /\ merged !! "after" = Some ["t3_a"].
Proof.
  destruct (addOptions_merges_the_queries map_to_list
              "https://oauth.reddit.com/r/golang/hot?limit=25&after=t3_a"
              {| url.Scheme := "https"; url.Host := "oauth.reddit.com";
                 url.Path := "/r/golang/hot"; url.RawQuery := "limit=25&after=t3_a" |}
              {[ "limit" := ["100"] ]}) as (merged & H & Hlookup).
  - vm_compute. reflexivity.
  - reflexivity.
  - exists merged. split; [|split].
    + rewrite H. reflexivity.
    + rewrite Hlookup. vm_compute. reflexivity.
    + rewrite Hlookup. vm_compute. reflexivity.
Defined.

#[local] Existing Instance widget.Codec.wire.

Lemma WidgetMenu_round_trip_witness :
  widget.WidgetMenu_MarshalJSON widget.Codec.one_entry
  = Some (json_text (widget.Codec.menu_json widget.Codec.one_entry_wire), None)
  /\ widget.WidgetMenu_UnmarshalJSON
       {| widget.Menu_Data := []; widget.Menu_ShowWiki := true |}
       (json_text (widget.Codec.menu_json widget.Codec.one_entry_wire))
     = Some (widget.Codec.one_entry, None).
Proof.
  assert (Hm : widget.WidgetMenu_MarshalJSON widget.Codec.one_entry
               = Some (json_text (widget.Codec.menu_json widget.Codec.one_entry_wire), None))
    by (vm_compute; reflexivity).
  split; [exact Hm|].
  apply (WidgetMenu_round_trip widget.Codec.one_entry
           {| widget.Menu_Data := []; widget.Menu_ShowWiki := true |} _); [|exact Hm].
  intros bytes [= <-]. vm_compute. reflexivity.
Defined.

Lemma WidgetMenu_UnmarshalJSON_errors_keep_the_receiver_witness :
  widget.WidgetMenu_UnmarshalJSON widget.Codec.one_entry
    (json_text widget.Codec.image_text)
  = Some (widget.Codec.one_entry,
          Some {| JSONError_Message :=
                    "error while unmarshalling widget: unmarshalled widget is not of type menu";
                  JSONError_Data := json_text widget.Codec.image_text |}).
Proof.
  destruct (WidgetMenu_UnmarshalJSON_errors_keep_the_receiver widget.Codec.one_entry
              (json_text widget.Codec.image_text)) as (menu' & err & H & Hkeep & Hkind).
  assert (Herr : err = Some {| JSONError_Message :=
                                  "error while unmarshalling widget: unmarshalled widget is not of type menu";
                                JSONError_Data := json_text widget.Codec.image_text |}).
  { apply (Hkind {| widget.menu_data := []; widget.menu_kind := widget.WidgetKindImage;
                    widget.menu_showWiki := false |}).
    - vm_compute. reflexivity.
    - vm_compute. discriminate. }
  rewrite H. subst err. destruct (Hkeep _ eq_refl) as (-> & _). reflexivity.
Defined.
